(** * Delisp type inference: constraint generation and the module driver

    A shallow embedding of [packages/delisp-core/src/infer.ts] together with
    the parts of [types.ts] it relies on.  The generator [infer] is a state
    and exception monad over the counter of the fresh-variable source; the
    constraint solver is a parameter of the module driver. *)

From stdpp Require Import gmap strings list fin_maps pretty.

Set Default Proof Using "Type".
Set Warnings "-clear-no-such-hyp,-register-all".
Open Scope string_scope.
Open Scope list_scope.

(** Induction schemes for the containers the syntax trees are nested in. *)
Scheme All for list.
Scheme All for prod.
Scheme All for option.

(** ** Types ([types.ts]) *)

Inductive Monotype : Type :=
| TConstant (name : string)
| TApplication (op : Monotype) (args : list Monotype)
| TVar (name : string) (userSpecified : bool)
| REmpty
| RExtension (label : string) (labelType : Monotype) (extends : Monotype).

Record TypeSchema := mkTypeSchema { tvars : list string; mono : Monotype }.

Definition tConstant (name : string) : Monotype := TConstant name.

Definition tcArrow := tConstant "->".
Definition tcVector := tConstant "vector".
Definition tcRecord := tConstant "record".
Definition tVoid := tConstant "void".
Definition tBoolean := tConstant "boolean".
Definition tNumber := tConstant "number".
Definition tString := tConstant "string".

Definition tVar (name : string) (userSpecified : bool) : Monotype :=
  TVar name userSpecified.

Definition tApp (op : Monotype) (args : list Monotype) : Monotype :=
  TApplication op args.

Definition tVector (t : Monotype) : Monotype := tApp tcVector [t].

Definition emptyRow : Monotype := REmpty.

Definition tRowExtension (label : string) (labelType row : Monotype) : Monotype :=
  RExtension label labelType row.

(** [fields.reduceRight((row, {label, type}) => tRowExtension(label, type, row), extending)] *)
Definition tRow (fields : list (string * Monotype)) (extending : Monotype) : Monotype :=
  foldr (fun f row => tRowExtension f.1 f.2 row) extending fields.

Definition tRecord (fields : list (string * Monotype)) (extending : Monotype) : Monotype :=
  tApp tcRecord [tRow fields extending].

(** Modelled from the spec: the [types.ts] that [infer.ts] imports [tFn],
    [tEffect] and [tVariant] from. Function types are
    [App(->, arg1 ... argn, effect, result)], variants are [App(variant, row)]
    and effect types are [App(effect, row)]. *)
Definition tcEffect := tConstant "effect".
Definition tcVariant := tConstant "variant".

Definition tFn (args : list Monotype) (effect out : Monotype) : Monotype :=
  tApp tcArrow (args ++ [effect; out]).

Definition tEffect (labels : list string) : Monotype :=
  tApp tcEffect [tRow (map (fun l => (l, tVoid)) labels) emptyRow].

Definition tVariant (cases : list (string * Monotype)) : Monotype :=
  tApp tcVariant [tRow cases emptyRow].

(** Names of the type variables of a type, and names of its constants,
    left to right. *)
Fixpoint listTypeVariables (t : Monotype) : list string :=
  match t with
  | TConstant _ => []
  | TApplication op args => listTypeVariables op ++ flat_map listTypeVariables args
  | TVar name _ => [name]
  | REmpty => []
  | RExtension _ labelType extends =>
      listTypeVariables labelType ++ listTypeVariables extends
  end.

(** Modelled from the spec: [listTypeConstants] of the absent [type-utils.ts],
    the constants mentioned in a type (the alias graph has an edge to every
    alias mentioned in a right-hand side). *)
Fixpoint listTypeConstants (t : Monotype) : list string :=
  match t with
  | TConstant name => [name]
  | TApplication op args => listTypeConstants op ++ flat_map listTypeConstants args
  | TVar _ _ => []
  | REmpty => []
  | RExtension _ labelType extends =>
      listTypeConstants labelType ++ listTypeConstants extends
  end.

(** Structural equality of types, used where the source compares objects:
    every node the generator creates carries variables of its own. *)
Fixpoint Monotype_eq_dec (a b : Monotype) {struct a} : Decision (a = b).
Proof.
  refine (match a, b with
  | TConstant n, TConstant m => cast_if (decide (n = m))
  | TApplication o1 a1, TApplication o2 a2 =>
      cast_if_and (Monotype_eq_dec o1 o2) (@list_eq_dec _ Monotype_eq_dec a1 a2)
  | TVar n u, TVar m v => cast_if_and (decide (n = m)) (decide (u = v))
  | REmpty, REmpty => left _
  | RExtension l1 t1 e1, RExtension l2 t2 e2 =>
      cast_if_and3 (decide (l1 = l2)) (Monotype_eq_dec t1 t2)
        (Monotype_eq_dec e1 e2)
  | _, _ => right _
  end); congruence.
Defined.
#[global] Existing Instance Monotype_eq_dec.

(** ** Typed syntax ([syntax.ts], as used by [infer.ts]) *)

Record Typed := mkTyped { type : Monotype; effect : Monotype }.

(** A type annotation as written, wildcards included. *)
Inductive TypeWithWildcards := mkTypeWithWildcards (body : Monotype).

Inductive Expression (I : Type) : Type :=
| EUnknown (info : I)
| ENumber (value : Z) (info : I)
| EString (value : string) (info : I)
| EVector (values : list (Expression I)) (info : I)
| ERecord (fields : list (string * Expression I))
    (extends : option (Expression I)) (info : I)
| EVariableReference (name : string) (info : I)
| EConditional (condition consequent alternative : Expression I) (info : I)
| EFunction (lambdaList : list string) (body : list (Expression I)) (info : I)
| EFunctionCall (fn : Expression I) (args : list (Expression I)) (info : I)
| ELetBindings (bindings : list (string * Expression I))
    (body : list (Expression I)) (info : I)
| ETypeAnnotation (typeWithWildcards : TypeWithWildcards)
    (value : Expression I) (info : I)
| EDoBlock (body : list (Expression I)) (returning : Expression I) (info : I)
| EMatch (value : Expression I)
    (cases : list (string * string * list (Expression I))) (info : I).

Arguments EUnknown {I} info.
Arguments ENumber {I} value info.
Arguments EString {I} value info.
Arguments EVector {I} values info.
Arguments ERecord {I} fields extends info.
Arguments EVariableReference {I} name info.
Arguments EConditional {I} condition consequent alternative info.
Arguments EFunction {I} lambdaList body info.
Arguments EFunctionCall {I} fn args info.
Arguments ELetBindings {I} bindings body info.
Arguments ETypeAnnotation {I} typeWithWildcards value info.
Arguments EDoBlock {I} body returning info.
Arguments EMatch {I} value cases info.

Definition info {I} (e : Expression I) : I :=
  match e with
  | EUnknown i | ENumber _ i | EString _ i | EVector _ i | ERecord _ _ i
  | EVariableReference _ i | EConditional _ _ _ i | EFunction _ _ i
  | EFunctionCall _ _ i | ELetBindings _ _ i | ETypeAnnotation _ _ i
  | EDoBlock _ _ i | EMatch _ _ i => i
  end.

(** [SVariableReference<Typed>]: a variable use with its assumed type. *)
Record TAssumption := mkAssumption { aname : string; ainfo : Typed }.

Definition assumptionExpr (a : TAssumption) : Expression Typed :=
  EVariableReference (aname a) (ainfo a).

(** Top-level forms of a module. *)
Inductive Syntax (I : Type) : Type :=
| SExpression (e : Expression I)
| SDefinition (variable : string) (value : Expression I)
| SExport (identifiers : list string)
| STypeAlias (alias : string) (definition : Monotype).

Arguments SExpression {I} e.
Arguments SDefinition {I} variable value.
Arguments SExport {I} identifiers.
Arguments STypeAlias {I} alias definition.

Record Module (I : Type) := mkModule { body : list (Syntax I) }.
Arguments mkModule {I} body.
Arguments body {I} m.

(** ** Objects used as dictionaries *)

(** The environments are plain objects: they are built from [{}] by
    spreading and computed keys, and read with [obj[key]] and [key in obj].
    Both also find what a plain object inherits from [Object.prototype]:
    eleven functions and, under [__proto__], the prototype itself, none of
    them falsy.  The map holds the keys the object owns. *)
Definition objectPrototypeKeys : list string :=
  ["constructor"; "__defineGetter__"; "__defineSetter__"; "hasOwnProperty";
   "__lookupGetter__"; "__lookupSetter__"; "isPrototypeOf";
   "propertyIsEnumerable"; "toString"; "valueOf"; "__proto__";
   "toLocaleString"].

(** What reading a key finds: the value the object owns under it, or the
    member of [Object.prototype] of that name. *)
Inductive Property (A : Type) : Type :=
| Own (value : A)
| Inherited (key : string).
Arguments Own {A} value.
Arguments Inherited {A} key.

(** [obj[key]]; [None] stands for [undefined]. *)
Definition getProperty {A} (obj : gmap string A) (key : string)
  : option (Property A) :=
  match obj !! key with
  | Some value => Some (Own value)
  | None =>
      if bool_decide (key ∈ objectPrototypeKeys) then Some (Inherited key)
      else None
  end.

(** [key in obj] *)
Definition hasProperty {A} (obj : gmap string A) (key : string) : bool :=
  bool_decide (is_Some (getProperty obj key)).

(** ** Constraints (constructors of [infer-solver.ts]) *)

(** The last two are the instance constraints the driver builds when the
    lookup of the name finds a member inherited from [Object.prototype]
    where a type is expected: the constructor is the same, its last
    argument is that member. *)
Inductive TConstraint : Type :=
| constEqual (expr : Expression Typed) (t : Monotype)
| constEffect (expr : Expression Typed) (t : Monotype)
| constImplicitInstance (expr : Expression Typed) (monovars : list string)
    (t : Monotype)
| constExplicitInstance (expr : Expression Typed) (t : TypeSchema)
| constImplicitInherited (expr : Expression Typed) (monovars : list string)
    (key : string)
| constExplicitInherited (expr : Expression Typed) (key : string).

Record InferResult (A : Type) := mkInferResult {
  result : A;
  constraints : list TConstraint;
  assumptions : list TAssumption
}.
Arguments mkInferResult {A} result constraints assumptions.
Arguments result {A} i.
Arguments constraints {A} i.
Arguments assumptions {A} i.

(** ** Exceptions and the generator monad *)

Inductive Exception :=
| InvariantViolation (msg : string)
| TypeError (msg : string)
| RangeError (msg : string)
| Error (msg : string).

Inductive Res (A : Type) : Type :=
| Ok (a : A)
| Throw (e : Exception).
Arguments Ok {A} a.
Arguments Throw {A} e.

Definition isOk {A} (r : Res A) : bool :=
  match r with Ok _ => true | Throw _ => false end.

#[global] Instance Exception_eq_dec : EqDecision Exception.
Proof. solve_decision. Defined.

#[global] Instance Res_ret : MRet Res := fun A a => Ok a.
#[global] Instance Res_bind : MBind Res := fun A B f m =>
  match m with Ok a => f a | Throw e => Throw e end.

(** The state is the counter of the fresh-variable source. *)
Definition Gen (A : Type) : Type := nat -> Res (A * nat).

#[global] Instance Gen_ret : MRet Gen := fun A a n => Ok (a, n).
#[global] Instance Gen_bind : MBind Gen := fun A B f m n =>
  match m n with Ok (a, n') => f a n' | Throw e => Throw e end.

Definition liftRes {A} (r : Res A) : Gen A := fun n =>
  match r with Ok a => Ok (a, n) | Throw e => Throw e end.

(** Modelled from the spec: [generateUniqueTVar] of the absent
    [type-generate.ts]. A single shared counter produces the names; every
    call increments it, so two generated variables never share a name. *)
Definition tvarName (k : nat) : string := "t" +:+ pretty k.

Definition generateUniqueTVar : Gen Monotype := fun n =>
  Ok (tVar (tvarName (S n)) false, S n).

(** Modelled from the spec: [TypeWithWildcards.instantiate] of the absent
    [type-wildcards.ts]. Named identifiers stay user-specified variables;
    [_] becomes a fresh variable at every occurrence; [_name] becomes a
    fresh variable shared by all its occurrences in the annotation. *)
Definition isWildcard (name : string) : bool := String.prefix "_" name.

Definition lookupAssoc {A} (k : string) (l : list (string * A)) : option A :=
  snd <$> List.find (fun p => bool_decide (p.1 = k)) l.

(** The state of an instantiation: the named wildcards met so far, with the
    variable each one received, and the counter. *)
Definition instantiateList
    (instantiateOne :
       Monotype -> list (string * Monotype) -> nat ->
       Monotype * list (string * Monotype) * nat)
  : list Monotype -> list (string * Monotype) -> nat ->
    list Monotype * list (string * Monotype) * nat :=
  fix go l seen n :=
    match l with
    | [] => ([], seen, n)
    | x :: r =>
        let '(x', seen1, n1) := instantiateOne x seen n in
        let '(r', seen2, n2) := go r seen1 n1 in
        (x' :: r', seen2, n2)
    end.

Fixpoint instantiateIn (t : Monotype) (seen : list (string * Monotype)) (n : nat)
  : Monotype * list (string * Monotype) * nat :=
  match t with
  | TConstant _ => (t, seen, n)
  | TApplication op args =>
      let '(op', seen1, n1) := instantiateIn op seen n in
      let '(args', seen2, n2) := instantiateList instantiateIn args seen1 n1 in
      (TApplication op' args', seen2, n2)
  | TVar name us =>
      if isWildcard name then
        if bool_decide (name = "_") then (tVar (tvarName (S n)) false, seen, S n)
        else match lookupAssoc name seen with
             | Some v => (v, seen, n)
             | None =>
                 let v := tVar (tvarName (S n)) false in
                 (v, seen ++ [(name, v)], S n)
             end
      else (t, seen, n)
  | REmpty => (t, seen, n)
  | RExtension label labelType extends =>
      let '(labelType', seen1, n1) := instantiateIn labelType seen n in
      let '(extends', seen2, n2) := instantiateIn extends seen1 n1 in
      (RExtension label labelType' extends', seen2, n2)
  end.

Definition instantiate (t : TypeWithWildcards) : Gen Monotype := fun n =>
  match t with
  | mkTypeWithWildcards body =>
      let '(t', _, n') := instantiateIn body [] n in Ok (t', n')
  end.

(** ** Alias expansion *)

(** The engine's exceptions: the stack overflow of a recursion that does
    not end, and the read of [node.tag] on a value that is no type. *)
Definition stackOverflow : Exception :=
  RangeError "Maximum call stack size exceeded".

Definition notAType : Exception :=
  TypeError "Cannot read property 'tag' of undefined".

(** Modelled from the spec: [transformRecurType] of the absent
    [type-utils.ts], which rebuilds the type around its transformed
    components, left to right, and hands every node to the callback. The
    callback of [expandTypeAliases] reads [env[t.node.name]] for a constant
    and re-enters on what it finds whenever that is truthy: on the
    definition of a declared alias, and on the inherited member when the
    name is not declared but names one, which is no type.  [depth] bounds
    the nesting of the re-entries on definitions; running out of it stands
    for the stack overflow. *)
Fixpoint expandDepth (depth : nat) (env : gmap string Monotype)
  : Monotype -> Res Monotype :=
  fix go (t : Monotype) : Res Monotype :=
    match t with
    | TConstant name =>
        match getProperty env name with
        | Some (Own def) =>
            match depth with
            | 0 => Throw stackOverflow
            | S d => expandDepth d env def
            end
        | Some (Inherited _) => Throw notAType
        | None => Ok t
        end
    | TApplication op args =>
        op' ← go op;
        args' ← mapM go args;
        Ok (TApplication op' args')
    | TVar _ _ => Ok t
    | REmpty => Ok t
    | RExtension label labelType extends =>
        labelType' ← go labelType;
        extends' ← go extends;
        Ok (RExtension label labelType' extends')
    end.

(** A chain of re-entries longer than the number of declared aliases repeats
    an alias and never ends, so that depth is as good as any greater one. *)
Definition expandTypeAliases (t : Monotype) (env : gmap string Monotype)
  : Res Monotype :=
  expandDepth (size env) env t.

(** An alias refers to another one when its definition mentions the other
    and the other is declared too. The aliases are acyclic when no alias is
    reachable from itself along references. *)
Definition refersTo (env : gmap string Monotype) (a b : string) : Prop :=
  exists def, env !! a = Some def /\ b ∈ listTypeConstants def /\ is_Some (env !! b).

Definition aliasesAcyclic (env : gmap string Monotype) : Prop :=
  forall a, ~ tc (refersTo env) a a.

(** A test that is sufficient for acyclicity: every definition expands. *)
Definition aliasesAcyclicb (env : gmap string Monotype) : bool :=
  bool_decide
    (map_Forall (fun _ def => isOk (expandTypeAliases def env)) env).

(** The constants of a type that are read from [Object.prototype]: the
    names of its members that the environment does not declare.  A type
    resolves when it mentions none, an environment when none of its
    definitions does. *)
Definition inheritedConstants (env : gmap string Monotype) (t : Monotype)
  : list string :=
  List.filter
    (fun c => bool_decide (c ∈ objectPrototypeKeys /\ env !! c = None))
    (listTypeConstants t).

Definition typeResolves (env : gmap string Monotype) (t : Monotype) : Prop :=
  inheritedConstants env t = [].

Definition aliasesResolve (env : gmap string Monotype) : Prop :=
  map_Forall (fun _ def => typeResolves env def) env.

#[global] Instance typeResolves_dec env t : Decision (typeResolves env t).
Proof. unfold typeResolves. apply _. Defined.

#[global] Instance aliasesResolve_dec env : Decision (aliasesResolve env).
Proof. unfold aliasesResolve. apply _. Defined.

(** The expansion as the specification words it: a constant that names a
    declared alias is replaced by the expansion of its definition, any other
    constant stays, and the rest of the type is rebuilt around them. *)
Inductive ExpandsTo (env : gmap string Monotype) : Monotype -> Monotype -> Prop :=
| ExpandsTo_alias name def t' :
    env !! name = Some def -> ExpandsTo env def t' ->
    ExpandsTo env (TConstant name) t'
| ExpandsTo_opaque name :
    env !! name = None -> ExpandsTo env (TConstant name) (TConstant name)
| ExpandsTo_application op op' args args' :
    ExpandsTo env op op' -> Forall2 (ExpandsTo env) args args' ->
    ExpandsTo env (TApplication op args) (TApplication op' args')
| ExpandsTo_variable name userSpecified :
    ExpandsTo env (TVar name userSpecified) (TVar name userSpecified)
| ExpandsTo_empty : ExpandsTo env REmpty REmpty
| ExpandsTo_extension label labelType labelType' extends extends' :
    ExpandsTo env labelType labelType' -> ExpandsTo env extends extends' ->
    ExpandsTo env (RExtension label labelType extends)
      (RExtension label labelType' extends').

(** The aliases a type leads to: those it mentions and those reachable from
    them along references.  It leads to a cycle when one of them is
    reachable from itself, and to a member of [Object.prototype] when it, or
    the definition of one of them, mentions a constant that is read from
    there. *)
Definition reachesAlias (env : gmap string Monotype) (t : Monotype)
    (b : string) : Prop :=
  exists a, a ∈ listTypeConstants t /\ is_Some (env !! a) /\
    rtc (refersTo env) a b.

Definition reachesCycle (env : gmap string Monotype) (t : Monotype) : Prop :=
  exists b, reachesAlias env t b /\ tc (refersTo env) b b.

Definition reachesInherited (env : gmap string Monotype) (t : Monotype)
  : Prop :=
  exists c,
    c ∈ inheritedConstants env t \/
    exists b def, reachesAlias env t b /\ env !! b = Some def /\
      c ∈ inheritedConstants env def.

(** A chain of a relation: every element is related to the next. *)
Inductive chain {A} (R : relation A) : list A -> Prop :=
| chain_one a : chain R [a]
| chain_cons a b l : R a b -> chain R (b :: l) -> chain R (a :: b :: l).

(** The expansion of a type at a depth comes to the constant [c]: what it
    expands before [c], left to right, has returned. *)
Inductive Visits (env : gmap string Monotype) (d : nat)
  : Monotype -> string -> Prop :=
| Visits_constant c : Visits env d (TConstant c) c
| Visits_op op args c :
    Visits env d op c -> Visits env d (TApplication op args) c
| Visits_arg op op' before before' x after c :
    expandDepth d env op = Ok op' ->
    mapM (expandDepth d env) before = Ok before' ->
    Visits env d x c ->
    Visits env d (TApplication op (before ++ x :: after)) c
| Visits_labelType label labelType extends c :
    Visits env d labelType c ->
    Visits env d (RExtension label labelType extends) c
| Visits_extends label labelType labelType' extends c :
    expandDepth d env labelType = Ok labelType' ->
    Visits env d extends c ->
    Visits env d (RExtension label labelType extends) c.

(** The expansion of the definition of the alias [a] comes to the declared
    alias [b]. *)
Definition calls (env : gmap string Monotype) (a b : string) : Prop :=
  exists def d, env !! a = Some def /\ Visits env d def b /\ is_Some (env !! b).

(** Every body of a function, of a [let] and of a case of a [match] holds
    at least one form. *)
Fixpoint nonEmptyBodies {I} (e : Expression I) : bool :=
  match e with
  | EUnknown _ | ENumber _ _ | EString _ _ | EVariableReference _ _ => true
  | EVector values _ => forallb nonEmptyBodies values
  | ERecord fields extends _ =>
      forallb (fun f => nonEmptyBodies f.2) fields
      && from_option nonEmptyBodies true extends
  | EConditional c t e _ =>
      nonEmptyBodies c && nonEmptyBodies t && nonEmptyBodies e
  | EFunction _ body _ =>
      negb (bool_decide (body = [])) && forallb nonEmptyBodies body
  | EFunctionCall fn args _ => nonEmptyBodies fn && forallb nonEmptyBodies args
  | ELetBindings bindings body _ =>
      forallb (fun b => nonEmptyBodies b.2) bindings
      && negb (bool_decide (body = [])) && forallb nonEmptyBodies body
  | ETypeAnnotation _ value _ => nonEmptyBodies value
  | EDoBlock body returning _ =>
      forallb nonEmptyBodies body && nonEmptyBodies returning
  | EMatch value cases _ =>
      nonEmptyBodies value
      && forallb (fun c =>
           negb (bool_decide (c.2 = [])) && forallb nonEmptyBodies c.2) cases
  end.

(** A computation of the generator that returns from every state, with a
    result satisfying [P]. *)
Definition returnsWith {A} (P : A -> Prop) (m : Gen A) : Prop :=
  forall n, exists a n', m n = Ok (a, n') /\ P a.

(** ** Helpers of the absent [utils.ts] *)

(** Modelled from the spec: [flatMap], [maybeMap], [difference] and [last] of
    the absent [utils.ts]: map and concatenate; map and drop the nulls; the
    elements of the first array that the second does not include; the last
    element or [undefined]. *)
Definition flatMap {A B} (fn : A -> list B) (l : list A) : list B :=
  concat (map fn l).

Definition maybeMap {A B} (fn : A -> option B) (l : list A) : list B :=
  omap fn l.

Definition includes {A} `{EqDecision A} (l : list A) (x : A) : bool :=
  bool_decide (x ∈ l).

Definition difference {A} `{EqDecision A} (xs ys : list A) : list A :=
  List.filter (fun x => negb (includes ys x)) xs.

(** [Array.prototype.indexOf]; [None] stands for [-1]. *)
Fixpoint indexOf {A} `{EqDecision A} (x : A) (l : list A) : option nat :=
  match l with
  | [] => None
  | y :: r => if bool_decide (y = x) then Some 0 else S <$> indexOf x r
  end.

(** ** The constraint generator *)

Definition collectResults (results : list (InferResult (Expression Typed)))
  : InferResult (list (Expression Typed)) :=
  mkInferResult (map result results)
    (flatMap constraints results) (flatMap assumptions results).

(** [inferMany], with the recursive call abstracted. *)
Definition inferManyWith {A}
    (inferOne : A -> Gen (InferResult (Expression Typed))) (exprs : list A)
  : Gen (InferResult (list (Expression Typed))) :=
  results ← mapM inferOne exprs;
  mret (collectResults results).

(** The name of a type variable node. *)
Definition tvarNodeName (t : Monotype) : string :=
  match t with TVar name _ => name | _ => "" end.

(** What reading a property of [undefined] would give; the callers below
    establish by a preceding [filter] that the value is defined. *)
Definition undefinedType : Monotype := TConstant "undefined".

(** [argtypes[fnargs.indexOf(name)]] *)
Definition argTypeOf (fnargs : list string) (argtypes : list Monotype)
    (name : string) : Monotype :=
  default undefinedType (i ← indexOf name fnargs; argtypes !! i).

(** [bindingsInfo.find(bi => bi.binding.variable.name === name)!.inference.result.info.type] *)
Definition bindingTypeOf
    (bindingsInfo : list (string * InferResult (Expression Typed)))
    (name : string) : Monotype :=
  default undefinedType
    ((fun bi => type (info (result bi.2))) <$>
       List.find (fun bi => bool_decide (bi.1 = name)) bindingsInfo).

(** [last(forms)!.info.type] *)
Definition lastInfoType (forms : list (Expression Typed)) : Res Monotype :=
  match last forms with
  | Some form => Ok (type (info form))
  | None => Throw (TypeError "Cannot read property 'info' of undefined")
  end.

(** The constraints of one case of a [match]. *)
Definition matchCaseConstraints (variantTypes : list (string * Monotype))
    (t : Monotype)
    (c : string * string * InferResult (list (Expression Typed)))
  : Res (list TConstraint) :=
  let '(label, variable, inference) := c in
  match last (result inference) with
  | None => Throw (InvariantViolation "Missing returning form!")
  | Some returningForm =>
      bound ← mapM (fun a =>
        if bool_decide (aname a = variable) then
          match List.find (fun v => bool_decide (v.1 = label)) variantTypes with
          | None => Throw (InvariantViolation ("Unknown invariant case " +:+ label))
          | Some variant => Ok [constEqual (assumptionExpr a) variant.2]
          end
        else Ok []) (assumptions inference);
      Ok (constEqual returningForm t :: concat bound)
  end.

Fixpoint infer (expr : Expression unit) (monovars : list string)
    (internalTypes : gmap string Monotype) {struct expr}
  : Gen (InferResult (Expression Typed)) :=
  match expr with
  | EUnknown _ =>
      t ← generateUniqueTVar;
      effect ← generateUniqueTVar;
      mret (mkInferResult (EUnknown (mkTyped t effect)) [] [])
  | ENumber value _ =>
      effect ← generateUniqueTVar;
      mret (mkInferResult (ENumber value (mkTyped tNumber effect)) [] [])
  | EString value _ =>
      effect ← generateUniqueTVar;
      mret (mkInferResult (EString value (mkTyped tString effect)) [] [])
  | EVector values _ =>
      inferredValues ←
        inferManyWith (fun e => infer e monovars internalTypes) values;
      t ← generateUniqueTVar;
      effect ← generateUniqueTVar;
      mret (mkInferResult
        (EVector (result inferredValues) (mkTyped (tVector t) effect))
        (constraints inferredValues
           ++ map (fun e => constEqual e t) (result inferredValues)
           ++ map (fun e => constEffect e effect) (result inferredValues))
        (assumptions inferredValues))
  | ERecord fields extends _ =>
      inferred ← mapM (fun f =>
        let '(label, value) := f in
        i ← infer value monovars internalTypes;
        mret (label, i)) fields;
      tailInferred ←
        (match extends with
         | Some tail => i ← infer tail monovars internalTypes; mret (Some i)
         | None => mret None
         end : Gen (option (InferResult (Expression Typed))));
      let tailInferred : option (InferResult (Expression Typed)) :=
        tailInferred in
      tailRowType ← generateUniqueTVar;
      effect ← generateUniqueTVar;
      tailConstraint ←
        match tailInferred with
        | Some tail =>
            fresh ← mapM (fun i =>
              v ← generateUniqueTVar; mret (i.1, v)) inferred;
            mret [constEqual (result tail) (tRecord fresh tailRowType)]
        | None => mret []
        end;
      mret (mkInferResult
        (ERecord (map (fun i => (i.1, result i.2)) inferred)
           (result <$> tailInferred)
           (mkTyped
              (tRecord (map (fun i => (i.1, type (info (result i.2)))) inferred)
                 (match tailInferred with
                  | Some _ => tailRowType
                  | None => emptyRow
                  end))
              effect))
        (flatMap (fun i => constraints i.2) inferred
           ++ from_option constraints [] tailInferred
           ++ tailConstraint
           ++ map (fun i => constEffect (result i.2) effect) inferred
           ++ from_option (fun tail => [constEffect (result tail) effect]) []
                tailInferred)
        (flatMap (fun i => assumptions i.2) inferred
           ++ from_option assumptions [] tailInferred))
  | EVariableReference name _ =>
      t ← generateUniqueTVar;
      effect ← generateUniqueTVar;
      let typedVar := mkAssumption name (mkTyped t effect) in
      mret (mkInferResult (assumptionExpr typedVar) [] [typedVar])
  | EConditional condition consequent alternative _ =>
      condition ← infer condition monovars internalTypes;
      consequent ← infer consequent monovars internalTypes;
      alternative ← infer alternative monovars internalTypes;
      t ← generateUniqueTVar;
      effect ← generateUniqueTVar;
      mret (mkInferResult
        (EConditional (result condition) (result consequent)
           (result alternative) (mkTyped t effect))
        (constraints condition ++ constraints consequent
           ++ constraints alternative
           ++ [constEqual (result condition) tBoolean;
               constEqual (result consequent) t;
               constEqual (result alternative) t;
               constEffect (result condition) effect;
               constEffect (result consequent) effect;
               constEffect (result alternative) effect])
        (assumptions condition ++ assumptions consequent
           ++ assumptions alternative))
  | EFunction fnargs body _ =>
      argtypes ← mapM (fun _ => generateUniqueTVar) fnargs;
      bodyInference ←
        inferManyWith
          (fun e => infer e (monovars ++ map tvarNodeName argtypes) internalTypes)
          body;
      let typedBody := result bodyInference in
      bodyEffect ← generateUniqueTVar;
      let newConstraints :=
        map (fun v =>
               constEqual (assumptionExpr v) (argTypeOf fnargs argtypes (aname v)))
          (List.filter (fun v => includes fnargs (aname v))
             (assumptions bodyInference))
        ++ map (fun form => constEffect form bodyEffect) typedBody in
      out ← liftRes (lastInfoType typedBody);
      effect ← generateUniqueTVar;
      mret (mkInferResult
        (EFunction fnargs typedBody
           (mkTyped (tFn argtypes bodyEffect out) effect))
        (constraints bodyInference ++ newConstraints)
        (List.filter (fun v => negb (includes fnargs (aname v)))
           (assumptions bodyInference)))
  | EFunctionCall fn args _ =>
      ifn ← infer fn monovars internalTypes;
      iargs ← inferManyWith (fun e => infer e monovars internalTypes) args;
      tTo ← generateUniqueTVar;
      effect ← generateUniqueTVar;
      let tfn := tFn (map (fun a => type (info a)) (result iargs)) effect tTo in
      mret (mkInferResult
        (EFunctionCall (result ifn) (result iargs) (mkTyped tTo effect))
        (constEqual (result ifn) tfn
           :: constraints ifn ++ constraints iargs
           ++ constEffect (result ifn) effect
           :: map (fun a => constEffect a effect) (result iargs))
        (assumptions ifn ++ assumptions iargs))
  | ELetBindings bindings body _ =>
      let vars := map fst bindings in
      let toBeBound := fun vname : string => includes vars vname in
      bindingsInfo ← mapM (fun b =>
        let '(variable, value) := b in
        inference ← infer value monovars internalTypes;
        mret (variable, inference)) bindings;
      bodyInference ←
        inferManyWith (fun e => infer e monovars internalTypes) body;
      effect ← generateUniqueTVar;
      t ← liftRes (lastInfoType (result bodyInference));
      mret (mkInferResult
        (ELetBindings (map (fun b => (b.1, result b.2)) bindingsInfo)
           (result bodyInference) (mkTyped t effect))
        (constraints bodyInference
           ++ flatMap (fun i => constraints i.2) bindingsInfo
           ++ map (fun v =>
                     constImplicitInstance (assumptionExpr v) monovars
                       (bindingTypeOf bindingsInfo (aname v)))
                (List.filter (fun v => toBeBound (aname v))
                   (assumptions bodyInference))
           ++ map (fun b => constEffect (result b.2) (tEffect [])) bindingsInfo
           ++ map (fun form => constEffect form effect) (result bodyInference))
        (List.filter (fun v => negb (toBeBound (aname v)))
           (assumptions bodyInference)
           ++ flatMap (fun bi => assumptions bi.2) bindingsInfo))
  | ETypeAnnotation typeWithWildcards value _ =>
      inferred ← infer value monovars internalTypes;
      instantiated ← instantiate typeWithWildcards;
      t ← liftRes (expandTypeAliases instantiated internalTypes);
      mret (mkInferResult
        (ETypeAnnotation typeWithWildcards (result inferred)
           (mkTyped t (effect (info (result inferred)))))
        (constraints inferred ++ [constEqual (result inferred) t])
        (assumptions inferred))
  | EDoBlock body returning _ =>
      body ← inferManyWith (fun e => infer e monovars internalTypes) body;
      returning ← infer returning monovars internalTypes;
      effect ← generateUniqueTVar;
      mret (mkInferResult
        (EDoBlock (result body) (result returning)
           (mkTyped (type (info (result returning))) effect))
        (constraints body ++ constraints returning
           ++ map (fun form => constEffect form effect) (result body)
           ++ [constEffect (result returning) effect])
        (assumptions body ++ assumptions returning))
  | EMatch value cases _ =>
      value ← infer value monovars internalTypes;
      cases' ← mapM (fun c =>
        let '(label, variable, body) := c in
        inference ←
          inferManyWith
            (fun e => infer e (monovars ++ [variable]) internalTypes) body;
        mret (label, variable, inference)) cases;
      t ← generateUniqueTVar;
      effect ← generateUniqueTVar;
      variantTypes ← mapM (fun c =>
        let '(label, _, _) := c in
        v ← generateUniqueTVar; mret (label, v)) cases;
      caseConstraints ←
        liftRes (mapM (matchCaseConstraints variantTypes t) cases');
      mret (mkInferResult
        (EMatch (result value)
           (map (fun c => (c.1.1, c.1.2, result c.2)) cases')
           (mkTyped t effect))
        (constraints value
           ++ flatMap (fun c => constraints c.2) cases'
           ++ constEqual (result value) (tVariant variantTypes)
           :: concat caseConstraints)
        (assumptions value
           ++ flatMap (fun c =>
                List.filter (fun a => negb (bool_decide (aname a = c.1.2)))
                  (assumptions c.2)) cases'))
  end.

Definition inferMany (exprs : list (Expression unit)) (monovars : list string)
    (internalTypes : gmap string Monotype)
  : Gen (InferResult (list (Expression Typed))) :=
  inferManyWith (fun e => infer e monovars internalTypes) exprs.

Definition inferSyntax (syntax : Syntax unit)
    (internalTypes : gmap string Monotype) : Gen (InferResult (Syntax Typed)) :=
  match syntax with
  | SExpression e =>
      i ← infer e [] internalTypes;
      mret (mkInferResult (SExpression (result i)) (constraints i) (assumptions i))
  | SDefinition variable value =>
      i ← infer value [] internalTypes;
      mret (mkInferResult (SDefinition variable (result i))
              (constraints i) (assumptions i))
  | SExport identifiers => mret (mkInferResult (SExport identifiers) [] [])
  | STypeAlias alias definition =>
      mret (mkInferResult (STypeAlias alias definition) [] [])
  end.

(** ** Decidable equality of types and assumptions *)

#[global] Instance Typed_eq_dec : EqDecision Typed.
Proof. solve_decision. Defined.

#[global] Instance TAssumption_eq_dec : EqDecision TAssumption.
Proof. solve_decision. Defined.

(** ** Environments and the module driver *)

(** The environments are objects used as dictionaries; the finite maps hold
    the keys the objects own, and are read with [getProperty] and
    [hasProperty]. *)

Record ExternalEnvironment := mkExternalEnvironment {
  ext_variables : gmap string TypeSchema;
  ext_types : gmap string Monotype
}.

Record InternalEnvironment := mkInternalEnvironment {
  int_variables : gmap string Monotype;
  int_types : gmap string Monotype
}.

Record GroupedAssumptions := mkGrouped {
  internals : list TAssumption;
  externals : list TAssumption;
  unknowns : list TAssumption
}.

(** Rebuild a tree with every [info] transformed. *)
Fixpoint mapInfo {I J} (f : I -> J) (e : Expression I) : Expression J :=
  match e with
  | EUnknown i => EUnknown (f i)
  | ENumber v i => ENumber v (f i)
  | EString v i => EString v (f i)
  | EVector values i => EVector (map (mapInfo f) values) (f i)
  | ERecord fields extends i =>
      ERecord (map (fun fl => (fl.1, mapInfo f fl.2)) fields)
        (mapInfo f <$> extends) (f i)
  | EVariableReference name i => EVariableReference name (f i)
  | EConditional c t e i =>
      EConditional (mapInfo f c) (mapInfo f t) (mapInfo f e) (f i)
  | EFunction args body i => EFunction args (map (mapInfo f) body) (f i)
  | EFunctionCall fn args i =>
      EFunctionCall (mapInfo f fn) (map (mapInfo f) args) (f i)
  | ELetBindings bindings body i =>
      ELetBindings (map (fun b => (b.1, mapInfo f b.2)) bindings)
        (map (mapInfo f) body) (f i)
  | ETypeAnnotation t value i => ETypeAnnotation t (mapInfo f value) (f i)
  | EDoBlock body returning i =>
      EDoBlock (map (mapInfo f) body) (mapInfo f returning) (f i)
  | EMatch value cases i =>
      EMatch (mapInfo f value)
        (map (fun c => (c.1, map (mapInfo f) c.2)) cases) (f i)
  end.

(** [Array.prototype.findIndex] / [find] by position; the declarations of a
    module are distinct objects, identified here by their position. *)
Fixpoint findIndex {A} (p : A -> bool) (l : list A) : option nat :=
  match l with
  | [] => None
  | x :: r => if p x then Some 0 else S <$> findIndex p r
  end.

Definition joinWith (sep : string) (l : list string) : string :=
  match l with
  | [] => ""
  | x :: r => foldl (fun acc s => acc +:+ sep +:+ s) x r
  end.

Definition recursiveAliasMessage : string :=
  "Recursive type aliases are not allowed.".

Definition circularAliasMessage (names : list string) : string :=
  "Cicular dependency in type aliases found
  " +:+ joinWith " -> " names +:+ "
".

(** [visit] of [checkCircularTypes]. The path only holds distinct
    declarations, so the recursion is at most one deeper than there are
    declarations; [fuel] is that bound. The message is the one handed to
    [printHighlightedExpr]. *)
Fixpoint visit (fuel : nat) (allTypeAliases : list (string * Monotype))
    (typeAlias : nat) (path : list nat) : Res unit :=
  match indexOf typeAlias path with
  | None =>
      match fuel with
      | 0 => Throw (RangeError "Maximum call stack size exceeded")
      | S fuel' =>
          match allTypeAliases !! typeAlias with
          | None => Ok tt
          | Some (_, definition) =>
              _ ← mapM (fun ud =>
                match findIndex (fun x => bool_decide (x.1 = ud)) allTypeAliases with
                | None => Ok tt
                | Some dep => visit fuel' allTypeAliases dep (path ++ [typeAlias])
                end) (listTypeConstants definition);
              Ok tt
          end
      end
  | Some index =>
      let cycle := drop index path ++ [typeAlias] in
      if Nat.eqb (length cycle) 1 then Throw (Error recursiveAliasMessage)
      else
        Throw (Error (circularAliasMessage
          (omap (fun i => fst <$> allTypeAliases !! i) cycle)))
  end.

Definition checkCircularTypes (allTypeAliases : list (string * Monotype))
  : Res unit :=
  _ ← mapM (fun tAlias => visit (S (length allTypeAliases)) allTypeAliases tAlias [])
        (seq 0 (length allTypeAliases));
  Ok tt.

Definition typeAliasesOf {I} (forms : list (Syntax I)) : list (string * Monotype) :=
  omap (fun s => match s with STypeAlias a d => Some (a, d) | _ => None end) forms.

Definition definitionNames {I} (forms : list (Syntax I)) : list string :=
  omap (fun s => match s with SDefinition x _ => Some x | _ => None end) forms.

(** The carrier node of a constraint. *)
Definition carrier (c : TConstraint) : Expression Typed :=
  match c with
  | constEqual e _ | constEffect e _ | constImplicitInstance e _ _
  | constExplicitInstance e _ | constImplicitInherited e _ _
  | constExplicitInherited e _ => e
  end.

(** Export and type-alias forms do not depend on the annotation type. *)
Definition passThrough (s : Syntax unit) : option (Syntax Typed) :=
  match s with
  | SExport identifiers => Some (SExport identifiers)
  | STypeAlias alias definition => Some (STypeAlias alias definition)
  | _ => None
  end.

(** ** Freshness *)

(** A name the fresh-variable source does not hand out after counter [k]. *)
Definition olderName (k : nat) (name : string) : Prop :=
  forall j, k < j -> name <> tvarName j.

Definition belowT (k : nat) (t : Monotype) : Prop :=
  Forall (olderName k) (listTypeVariables t).

Definition belowI (k : nat) (i : Typed) : Prop :=
  belowT k (type i) /\ belowT k (effect i).

(** The type a constraint relates its carrier to; an inherited member
    mentions no type variable, and the empty row stands for it. *)
Definition constraintType (c : TConstraint) : Monotype :=
  match c with
  | constEqual _ t | constEffect _ t | constImplicitInstance _ _ t => t
  | constExplicitInstance _ s => mono s
  | constImplicitInherited _ _ _ | constExplicitInherited _ _ => emptyRow
  end.

(** The monomorphic set of an implicit instance, a list of names. *)
Definition monovarsOf (c : TConstraint) : list string :=
  match c with
  | constImplicitInstance _ monovars _ => monovars
  | constImplicitInherited _ monovars _ => monovars
  | _ => []
  end.

(** The names a constraint mentions: the type variables of the type and the
    effect of its carrier, those of the type on its other side, and the
    names in its monomorphic set. *)
Definition constraintVariables (c : TConstraint) : list string :=
  listTypeVariables (type (info (carrier c)))
    ++ listTypeVariables (effect (info (carrier c)))
    ++ listTypeVariables (constraintType c)
    ++ monovarsOf c.

Definition belowC (k : nat) (c : TConstraint) : Prop :=
  Forall (olderName k) (constraintVariables c).

Definition belowA (k : nat) (a : TAssumption) : Prop := belowI k (ainfo a).

(** The names written in an expression that reach the constraints: the
    type variables of its annotations, and the pattern variables of its
    matches, which [infer] adds to the monomorphic set of the case. *)
Fixpoint inputNames {I} (e : Expression I) : list string :=
  match e with
  | EUnknown _ | ENumber _ _ | EString _ _ | EVariableReference _ _ => []
  | EVector values _ => flat_map inputNames values
  | ERecord fields extends _ =>
      flat_map (fun f => inputNames f.2) fields
        ++ from_option inputNames [] extends
  | EConditional c t e _ => inputNames c ++ inputNames t ++ inputNames e
  | EFunction _ body _ => flat_map inputNames body
  | EFunctionCall fn args _ => inputNames fn ++ flat_map inputNames args
  | ELetBindings bindings body _ =>
      flat_map (fun b => inputNames b.2) bindings ++ flat_map inputNames body
  | ETypeAnnotation (mkTypeWithWildcards body) value _ =>
      listTypeVariables body ++ inputNames value
  | EDoBlock body returning _ =>
      flat_map inputNames body ++ inputNames returning
  | EMatch value cases _ =>
      inputNames value
        ++ flat_map (fun c => c.1.2 :: flat_map inputNames c.2) cases
  end.

(** What the generator hands back mentions no name the source has yet to
    hand out. *)
Definition goodResult (k : nat) (r : InferResult (Expression Typed)) : Prop :=
  belowI k (info (result r)) /\
  Forall (belowC k) (constraints r) /\
  Forall (belowA k) (assumptions r).

Definition goodMany (k : nat) (r : InferResult (list (Expression Typed))) : Prop :=
  Forall (fun e => belowI k (info e)) (result r) /\
  Forall (belowC k) (constraints r) /\
  Forall (belowA k) (assumptions r).

(** What the generator has to establish for one expression: from a state
    past [k], with monomorphic variables the source has handed out already,
    the result mentions no name the source has yet to hand out. *)
Definition inferFresh (internalTypes : gmap string Monotype) (k : nat)
    (expr : Expression unit) : Prop :=
  Forall (olderName k) (inputNames expr) ->
  forall monovars n r n',
    k <= n -> Forall (olderName n) monovars ->
    infer expr monovars internalTypes n = Ok (r, n') ->
    n <= n' /\ goodResult n' r.

Section Driver.

(** The table of [compiler/inline-primitives.ts], which is not part of
  this development. *)
Variable inlinePrimitives : gmap string TypeSchema.

(** [applySubstitution] of [type-utils.ts] and [solve] of
  [infer-solver.ts] are the solver's side and are kept abstract. *)
Variable applySubstitution : Monotype -> gmap string Monotype -> Monotype.
Variable solve :
list TConstraint -> gmap string Monotype -> Res (gmap string Monotype).

Definition isInlinePrimitive (name : string) : bool :=
bool_decide (is_Some (inlinePrimitives !! name)).

(** [env.variables[varName]] is returned whenever it is truthy, which every
  type schema and every member of [Object.prototype] is. *)
Definition lookupVariableType (varName : string) (env : ExternalEnvironment)
: option (Property TypeSchema) :=
match getProperty (ext_variables env) varName with
| Some t => Some t
| None =>
    if isInlinePrimitive varName then Own <$> inlinePrimitives !! varName
    else None
end.

(** [constExplicitInstance(a, t)] on what the lookup found. *)
Definition explicitInstance (a : TAssumption) (t : Property TypeSchema)
: TConstraint :=
match t with
| Own t => constExplicitInstance (assumptionExpr a) t
| Inherited key => constExplicitInherited (assumptionExpr a) key
end.

Definition assumptionsToConstraints (assumptions : list TAssumption)
  (env : ExternalEnvironment) : list TConstraint :=
maybeMap (fun a =>
  t ← lookupVariableType (aname a) env;
  Some (explicitInstance a t)) assumptions.

Definition applySubstitutionToInfo (i : Typed) (env : gmap string Monotype)
: Typed :=
mkTyped (applySubstitution (type i) env) (applySubstitution (effect i) env).

(** Modelled from the spec: [applySubstitutionToExpr] of the absent
  [infer-subst.ts]; the substitution is applied to the type and the
  effect of every annotated node. *)
Definition applySubstitutionToExpr (s : Expression Typed)
  (env : gmap string Monotype) : Expression Typed :=
mapInfo (fun i => applySubstitutionToInfo i env) s.

(** [applySubstitutionToExpr(v, solution) as SVariableReference<Typed>] *)
Definition applySubstitutionToVariableReference (v : TAssumption)
  (env : gmap string Monotype) : TAssumption :=
mkAssumption (aname v) (applySubstitutionToInfo (ainfo v) env).

Definition applySubstitutionToSyntax (s : Syntax Typed)
  (env : gmap string Monotype) : Syntax Typed :=
match s with
| SExpression e => SExpression (applySubstitutionToExpr e env)
| SDefinition variable value =>
    SDefinition variable (applySubstitutionToExpr value env)
| SExport _ => s
| STypeAlias _ _ => s
end.

(** The constraints [inferType] hands to the solver. *)
Definition inferTypeConstraints (i : InferResult (Expression Typed))
  (env : ExternalEnvironment) : list TConstraint :=
constraints i ++ assumptionsToConstraints (assumptions i) env.

Definition inferType (expr : Expression unit) (env : ExternalEnvironment)
  (internalTypes : gmap string Monotype) : Gen (Expression Typed) :=
i ← infer expr [] internalTypes;
s ← liftRes (solve (inferTypeConstraints i env) ∅);
mret (applySubstitutionToExpr (result i) s).

Definition groupAssumptions (assumptions : list TAssumption)
  (internalEnv : InternalEnvironment) (externalEnv : ExternalEnvironment)
: GroupedAssumptions :=
let internals :=
  List.filter
    (fun v => hasProperty (int_variables internalEnv) (aname v))
    assumptions in
let externals :=
  List.filter
    (fun v => bool_decide (is_Some (lookupVariableType (aname v) externalEnv)))
    assumptions in
mkGrouped internals externals
  (difference assumptions (internals ++ externals)).

(** The two [reduce]s of [inferModule]; a later form overrides an earlier
  one of the same name. *)
Definition internalTypesOf {I} (forms : list (Syntax I)) : gmap string Monotype :=
foldl (fun env s =>
  match s with
  | STypeAlias alias definition => <[alias := definition]> env
  | _ => env
  end) ∅ forms.

Definition internalVariablesOf (forms : list (Syntax Typed))
: gmap string Monotype :=
foldl (fun env s =>
  match s with
  | SDefinition variable value => <[variable := type (info value)]> env
  | _ => env
  end) ∅ forms.

(** [constImplicitInstance(v, [], internalEnv.variables[v.node.name])] *)
Definition implicitInstance (v : TAssumption) (variables : gmap string Monotype)
: TConstraint :=
match getProperty variables (aname v) with
| Some (Own t) => constImplicitInstance (assumptionExpr v) [] t
| Some (Inherited key) => constImplicitInherited (assumptionExpr v) [] key
| None => constImplicitInstance (assumptionExpr v) [] undefinedType
end.

(** The constraints [inferModule] hands to the solver. *)
Definition moduleConstraints
  (bodyInferences : list (InferResult (Syntax Typed)))
  (internalEnv : InternalEnvironment) (externalEnv : ExternalEnvironment)
  (grouped : GroupedAssumptions) : list TConstraint :=
flatMap constraints bodyInferences
  ++ assumptionsToConstraints (externals grouped) externalEnv
  ++ map (fun v => implicitInstance v (int_variables internalEnv))
       (internals grouped).

Record InferModuleResult := mkInferModuleResult {
typedModule : Module Typed;
moduleUnknowns : list TAssumption
}.

Definition inferModule (m : Module unit) (externalEnv : ExternalEnvironment)
: Gen InferModuleResult :=
_ ← liftRes (checkCircularTypes (typeAliasesOf (body m)));
let internalTypes := internalTypesOf (body m) in
bodyInferences ← mapM (fun form => inferSyntax form internalTypes) (body m);
let body := map result bodyInferences in
let internalEnv :=
  mkInternalEnvironment (internalVariablesOf body) internalTypes in
let assumptions :=
  groupAssumptions (flatMap assumptions bodyInferences)
    internalEnv externalEnv in
let constraints :=
  moduleConstraints bodyInferences internalEnv externalEnv assumptions in
solution ← liftRes (solve constraints ∅);
mret (mkInferModuleResult
  (mkModule (map (fun s => applySubstitutionToSyntax s solution) body))
  (map (fun v => applySubstitutionToVariableReference v solution)
     (unknowns assumptions))).

End Driver.

(** ** Erasure, free variables and the declaration graph *)

(** The annotations of a tree forgotten. *)
Definition eraseInfo {I} (e : Expression I) : Expression unit :=
  mapInfo (fun _ => tt) e.

(** The exceptions the generator itself raises. *)
Definition generatorExceptions : list Exception :=
  [InvariantViolation "Missing returning form!";
   TypeError "Cannot read property 'info' of undefined";
   stackOverflow;
   notAType].

(** The types written in the annotations of an expression, and of a form. *)
Fixpoint annotationTypes {I} (e : Expression I) : list Monotype :=
  match e with
  | EUnknown _ | ENumber _ _ | EString _ _ | EVariableReference _ _ => []
  | EVector values _ => flat_map annotationTypes values
  | ERecord fields extends _ =>
      flat_map (fun f => annotationTypes f.2) fields
        ++ from_option annotationTypes [] extends
  | EConditional c t e _ =>
      annotationTypes c ++ annotationTypes t ++ annotationTypes e
  | EFunction _ body _ => flat_map annotationTypes body
  | EFunctionCall fn args _ =>
      annotationTypes fn ++ flat_map annotationTypes args
  | ELetBindings bindings body _ =>
      flat_map (fun b => annotationTypes b.2) bindings
        ++ flat_map annotationTypes body
  | ETypeAnnotation (mkTypeWithWildcards body) value _ =>
      body :: annotationTypes value
  | EDoBlock body returning _ =>
      flat_map annotationTypes body ++ annotationTypes returning
  | EMatch value cases _ =>
      annotationTypes value
        ++ flat_map (fun c => flat_map annotationTypes c.2) cases
  end.

Definition annotationTypesOfSyntax {I} (s : Syntax I) : list Monotype :=
  match s with
  | SExpression e => annotationTypes e
  | SDefinition _ value => annotationTypes value
  | SExport _ => []
  | STypeAlias _ _ => []
  end.

Definition nonEmptyBodiesOfSyntax {I} (s : Syntax I) : bool :=
  match s with
  | SExpression e => nonEmptyBodies e
  | SDefinition _ value => nonEmptyBodies value
  | SExport _ => true
  | STypeAlias _ _ => true
  end.

(** A type that is the variable the source handed out at a counter value
    in [(n, n']]. *)
Definition generatedIn (n n' : nat) (t : Monotype) : Prop :=
  exists j, n < j <= n' /\ t = tVar (tvarName j) false.

(** Uses of variables whose types are distinct variables handed out in
    [(n, n']]. *)
Definition usesIn (n n' : nat) (uses : list TAssumption) : Prop :=
  Forall (fun a => generatedIn n n' (type (ainfo a))) uses /\
  NoDup (map (fun a => type (ainfo a)) uses).

(** Declaration [i] depends on declaration [j] when its definition mentions
    a constant that [find] resolves to [j], the first declaration of that
    name. *)
Definition dependsOn (allTypeAliases : list (string * Monotype)) (i j : nat)
  : Prop :=
  exists decl ud,
    allTypeAliases !! i = Some decl /\ ud ∈ listTypeConstants decl.2 /\
    findIndex (fun x => bool_decide (x.1 = ud)) allTypeAliases = Some j.

(** A path of the graph: every declaration depends on the next. *)
Definition dependencyPath (allTypeAliases : list (string * Monotype))
    (path : list nat) : Prop :=
  forall k i j, path !! k = Some i -> path !! S k = Some j ->
    dependsOn allTypeAliases i j.

(** The names the error message lists for a path. *)
Definition aliasNames (allTypeAliases : list (string * Monotype))
    (path : list nat) : list string :=
  omap (fun i => fst <$> allTypeAliases !! i) path.

(** A cycle as the search reports it: a path of the graph that comes back
    to the declaration it starts from. *)
Definition dependencyCycle (allTypeAliases : list (string * Monotype))
    (cycle : list nat) : Prop :=
  2 <= length cycle /\ head cycle = last cycle /\
  dependencyPath allTypeAliases cycle.

(** The declaration the environment of [inferModule] keeps for a name: the
    last one. *)
Definition lastDeclaration (name : string) (decls : list (string * Monotype))
  : option Monotype :=
  snd <$> last (List.filter (fun p => bool_decide (p.1 = name)) decls).

(** The annotations of a form forgotten. *)
Definition eraseSyntax {I} (s : Syntax I) : Syntax unit :=
  match s with
  | SExpression e => SExpression (eraseInfo e)
  | SDefinition variable value => SDefinition variable (eraseInfo value)
  | SExport identifiers => SExport identifiers
  | STypeAlias alias definition => STypeAlias alias definition
  end.

(** The value of the last definition of a name among the forms. *)
Definition lastDefinition {I} (name : string) (forms : list (Syntax I))
  : option (Expression I) :=
  last (omap (fun s =>
    match s with
    | SDefinition x value => if bool_decide (x = name) then Some value else None
    | _ => None
    end) forms).

(** The free occurrences of variables in an expression: a function binds
    its parameters in its body, a [let] binds its variables in its body
    (not in the values of the bindings), a case of a [match] binds its
    variable in its body. The occurrences are listed in the order in which
    the generator collects its assumptions: for a [let], those of the body
    come before those of the values of the bindings. *)
Fixpoint freeVariables {I} (e : Expression I) : list string :=
  match e with
  | EUnknown _ | ENumber _ _ | EString _ _ => []
  | EVector values _ => flat_map freeVariables values
  | ERecord fields extends _ =>
      flat_map (fun f => freeVariables f.2) fields
        ++ from_option freeVariables [] extends
  | EVariableReference name _ => [name]
  | EConditional c t e _ =>
      freeVariables c ++ freeVariables t ++ freeVariables e
  | EFunction args body _ =>
      List.filter (fun x => negb (includes args x)) (flat_map freeVariables body)
  | EFunctionCall fn args _ => freeVariables fn ++ flat_map freeVariables args
  | ELetBindings bindings body _ =>
      List.filter (fun x => negb (includes (map fst bindings) x))
        (flat_map freeVariables body)
        ++ flat_map (fun b => freeVariables b.2) bindings
  | ETypeAnnotation _ value _ => freeVariables value
  | EDoBlock body returning _ =>
      flat_map freeVariables body ++ freeVariables returning
  | EMatch value cases _ =>
      freeVariables value
        ++ flat_map (fun c =>
             List.filter (fun x => negb (bool_decide (x = c.1.2)))
               (flat_map freeVariables c.2)) cases
  end.

(** The subexpressions a node evaluates when it is evaluated itself. The
    body of a function is not among them, and neither are the values of
    the bindings of a [let] nor the parts of a [match]. *)
Definition evaluatedSubforms {I} (e : Expression I) : list (Expression I) :=
  match e with
  | EVector values _ => values
  | ERecord fields extends _ => map snd fields ++ option_list extends
  | EConditional c t e _ => [c; t; e]
  | EFunctionCall fn args _ => fn :: args
  | ELetBindings _ body _ => body
  | EDoBlock body returning _ => body ++ [returning]
  | _ => []
  end.

(** The free occurrences of variables in a form of a module. *)
Definition freeVariablesOfSyntax {I} (s : Syntax I) : list string :=
  match s with
  | SExpression e => freeVariables e
  | SDefinition _ value => freeVariables value
  | SExport _ => []
  | STypeAlias _ _ => []
  end.

(** * Properties *)

Lemma list_all_Forall {A} (P : A -> Prop) (l : list A) :
  list_all A P l -> Forall P l.
Proof. induction 1; constructor; auto. Qed.

(** ** The generator monad *)

Lemma Gen_bind_unfold {A B} (m : Gen A) (f : A -> Gen B) (n : nat) :
  (m ≫= f) n = match m n with Ok (a, n') => f a n' | Throw e => Throw e end.
Proof. reflexivity. Qed.

Lemma Gen_bind_Ok {A B} (m : Gen A) (f : A -> Gen B) (n : nat) (r : B * nat) :
  (m ≫= f) n = Ok r -> exists a n', m n = Ok (a, n') /\ f a n' = Ok r.
Proof.
  rewrite Gen_bind_unfold. destruct (m n) as [[a n']|e]; [|discriminate].
  intros H. by exists a, n'.
Qed.

Lemma Gen_ret_Ok {A} (a : A) (n : nat) (r : A * nat) :
  (mret a : Gen A) n = Ok r -> r = (a, n).
Proof. by intros [= <-]. Qed.

Lemma liftRes_Ok {A} (x : Res A) (n : nat) (a : A) (n' : nat) :
  liftRes x n = Ok (a, n') -> x = Ok a /\ n' = n.
Proof. destruct x; simpl; [|discriminate]. by intros [= <- <-]. Qed.

Lemma Res_bind_Ok {A B} (m : Res A) (f : A -> Res B) (r : B) :
  m ≫= f = Ok r -> exists a, m = Ok a /\ f a = Ok r.
Proof. destruct m as [a|e]; [|discriminate]. intros H. by exists a. Qed.

Lemma mapM_Gen_cons {A B} (f : A -> Gen B) (x : A) (l : list A) (n : nat) :
  mapM f (x :: l) n = (y ← f x; k ← mapM f l; mret (y :: k)) n.
Proof. reflexivity. Qed.

Lemma mapM_Res_cons {A B} (f : A -> Res B) (x : A) (l : list A) :
  mapM f (x :: l) = (y ← f x; k ← mapM f l; mret (y :: k)).
Proof. reflexivity. Qed.

(** Every element of a successful [mapM] was produced by a successful call
    on the element at the same position. *)
Lemma mapM_Gen_lookup {A B} (f : A -> Gen B) (l : list A) (n : nat)
    (ys : list B) (n' : nat) :
  mapM f l n = Ok (ys, n') ->
  length ys = length l /\
  forall k x, l !! k = Some x ->
    exists y nk nk', ys !! k = Some y /\ f x nk = Ok (y, nk').
Proof.
  revert n ys n'. induction l as [|x l IH]; intros n ys n' H.
  - apply Gen_ret_Ok in H as [= -> ->]. split; [done|]. by intros k x.
  - rewrite mapM_Gen_cons in H.
    apply Gen_bind_Ok in H as (y & n1 & Hy & H).
    apply Gen_bind_Ok in H as (k & n2 & Hk & H).
    apply Gen_ret_Ok in H as [= -> ->].
    destruct (IH _ _ _ Hk) as [Hlen Hl]. split; [simpl; by rewrite Hlen|].
    intros [|j] x'; simpl.
    + intros [= <-]. by exists y, n, n1.
    + apply Hl.
Qed.

(** A [mapM] whose calls all return, returns. *)
Lemma mapM_Gen_total {A B} (f : A -> Gen B) (l : list A) :
  Forall (fun x => forall n, exists y n', f x n = Ok (y, n')) l ->
  forall n, exists ys n', mapM f l n = Ok (ys, n').
Proof.
  induction 1 as [|x l Hx _ IH]; intros n.
  - by exists [], n.
  - destruct (Hx n) as (y & n1 & Hy). destruct (IH n1) as (ys & n2 & Hys).
    exists (y :: ys), n2. rewrite mapM_Gen_cons.
    rewrite Gen_bind_unfold, Hy. rewrite Gen_bind_unfold, Hys. done.
Qed.

(** ** Literals *)

(** C6, as the specification states it, would make the boolean literal
    [true] a node of constant type [boolean] without assumptions. The
    language has no boolean node: [true] is read as a variable reference,
    which receives a fresh type variable and leaves an assumption. *)
Lemma literal_boolean_not_constant :
  exists r n',
    infer (EVariableReference "true" tt) [] ∅ 0 = Ok (r, n') /\
    type (info (result r)) <> tBoolean /\
    assumptions r <> [].
Proof. eexists _, _. split; [vm_compute; reflexivity|]. split; discriminate. Qed.

(** C6 (amended): number and string literals get the constant types [number]
    and [string], a fresh effect variable, no constraints and no
    assumptions; a boolean literal, being a variable reference, gets a
    fresh type variable, a fresh effect variable, no constraints and the
    assumption of its own use. *)
Theorem infer_literals (monovars : list string) (internalTypes : gmap string Monotype)
    (n : nat) :
  (forall value i,
     infer (ENumber value i) monovars internalTypes n =
       Ok (mkInferResult
             (ENumber value (mkTyped tNumber (tVar (tvarName (S n)) false)))
             [] [], S n)) /\
  (forall value i,
     infer (EString value i) monovars internalTypes n =
       Ok (mkInferResult
             (EString value (mkTyped tString (tVar (tvarName (S n)) false)))
             [] [], S n)) /\
  (forall name i,
     let use :=
       mkAssumption name
         (mkTyped (tVar (tvarName (S n)) false) (tVar (tvarName (S (S n))) false)) in
     infer (EVariableReference name i) monovars internalTypes n =
       Ok (mkInferResult (assumptionExpr use) [] [use], S (S n))).
Proof. repeat split. Qed.

Lemma find_bool_decide_Some {A} (key : A -> string) (name : string) (l : list A) :
  name ∈ map key l ->
  exists k x, List.find (fun p => bool_decide (key p = name)) l = Some x /\
    l !! k = Some x /\ key x = name.
Proof.
  induction l as [|y l IH]; simpl.
  - intros H. by apply elem_of_nil in H.
  - intros H. case_bool_decide as E.
    + by exists 0, y.
    + apply elem_of_cons in H as [H|H]; [congruence|].
      destruct (IH H) as (k & x & ? & ? & ?). by exists (S k), x.
Qed.

(** ** Let bindings *)

(** C1: a [let] emits, for the value of every binding, an effect constraint
    against the empty effect row; for every assumption of the body whose
    name is bound, an implicit-instance constraint over the current
    monomorphic variables and the type of the (first) binding of that name;
    those assumptions are removed, and the assumptions of the binding values
    are passed on as they are. *)
Theorem let_bindings_constraints (bindings : list (string * Expression unit))
    (body : list (Expression unit)) (i : unit) (monovars : list string)
    (internalTypes : gmap string Monotype) (n n' : nat)
    (r : InferResult (Expression Typed)) :
  infer (ELetBindings bindings body i) monovars internalTypes n = Ok (r, n') ->
  exists bindingsInfo bodyInference,
    (forall k x value, bindings !! k = Some (x, value) ->
       exists inference nk nk',
         bindingsInfo !! k = Some (x, inference) /\
         infer value monovars internalTypes nk = Ok (inference, nk') /\
         constEffect (result inference) (tEffect []) ∈ constraints r) /\
    (exists n1 n2,
       inferMany body monovars internalTypes n1 = Ok (bodyInference, n2)) /\
    (forall use, use ∈ assumptions bodyInference ->
       aname use ∈ map fst bindings ->
       exists k value inference,
         bindings !! k = Some (aname use, value) /\
         bindingsInfo !! k = Some (aname use, inference) /\
         constImplicitInstance (assumptionExpr use) monovars
           (type (info (result inference))) ∈ constraints r) /\
    assumptions r =
      List.filter (fun v => negb (includes (map fst bindings) (aname v)))
        (assumptions bodyInference)
      ++ flatMap (fun bi => assumptions bi.2) bindingsInfo.
Proof.
  intros H. simpl in H.
  apply Gen_bind_Ok in H as (bindingsInfo & n1 & Hb & H).
  apply Gen_bind_Ok in H as (bodyInference & n2 & Hbody & H).
  apply Gen_bind_Ok in H as (eff & n3 & Heff & H).
  apply Gen_bind_Ok in H as (t & n4 & Ht & H).
  apply Gen_ret_Ok in H as [= -> ->].
  apply mapM_Gen_lookup in Hb as [Hlen Hb].
  assert (Hpos : forall k x value, bindings !! k = Some (x, value) ->
    exists inference nk nk', bindingsInfo !! k = Some (x, inference) /\
      infer value monovars internalTypes nk = Ok (inference, nk')).
  { intros k x value Hk. destruct (Hb _ _ Hk) as (y & nk & nk' & Hy & Hf).
    apply Gen_bind_Ok in Hf as (inference & nk2 & Hinf & Hf).
    apply Gen_ret_Ok in Hf as [= -> ->]. by exists inference, nk, nk2. }
  exists bindingsInfo, bodyInference. simpl. split; [|split; [|split]].
  - intros k x value Hk. destruct (Hpos _ _ _ Hk) as (inf & nk & nk' & Hy & Hf).
    exists inf, nk, nk'. split; [done|]. split; [done|].
    rewrite !elem_of_app. right. right. right. left.
    apply list_elem_of_fmap. exists (x, inf). split; [done|].
    by eapply list_elem_of_lookup_2.
  - by exists n1, n2.
  - intros use Huse Hname.
    assert (Hnames : map fst bindingsInfo = map fst bindings).
    { apply list_eq. intros k. rewrite !list_lookup_fmap.
      destruct (bindings !! k) as [[x value]|] eqn:Hk.
      - destruct (Hpos _ _ _ Hk) as (inf & _ & _ & -> & _). done.
      - apply lookup_ge_None in Hk. rewrite <- Hlen in Hk.
        apply lookup_ge_None in Hk. by rewrite Hk. }
    rewrite <- Hnames in Hname.
    destruct (find_bool_decide_Some fst _ _ Hname) as (k & [x inf] & Hfind & Hk & Hx).
    simpl in Hx. subst x.
    destruct (bindings !! k) as [[x value]|] eqn:Hbk.
    2:{ apply lookup_ge_None in Hbk. rewrite <- Hlen in Hbk.
        apply lookup_ge_None in Hbk. congruence. }
    destruct (Hpos _ _ _ Hbk) as (inf' & _ & _ & Hk' & _).
    rewrite Hk in Hk'. injection Hk' as <- <-.
    exists k, value, inf. split; [done|]. split; [done|].
    rewrite !elem_of_app. right. right. left.
    apply list_elem_of_fmap. exists use. split.
    + unfold bindingTypeOf. by rewrite Hfind.
    + apply list_elem_of_In, filter_In. split; [by apply list_elem_of_In|].
      unfold includes. apply bool_decide_eq_true. by rewrite <- Hnames.
  - done.
Qed.

Lemma let_bindings_constraints_witness :
  exists r n',
    infer
      (ELetBindings [("id", EFunction ["x"] [EVariableReference "x" tt] tt)]
         [EVariableReference "id" tt] tt) [] ∅ 0 = Ok (r, n') /\
    exists inference,
      constEffect (result inference) (tEffect []) ∈ constraints r.
Proof.
  eexists _, _. split; [vm_compute; reflexivity|].
  edestruct (let_bindings_constraints
    [("id", EFunction ["x"] [EVariableReference "x" tt] tt)]
    [EVariableReference "id" tt] tt [] ∅ 0) as (bi & bo & Hb & _);
    [vm_compute; reflexivity|].
  destruct (Hb 0 "id" _ eq_refl) as (inf & _ & _ & _ & _ & Hin).
  by exists inf.
Defined.

(** ** The module driver *)

Lemma omap_cons_eq {A B} (f : A -> option B) (x : A) (l : list A) :
  omap f (x :: l) =
    match f x with Some y => y :: omap f l | None => omap f l end.
Proof. reflexivity. Qed.

Lemma filter_elem_of {A} (p : A -> bool) (l : list A) (x : A) :
  x ∈ List.filter p l <-> x ∈ l /\ p x = true.
Proof. by rewrite !list_elem_of_In, filter_In. Qed.

Lemma list_filter_ext_in {A} (p q : A -> bool) (l : list A) :
  (forall x, x ∈ l -> p x = q x) -> List.filter p l = List.filter q l.
Proof.
  intros H. apply List.filter_ext_in. intros x Hx. apply H.
  by apply list_elem_of_In.
Qed.

Lemma internalVariablesOf_is_Some (forms : list (Syntax Typed)) (x : string) :
  is_Some (internalVariablesOf forms !! x) <-> x ∈ definitionNames forms.
Proof.
  unfold internalVariablesOf, definitionNames.
  assert (G : forall env : gmap string Monotype,
    is_Some (foldl (fun env s =>
      match s with
      | SDefinition variable value => <[variable := type (info value)]> env
      | _ => env
      end) env forms !! x) <->
    is_Some (env !! x) \/
    x ∈ omap (fun s : Syntax Typed =>
                match s with SDefinition v _ => Some v | _ => None end) forms).
  { induction forms as [|s forms IH]; intros env; simpl.
    - rewrite elem_of_nil. tauto.
    - rewrite IH. destruct s as [e|v value|ids|a d]; simpl; try tauto.
      rewrite elem_of_cons, lookup_insert_is_Some.
      destruct (decide (v = x)); naive_solver. }
  rewrite G, lookup_empty, is_Some_alt. tauto.
Qed.

Lemma inferSyntax_definitionNames (forms : list (Syntax unit))
    (internalTypes : gmap string Monotype) (n n' : nat)
    (bodyInferences : list (InferResult (Syntax Typed))) :
  mapM (fun form => inferSyntax form internalTypes) forms n
    = Ok (bodyInferences, n') ->
  definitionNames (map result bodyInferences) = definitionNames forms.
Proof.
  revert n bodyInferences. induction forms as [|s forms IH]; intros n bis H.
  - by apply Gen_ret_Ok in H as [= -> ->].
  - rewrite mapM_Gen_cons in H.
    apply Gen_bind_Ok in H as (y & n1 & Hy & H).
    apply Gen_bind_Ok in H as (ys & n2 & Hys & H).
    apply Gen_ret_Ok in H as [= -> ->].
    specialize (IH _ _ Hys). unfold definitionNames in *.
    destruct s as [e|v value|ids|a d]; simpl in Hy.
    + apply Gen_bind_Ok in Hy as (i & ? & _ & Hy).
      apply Gen_ret_Ok in Hy as [= -> ->]. simpl. try f_equal. exact IH.
    + apply Gen_bind_Ok in Hy as (i & ? & _ & Hy).
      apply Gen_ret_Ok in Hy as [= -> ->]. simpl. try f_equal. exact IH.
    + apply Gen_ret_Ok in Hy as [= -> ->]. simpl. try f_equal. exact IH.
    + apply Gen_ret_Ok in Hy as [= -> ->]. simpl. try f_equal. exact IH.
Qed.

Section DriverProperties.

Variable inlinePrimitives : gmap string TypeSchema.
Variable applySubstitution : Monotype -> gmap string Monotype -> Monotype.
Variable solve :
list TConstraint -> gmap string Monotype -> Res (gmap string Monotype).

#[local] Abbreviation lookupVariableType := (lookupVariableType inlinePrimitives).
#[local] Abbreviation groupAssumptions := (groupAssumptions inlinePrimitives).
#[local] Abbreviation assumptionsToConstraints := (assumptionsToConstraints inlinePrimitives).
#[local] Abbreviation inferTypeConstraints := (inferTypeConstraints inlinePrimitives).
#[local] Abbreviation inferType := (inferType inlinePrimitives applySubstitution solve).
#[local] Abbreviation inferModule := (inferModule inlinePrimitives applySubstitution solve).
#[local] Abbreviation moduleConstraints := (moduleConstraints inlinePrimitives).
#[local] Abbreviation applySubstitutionToSyntax := (applySubstitutionToSyntax applySubstitution).
#[local] Abbreviation applySubstitutionToExpr := (applySubstitutionToExpr applySubstitution).
#[local] Abbreviation applySubstitutionToVariableReference :=
(applySubstitutionToVariableReference applySubstitution).

Lemma getProperty_is_Some {A} (obj : gmap string A) (key : string) :
is_Some (getProperty obj key) <->
is_Some (obj !! key) \/ key ∈ objectPrototypeKeys.
Proof.
unfold getProperty. destruct (obj !! key) as [value|]; [naive_solver|].
case_bool_decide as E; [naive_solver|].
split; [by intros [? [=]]|]. by intros [[? [=]]|?].
Qed.

Lemma getProperty_None {A} (obj : gmap string A) (key : string) :
getProperty obj key = None <->
obj !! key = None /\ (key ∉ objectPrototypeKeys).
Proof.
rewrite !eq_None_not_Some, getProperty_is_Some. tauto.
Qed.

Lemma getProperty_Own {A} (obj : gmap string A) (key : string) (value : A) :
getProperty obj key = Some (Own value) <-> obj !! key = Some value.
Proof.
unfold getProperty. destruct (obj !! key) as [v|]; [naive_solver|].
case_bool_decide; naive_solver.
Qed.

Lemma getProperty_Inherited {A} (obj : gmap string A) (key k : string) :
getProperty obj key = Some (Inherited k) <->
obj !! key = None /\ key ∈ objectPrototypeKeys /\ k = key.
Proof.
unfold getProperty. destruct (obj !! key) as [v|]; [naive_solver|].
case_bool_decide; naive_solver.
Qed.

Lemma hasProperty_true {A} (obj : gmap string A) (key : string) :
hasProperty obj key = true <->
is_Some (obj !! key) \/ key ∈ objectPrototypeKeys.
Proof.
unfold hasProperty. by rewrite bool_decide_eq_true, getProperty_is_Some.
Qed.

Lemma lookupVariableType_is_Some (name : string) (env : ExternalEnvironment) :
is_Some (lookupVariableType name env) <->
is_Some (ext_variables env !! name) \/ name ∈ objectPrototypeKeys \/
is_Some (inlinePrimitives !! name).
Proof.
unfold lookupVariableType, isInlinePrimitive.
destruct (getProperty (ext_variables env) name) as [t|] eqn:E.
- assert (H : is_Some (getProperty (ext_variables env) name)) by eauto.
  apply getProperty_is_Some in H. split; [tauto|eauto].
- apply getProperty_None in E as [E1 E2]. rewrite E1.
  case_bool_decide as E.
  + destruct E as [t Ht]. rewrite Ht. simpl. split; [eauto|eauto].
  + split; [by intros [? [=]]|]. intros [[? [=]]|[?|?]]; done.
Qed.

Lemma lookupVariableType_None (name : string) (env : ExternalEnvironment) :
lookupVariableType name env = None <->
ext_variables env !! name = None /\ (name ∉ objectPrototypeKeys) /\
inlinePrimitives !! name = None.
Proof.
rewrite !eq_None_not_Some, lookupVariableType_is_Some. tauto.
Qed.

(** What each list of [groupAssumptions] holds. *)
Lemma groupAssumptions_elem (assumptions : list TAssumption)
  (internalEnv : InternalEnvironment) (externalEnv : ExternalEnvironment)
  (a : TAssumption) :
let g := groupAssumptions assumptions internalEnv externalEnv in
(a ∈ internals g <->
   a ∈ assumptions /\
   (is_Some (int_variables internalEnv !! aname a) \/
    aname a ∈ objectPrototypeKeys)) /\
(a ∈ externals g <->
   a ∈ assumptions /\
   (is_Some (ext_variables externalEnv !! aname a) \/
    aname a ∈ objectPrototypeKeys \/
    is_Some (inlinePrimitives !! aname a))) /\
(a ∈ unknowns g <->
   a ∈ assumptions /\ (a ∉ internals g) /\ (a ∉ externals g)).
Proof.
intros g. unfold g, groupAssumptions. cbn [internals externals unknowns].
split; [|split].
- by rewrite filter_elem_of, hasProperty_true.
- by rewrite filter_elem_of, bool_decide_eq_true, lookupVariableType_is_Some.
- unfold difference, includes.
  rewrite filter_elem_of, negb_true_iff, bool_decide_eq_false, elem_of_app.
  tauto.
Qed.

Lemma groupAssumptions_unknowns (assumptions : list TAssumption)
  (internalEnv : InternalEnvironment) (externalEnv : ExternalEnvironment) :
unknowns (groupAssumptions assumptions internalEnv externalEnv) =
  List.filter
    (fun v =>
       bool_decide (hasProperty (int_variables internalEnv) (aname v) = false
                    /\ lookupVariableType (aname v) externalEnv = None))
    assumptions.
Proof.
unfold groupAssumptions, difference. cbn [unknowns].
apply list_filter_ext_in. intros v Hv. unfold includes.
rewrite <- bool_decide_not. apply bool_decide_ext.
rewrite elem_of_app, !filter_elem_of, !bool_decide_eq_true.
rewrite eq_None_not_Some, <- not_true_iff_false. tauto.
Qed.

Lemma assumptionsToConstraints_elem (assumptions : list TAssumption)
  (env : ExternalEnvironment) (c : TConstraint) :
c ∈ assumptionsToConstraints assumptions env <->
exists a t, a ∈ assumptions /\ lookupVariableType (aname a) env = Some t /\
  c = explicitInstance a t.
Proof.
unfold assumptionsToConstraints, maybeMap. rewrite list_elem_of_omap.
split.
- intros (a & Ha & Hc). destruct (lookupVariableType (aname a) env) as [t|] eqn:E;
    [|discriminate]. injection Hc as <-. by exists a, t.
- intros (a & t & Ha & Ht & ->). exists a. by rewrite Ht.
Qed.

Lemma explicitInstance_carrier (a : TAssumption) (t : Property TypeSchema) :
carrier (explicitInstance a t) = assumptionExpr a.
Proof. by destruct t. Qed.

(** C9 (amended): an assumption whose name the lookup in the external
  environment does not find, and that is no inline primitive, contributes
  no explicit-instance constraint: the solver receives the constraints of
  the generator and the explicit instances of the other assumptions only,
  none of which is carried by a use of that name, while every assumption
  the lookup does find keeps its explicit-instance constraint; and
  [inferType] returns whenever the solver does. For an expression that is
  the bare reference the solver receives no constraint at all. *)
Theorem inferType_drops_unknown_assumptions (expr : Expression unit)
  (env : ExternalEnvironment) (internalTypes : gmap string Monotype)
  (n n' : nat) (i : InferResult (Expression Typed)) (name : string) :
infer expr [] internalTypes n = Ok (i, n') ->
lookupVariableType name env = None ->
assumptionsToConstraints (assumptions i) env =
  assumptionsToConstraints
    (List.filter (fun a => negb (bool_decide (aname a = name)))
       (assumptions i)) env /\
(forall c a, c ∈ assumptionsToConstraints (assumptions i) env ->
   aname a = name -> carrier c <> assumptionExpr a) /\
(forall a t, a ∈ assumptions i ->
   lookupVariableType (aname a) env = Some t ->
   explicitInstance a t ∈ inferTypeConstraints i env) /\
(forall s, solve (inferTypeConstraints i env) ∅ = Ok s ->
   inferType expr env internalTypes n =
     Ok (applySubstitutionToExpr (result i) s, n')) /\
(forall info0, expr = EVariableReference name info0 ->
   inferTypeConstraints i env = []).
Proof.
intros Hinfer Hname. split; [|split; [|split; [|split]]].
- unfold assumptionsToConstraints, maybeMap.
  induction (assumptions i) as [|a l IH]; [done|].
  rewrite omap_cons_eq. cbn [List.filter].
  case_bool_decide as E; cbn [negb].
  + rewrite E, Hname. exact IH.
  + rewrite omap_cons_eq.
    destruct (lookupVariableType (aname a) env); cbn; by rewrite IH.
- intros c a Hc Ha Heq.
  apply assumptionsToConstraints_elem in Hc as (a' & t & _ & Ht & ->).
  rewrite explicitInstance_carrier in Heq. injection Heq as Hn _. congruence.
- intros a t Ha Ht. unfold inferTypeConstraints. apply elem_of_app. right.
  apply assumptionsToConstraints_elem. by exists a, t.
- intros s Hs. unfold inferType.
  rewrite Gen_bind_unfold, Hinfer. rewrite Gen_bind_unfold.
  unfold liftRes. by rewrite Hs.
- intros info0 ->. simpl in Hinfer. injection Hinfer as <- _.
  unfold inferTypeConstraints, assumptionsToConstraints, maybeMap. simpl.
  by rewrite Hname.
Qed.


(** C10: an export or type-alias form yields itself, without constraints
  or assumptions and without consuming fresh variables; applying a
  substitution leaves it as it is; the typed module holds it at the
  position it has in the input. *)
Theorem export_and_alias_pass_through (m : Module unit)
  (externalEnv : ExternalEnvironment) (n n' : nat)
  (res : InferModuleResult) (k : nat) (s : Syntax unit) (s' : Syntax Typed) :
inferModule m externalEnv n = Ok (res, n') ->
body m !! k = Some s ->
passThrough s = Some s' ->
(forall internalTypes n0,
   inferSyntax s internalTypes n0 = Ok (mkInferResult s' [] [], n0)) /\
(forall sub, applySubstitutionToSyntax s' sub = s') /\
body (typedModule res) !! k = Some s'.
Proof.
intros H Hk Hs.
assert (Hsyn : forall internalTypes n0,
  inferSyntax s internalTypes n0 = Ok (mkInferResult s' [] [], n0)).
{ intros it n0. destruct s; simpl in Hs; try discriminate;
    by injection Hs as <-. }
assert (Hsub : forall sub, applySubstitutionToSyntax s' sub = s').
{ intros sub. destruct s; simpl in Hs; try discriminate;
    by injection Hs as <-. }
split; [done|]. split; [done|].
unfold inferModule in H.
apply Gen_bind_Ok in H as ([] & n1 & _ & H).
apply Gen_bind_Ok in H as (bodyInferences & n2 & Hbody & H).
apply Gen_bind_Ok in H as (solution & n3 & _ & H).
apply Gen_ret_Ok in H as [= -> ->]. simpl.
apply mapM_Gen_lookup in Hbody as [_ Hbody].
destruct (Hbody _ _ Hk) as (y & nk & nk' & Hy & Hf).
rewrite Hsyn in Hf. injection Hf as <- _.
rewrite !list_lookup_fmap, Hy. simpl. by rewrite Hsub.
Qed.

End DriverProperties.

(** C3: the three lists are not a partition. A use of [+] in a module that
    defines [+], with [+] also bound in the external environment, is both
    among the internals and among the externals: the external lookup is not
    shadowed by the definitions of the module. A use of [toString], which
    the module does not define and the external environment does not bind,
    is in both lists too and not among the unknowns: both tests find the
    member of [Object.prototype]. In general an assumption is internal when
    its name is a definition of the module or the name of such a member,
    external when its name is in the external environment, names such a
    member or is an inline primitive, and unknown when it is neither. *)
Theorem groupAssumptions_not_a_partition :
  (let a := mkAssumption "+" (mkTyped (tVar "t1" false) (tVar "t2" false)) in
   let g :=
     groupAssumptions ∅ [a]
       (mkInternalEnvironment {["+" := tNumber]} ∅)
       (mkExternalEnvironment
          {["+" := mkTypeSchema []
                     (tFn [tNumber; tNumber] (tVar "e" false) tNumber)]}
          ∅) in
   internals g = [a] /\ externals g = [a] /\ unknowns g = []) /\
  (let a :=
     mkAssumption "toString" (mkTyped (tVar "t1" false) (tVar "t2" false)) in
   let g :=
     groupAssumptions ∅ [a]
       (mkInternalEnvironment ∅ ∅) (mkExternalEnvironment ∅ ∅) in
   internals g = [a] /\ externals g = [a] /\ unknowns g = []) /\
  (forall (inlinePrimitives : gmap string TypeSchema)
          (assumptions : list TAssumption)
          (internalEnv : InternalEnvironment)
          (externalEnv : ExternalEnvironment) (a : TAssumption),
     let g :=
       groupAssumptions inlinePrimitives assumptions internalEnv externalEnv in
     (a ∈ internals g <->
        a ∈ assumptions /\
        (is_Some (int_variables internalEnv !! aname a) \/
         aname a ∈ objectPrototypeKeys)) /\
     (a ∈ externals g <->
        a ∈ assumptions /\
        (is_Some (ext_variables externalEnv !! aname a) \/
         aname a ∈ objectPrototypeKeys \/
         is_Some (inlinePrimitives !! aname a))) /\
     (a ∈ unknowns g <->
        a ∈ assumptions /\ (a ∉ internals g) /\ (a ∉ externals g))).
Proof.
  split; [by vm_compute|]. split; [by vm_compute|].
  intros. apply groupAssumptions_elem.
Qed.

(** C4: in the module that holds the one expression [toString], the name is
    not defined, the external environment does not bind it and it is no
    inline primitive, yet the use is not among the unknowns
    [inferModule] returns: for every solver and substitution function the
    list is empty, and the solver is handed an explicit and an implicit
    instance of the member of [Object.prototype] that the two lookups
    find. *)
Theorem inferModule_inherited_name_not_unknown :
  let m := mkModule [SExpression (EVariableReference "toString" tt)] in
  let env := mkExternalEnvironment ∅ ∅ in
  let use :=
    mkAssumption "toString" (mkTyped (tVar "t1" false) (tVar "t2" false)) in
  ("toString" ∉ definitionNames (body m)) /\
  lookupVariableType ∅ "toString" env = Some (Inherited "toString") /\
  ext_variables env !! "toString" = None /\
  forall (applySubstitution : Monotype -> gmap string Monotype -> Monotype)
         (solve : list TConstraint -> gmap string Monotype ->
                  Res (gmap string Monotype)),
    inferModule ∅ applySubstitution solve m env 0 =
      match
        solve [constExplicitInherited (assumptionExpr use) "toString";
               constImplicitInherited (assumptionExpr use) [] "toString"] ∅
      with
      | Ok solution =>
          Ok (mkInferModuleResult
                (mkModule
                   [SExpression
                      (applySubstitutionToExpr applySubstitution
                         (assumptionExpr use) solution)])
                [], 2)
      | Throw e => Throw e
      end.
Proof.
  split; [by vm_compute; apply not_elem_of_nil|]. split; [done|].
  split; [done|]. intros applySubstitution solve.
  unfold inferModule. rewrite Gen_bind_unfold.
  replace (liftRes (checkCircularTypes
             (typeAliasesOf (body
                (mkModule [SExpression (EVariableReference "toString" tt)])))) 0)
    with (Ok (tt, 0) : Res (unit * nat)) by (vm_compute; reflexivity).
  rewrite Gen_bind_unfold.
  replace (mapM (fun form => inferSyntax form
             (internalTypesOf (body
                (mkModule [SExpression (EVariableReference "toString" tt)]))))
             (body (mkModule [SExpression (EVariableReference "toString" tt)])) 0)
    with (Ok ([mkInferResult
                 (SExpression
                    (EVariableReference "toString"
                       (mkTyped (tVar "t1" false) (tVar "t2" false))))
                 []
                 [mkAssumption "toString"
                    (mkTyped (tVar "t1" false) (tVar "t2" false))]], 2)
            : Res (list (InferResult (Syntax Typed)) * nat))
    by (vm_compute; reflexivity).
  rewrite Gen_bind_unfold. unfold liftRes.
  replace (moduleConstraints _ _ _ _ _)
    with [constExplicitInherited
            (assumptionExpr
               (mkAssumption "toString"
                  (mkTyped (tVar "t1" false) (tVar "t2" false)))) "toString";
          constImplicitInherited
            (assumptionExpr
               (mkAssumption "toString"
                  (mkTyped (tVar "t1" false) (tVar "t2" false)))) [] "toString"]
    by (vm_compute; reflexivity).
  destruct (solve _ ∅) as [solution|e]; [|done].
  vm_compute. reflexivity.
Qed.

(** X27: the lookup of [inferType] finds the members of
    [Object.prototype] too. For the bare reference [toString], in an
    external environment that binds nothing and without inline primitives,
    the solver is handed an explicit instance of the inherited member. *)
Theorem inferType_inherited_name_is_constrained :
  let env := mkExternalEnvironment ∅ ∅ in
  let use :=
    mkAssumption "toString" (mkTyped (tVar "t1" false) (tVar "t2" false)) in
  infer (EVariableReference "toString" tt) [] ∅ 0 =
    Ok (mkInferResult (assumptionExpr use) [] [use], 2) /\
  ext_variables env !! "toString" = None /\
  inferTypeConstraints ∅ (mkInferResult (assumptionExpr use) [] [use]) env =
    [constExplicitInherited (assumptionExpr use) "toString"].
Proof. by vm_compute. Qed.

(** C9, as the specification states it, would leave no constraint carried
    by a use of an unresolvable name. In [[foo]] the generator itself
    constrains the use of [foo], and the solver receives that constraint. *)
Lemma inferType_unknown_use_is_constrained :
  let env := mkExternalEnvironment ∅ ∅ in
  exists i n' a c,
    infer (EVector [EVariableReference "foo" tt] tt) [] ∅ 0 = Ok (i, n') /\
    a ∈ assumptions i /\ aname a = "foo" /\
    lookupVariableType ∅ "foo" env = None /\
    c ∈ inferTypeConstraints ∅ i env /\
    carrier c = assumptionExpr a.
Proof.
  eexists _, _, _, _. split; [vm_compute; reflexivity|].
  split; [cbn [assumptions]; apply list_elem_of_here|].
  split; [reflexivity|]. split; [reflexivity|].
  split; [apply list_elem_of_here|reflexivity].
Qed.

Lemma inferType_drops_unknown_assumptions_witness :
  let env := mkExternalEnvironment ∅ ∅ in
  exists i n',
    infer (EVariableReference "foo" tt) [] ∅ 0 = Ok (i, n') /\
    lookupVariableType ∅ "foo" env = None /\
    inferTypeConstraints ∅ i env = [].
Proof.
  eexists _, _. split; [vm_compute; reflexivity|].
  split; [vm_compute; reflexivity|].
  eapply (inferType_drops_unknown_assumptions ∅ (fun t _ => t)
            (fun _ s => Ok s) (EVariableReference "foo" tt)
            (mkExternalEnvironment ∅ ∅) ∅ 0 _ _ "foo");
    [vm_compute; reflexivity|vm_compute; reflexivity|reflexivity].
Defined.

Lemma export_and_alias_pass_through_witness :
  let m :=
    mkModule [SExport ["x"]; STypeAlias "A" tNumber; SExpression (ENumber 1 tt)] in
  exists res n',
    inferModule ∅ (fun t _ => t) (fun _ s => Ok s) m
      (mkExternalEnvironment ∅ ∅) 0 = Ok (res, n') /\
    body (typedModule res) !! 0 = Some (SExport ["x"]).
Proof.
  eexists _, _. split; [vm_compute; reflexivity|].
  eapply (export_and_alias_pass_through ∅ (fun t _ => t) (fun _ s => Ok s)
            (mkModule [SExport ["x"]; STypeAlias "A" tNumber;
                       SExpression (ENumber 1 tt)])
            (mkExternalEnvironment ∅ ∅) 0 _ _ 0 (SExport ["x"]));
    [vm_compute; reflexivity|reflexivity|reflexivity].
Defined.

(** ** The alias cycle check *)

Lemma indexOf_Some_lt (x : nat) (l : list nat) (i : nat) :
  indexOf x l = Some i -> i < length l.
Proof.
  revert i. induction l as [|y l IH]; intros i; simpl; [discriminate|].
  case_bool_decide; [intros [= <-]; lia|].
  destruct (indexOf x l) as [j|]; simpl; [|discriminate].
  intros [= <-]. specialize (IH j eq_refl). lia.
Qed.

Lemma indexOf_None (x : nat) (l : list nat) : indexOf x l = None -> x ∉ l.
Proof.
  induction l as [|y l IH]; simpl; [intros _; apply not_elem_of_nil|].
  case_bool_decide; [discriminate|].
  destruct (indexOf x l); simpl; [discriminate|].
  intros _. apply not_elem_of_cons. split; [congruence|by apply IH].
Qed.

Lemma mapM_Res_Throw {A B} (f : A -> Res B) (l : list A) (e : Exception) :
  mapM f l = Throw e -> exists x, x ∈ l /\ f x = Throw e.
Proof.
  induction l as [|x l IH]; [discriminate|]. rewrite mapM_Res_cons.
  destruct (f x) as [y|e'] eqn:Hx; simpl.
  - destruct (mapM f l) as [k|e'] eqn:Hl; simpl; [discriminate|].
    intros [= ->]. destruct (IH eq_refl) as (x' & Hin & Hx').
    exists x'. split; [by apply list_elem_of_further|done].
  - intros [= ->]. exists x. split; [apply list_elem_of_here|done].
Qed.

(** The cycle the search reports repeats the alias it closes on, so it
    never has length one. *)
Lemma visit_never_recursive (fuel : nat) (allTypeAliases : list (string * Monotype)) :
  forall typeAlias path,
    visit fuel allTypeAliases typeAlias path <> Throw (Error recursiveAliasMessage).
Proof.
  induction fuel as [|fuel IH]; intros typeAlias path; simpl;
    destruct (indexOf typeAlias path) as [index|] eqn:Hindex;
    try discriminate.
  - apply indexOf_Some_lt in Hindex.
    rewrite length_app, length_drop. simpl.
    destruct (Nat.eqb (length path - index + 1) 1) eqn:E;
      [apply Nat.eqb_eq in E; lia|discriminate].
  - apply indexOf_Some_lt in Hindex.
    rewrite length_app, length_drop. simpl.
    destruct (Nat.eqb (length path - index + 1) 1) eqn:E;
      [apply Nat.eqb_eq in E; lia|discriminate].
  - destruct (allTypeAliases !! typeAlias) as [[name definition]|]; [|discriminate].
    destruct (mapM _ (listTypeConstants definition)) as [k|e] eqn:Hdeps;
      simpl; [discriminate|].
    intros [= ->]. apply mapM_Res_Throw in Hdeps as (ud & _ & Hud).
    destruct (findIndex _ allTypeAliases) as [dep|]; [|discriminate].
    by apply IH in Hud.
Qed.

(** The path of the search holds distinct declarations, so the search is
    never deeper than the bound it is given. *)
Lemma visit_within_bound (allTypeAliases : list (string * Monotype)) (fuel : nat) :
  forall typeAlias path msg,
    NoDup path -> Forall (fun i => i < length allTypeAliases) path ->
    length allTypeAliases < fuel + length path ->
    visit fuel allTypeAliases typeAlias path <> Throw (RangeError msg).
Proof.
  induction fuel as [|fuel IH]; intros typeAlias path msg Hnodup Hpath Hlen; simpl;
    destruct (indexOf typeAlias path) as [index|] eqn:Hindex;
    try (destruct (Nat.eqb _ 1); discriminate).
  - exfalso. simpl in Hlen.
    assert (length path <= length (seq 0 (length allTypeAliases))).
    { apply submseteq_length, NoDup_submseteq; [done|]. intros x Hx.
      rewrite Forall_forall in Hpath. apply elem_of_seq. specialize (Hpath x Hx). lia. }
    rewrite length_seq in H. lia.
  - destruct (allTypeAliases !! typeAlias) as [[name definition]|] eqn:Hdecl;
      [|discriminate].
    destruct (mapM _ (listTypeConstants definition)) as [k|e] eqn:Hdeps;
      simpl; [discriminate|].
    intros [= ->]. apply mapM_Res_Throw in Hdeps as (ud & _ & Hud).
    destruct (findIndex _ allTypeAliases) as [dep|]; [|discriminate].
    revert Hud. apply IH.
    + apply NoDup_app. split; [done|]. split; [|apply NoDup_singleton].
      intros x Hx Hx'. apply list_elem_of_singleton in Hx' as ->.
      by apply indexOf_None in Hindex.
    + apply Forall_app. split; [done|]. constructor; [|constructor].
      by eapply lookup_lt_Some.
    + rewrite length_app. simpl. lia.
Qed.

Lemma checkCircularTypes_within_bound (allTypeAliases : list (string * Monotype))
    (msg : string) :
  checkCircularTypes allTypeAliases <> Throw (RangeError msg).
Proof.
  unfold checkCircularTypes.
  destruct (mapM _ (seq 0 (length allTypeAliases))) as [k|e] eqn:E;
    simpl; [discriminate|].
  intros [= ->]. apply mapM_Res_Throw in E as (i & _ & Hi).
  revert Hi. apply visit_within_bound; [constructor|constructor|simpl; lia].
Qed.

(** C7: for the single alias [(type A A)] the check reports the circular
    dependency [A -> A]; it does not report that recursive type aliases are
    not allowed, and it does so for no set of aliases. *)
Theorem self_referencing_alias_reported_as_circular :
  checkCircularTypes [("A", TConstant "A")] =
    Throw (Error (circularAliasMessage ["A"; "A"])) /\
  circularAliasMessage ["A"; "A"] <> recursiveAliasMessage /\
  forall allTypeAliases,
    checkCircularTypes allTypeAliases <> Throw (Error recursiveAliasMessage).
Proof.
  split; [vm_compute; reflexivity|]. split; [discriminate|].
  intros allTypeAliases. unfold checkCircularTypes.
  destruct (mapM _ (seq 0 (length allTypeAliases))) as [k|e] eqn:E;
    simpl; [discriminate|].
  intros [= ->]. apply mapM_Res_Throw in E as (i & _ & Hi).
  by apply visit_never_recursive in Hi.
Qed.

(** ** Alias expansion *)

Lemma expandDepth_unfold (d : nat) (env : gmap string Monotype) (t : Monotype) :
  expandDepth d env t =
    match t with
    | TConstant name =>
        match getProperty env name with
        | Some (Own def) =>
            match d with
            | 0 => Throw stackOverflow
            | S d' => expandDepth d' env def
            end
        | Some (Inherited _) => Throw notAType
        | None => Ok t
        end
    | TApplication op args =>
        op' ← expandDepth d env op;
        args' ← mapM (expandDepth d env) args;
        Ok (TApplication op' args')
    | TVar _ _ => Ok t
    | REmpty => Ok t
    | RExtension label labelType extends =>
        labelType' ← expandDepth d env labelType;
        extends' ← expandDepth d env extends;
        Ok (RExtension label labelType' extends')
    end.
Proof. destruct d, t; reflexivity. Qed.

Lemma expandDepth_declared (d : nat) (env : gmap string Monotype)
    (name : string) (def : Monotype) :
  env !! name = Some def ->
  expandDepth d env (TConstant name) =
    match d with 0 => Throw stackOverflow | S d' => expandDepth d' env def end.
Proof.
  intros H. apply getProperty_Own in H. by rewrite expandDepth_unfold, H.
Qed.

Lemma expandDepth_inherited (d : nat) (env : gmap string Monotype)
    (name : string) :
  env !! name = None -> name ∈ objectPrototypeKeys ->
  expandDepth d env (TConstant name) = Throw notAType.
Proof.
  intros H1 H2.
  assert (H : getProperty env name = Some (Inherited name))
    by by apply getProperty_Inherited.
  by rewrite expandDepth_unfold, H.
Qed.

Lemma expandDepth_opaque (d : nat) (env : gmap string Monotype)
    (name : string) :
  env !! name = None -> name ∉ objectPrototypeKeys ->
  expandDepth d env (TConstant name) = Ok (TConstant name).
Proof.
  intros H1 H2.
  assert (H : getProperty env name = None) by by apply getProperty_None.
  by rewrite expandDepth_unfold, H.
Qed.

(** The three cases of a constant. *)
Lemma constant_cases (env : gmap string Monotype) (name : string) :
  (exists def, env !! name = Some def) \/
  (env !! name = None /\ name ∈ objectPrototypeKeys) \/
  (env !! name = None /\ name ∉ objectPrototypeKeys).
Proof.
  destruct (env !! name) as [def|]; [eauto|].
  destruct (decide (name ∈ objectPrototypeKeys)); eauto.
Qed.

Lemma inheritedConstants_elem (env : gmap string Monotype) (t : Monotype)
    (c : string) :
  c ∈ inheritedConstants env t <->
  c ∈ listTypeConstants t /\ c ∈ objectPrototypeKeys /\ env !! c = None.
Proof.
  unfold inheritedConstants. by rewrite filter_elem_of, bool_decide_eq_true.
Qed.

Lemma typeResolves_elem (env : gmap string Monotype) (t : Monotype) :
  typeResolves env t <->
  forall c, c ∈ listTypeConstants t -> c ∈ objectPrototypeKeys ->
    is_Some (env !! c).
Proof.
  unfold typeResolves. split.
  - intros H c Hc Hp. destruct (env !! c) eqn:E; [eauto|].
    assert (Hin : c ∈ inheritedConstants env t)
      by by apply inheritedConstants_elem.
    rewrite H in Hin. by apply elem_of_nil in Hin.
  - intros H. destruct (inheritedConstants env t) as [|c l] eqn:E; [done|].
    assert (Hin : c ∈ inheritedConstants env t)
      by (rewrite E; apply list_elem_of_here).
    apply inheritedConstants_elem in Hin as (Hc & Hp & Hnone).
    destruct (H c Hc Hp) as [? ?]. congruence.
Qed.

Lemma Res_bind_Throw {A B} (m : Res A) (f : A -> Res B) (e : Exception) :
  m ≫= f = Throw e -> m = Throw e \/ exists a, m = Ok a /\ f a = Throw e.
Proof. destruct m as [a|e']; simpl; [eauto|]. intros [= ->]. by left. Qed.

Lemma mapM_Res_Forall2 {A B} (f : A -> Res B) (l : list A) (ys : list B) :
  mapM f l = Ok ys <-> Forall2 (fun x y => f x = Ok y) l ys.
Proof.
  revert ys. induction l as [|x l IH]; intros ys.
  - split; [intros [= <-]; constructor|]. by inversion 1.
  - rewrite mapM_Res_cons. split.
    + intros H. apply Res_bind_Ok in H as (y & Hy & H).
      apply Res_bind_Ok in H as (k & Hk & [= <-]).
      constructor; [done|]. by apply IH.
    + inversion 1 as [|? y ? k Hy Hk]; subst. apply IH in Hk.
      by rewrite Hy, Hk.
Qed.

(** A [mapM] that throws has returned for the elements before the one that
    threw. *)
Lemma mapM_Res_Throw_first {A B} (f : A -> Res B) (l : list A) (e : Exception) :
  mapM f l = Throw e ->
  exists before x after ys,
    l = before ++ x :: after /\ mapM f before = Ok ys /\ f x = Throw e.
Proof.
  induction l as [|x l IH]; [discriminate|]. rewrite mapM_Res_cons.
  intros H. apply Res_bind_Throw in H as [H|(y & Hy & H)].
  - by exists [], x, l, [].
  - apply Res_bind_Throw in H as [H|(? & _ & [=])].
    destruct (IH H) as (before & x' & after & ys & -> & Hb & Hx').
    exists (x :: before), x', after, (y :: ys). split; [done|].
    split; [|done]. by rewrite mapM_Res_cons, Hy, Hb.
Qed.

Lemma mapM_Res_app_Throw {A B} (f : A -> Res B) (before after : list A)
    (e : Exception) :
  mapM f before = Throw e -> mapM f (before ++ after) = Throw e.
Proof.
  induction before as [|x l IH]; [discriminate|]. cbn [app].
  rewrite !mapM_Res_cons. destruct (f x) as [y|e']; simpl; [|done].
  destruct (mapM f l) as [k|e'] eqn:E; simpl; [discriminate|].
  intros [= ->]. by rewrite (IH eq_refl).
Qed.

Lemma mapM_Res_app_Throw_at {A B} (f : A -> Res B) (before after : list A)
    (x : A) (ys : list B) (e : Exception) :
  mapM f before = Ok ys -> f x = Throw e ->
  mapM f (before ++ x :: after) = Throw e.
Proof.
  revert ys. induction before as [|z l IH]; intros ys; cbn [app].
  - intros _ Hx. by rewrite mapM_Res_cons, Hx.
  - rewrite !mapM_Res_cons. intros H Hx.
    apply Res_bind_Ok in H as (y & Hy & H).
    apply Res_bind_Ok in H as (k & Hk & _).
    by rewrite Hy, (IH _ Hk Hx).
Qed.

(** What does not depend on the depth of one call does not depend on it in
    a [mapM]. *)
Lemma mapM_Res_stable {A B} (f g : A -> Res B) (l : list A) (bad : Exception) :
  Forall (fun x => forall r, f x = r -> r <> Throw bad -> g x = r) l ->
  forall rs, mapM f l = rs -> rs <> Throw bad -> mapM g l = rs.
Proof.
  induction 1 as [|x l Hx _ IH]; intros rs; [done|].
  rewrite !mapM_Res_cons. destruct (f x) as [y|e] eqn:Hy; simpl.
  - rewrite (Hx _ eq_refl) by done. simpl.
    destruct (mapM f l) as [k|e] eqn:Hk; simpl.
    + rewrite (IH _ eq_refl) by done. done.
    + intros <- Hne. rewrite (IH _ eq_refl); [done|]. intros [= ->]. done.
  - intros <- Hne. rewrite (Hx _ eq_refl); [done|]. intros [= ->]. done.
Qed.

(** A result other than the overflow stays at every greater depth. *)
Lemma expandDepth_stable (env : gmap string Monotype) (d : nat) :
  forall t r, expandDepth d env t = r -> r <> Throw stackOverflow ->
    forall d', d <= d' -> expandDepth d' env t = r.
Proof.
  induction d as [d IHd] using lt_wf_ind.
  induction t as [name|op IHop args IHargs|name us| |label lt IHlt ext IHext];
    intros r H Hr d' Hd'; rewrite expandDepth_unfold in H;
    rewrite expandDepth_unfold.
  - destruct (getProperty env name) as [[def|key]|]; [|done|done].
    destruct d as [|d]; [congruence|]. destruct d' as [|d']; [lia|].
    eapply IHd; [| exact H | exact Hr |]; lia.
  - destruct (expandDepth d env op) as [op'|e] eqn:Hop; simpl in H.
    + rewrite (IHop _ eq_refl) by done. simpl.
      apply list_all_Forall in IHargs.
      assert (Hstable : forall rs, mapM (expandDepth d env) args = rs ->
        rs <> Throw stackOverflow -> mapM (expandDepth d' env) args = rs).
      { apply mapM_Res_stable. eapply Forall_impl; [exact IHargs|].
        intros x Hx rx Hrx Hne. by eapply Hx. }
      destruct (mapM (expandDepth d env) args) as [args'|e] eqn:Hargs;
        simpl in H.
      * by rewrite (Hstable _ eq_refl).
      * subst r. rewrite (Hstable _ eq_refl); [done|]. intros [= ->]. done.
    + subst r. rewrite (IHop _ eq_refl); [done| |done]. intros [= ->]. done.
  - done.
  - done.
  - destruct (expandDepth d env lt) as [lt'|e] eqn:Hlt; simpl in H.
    + rewrite (IHlt _ eq_refl) by done. simpl.
      destruct (expandDepth d env ext) as [ext'|e] eqn:Hext; simpl in H.
      * by rewrite (IHext _ eq_refl).
      * subst r. rewrite (IHext _ eq_refl); [done| |done]. intros [= ->]. done.
    + subst r. rewrite (IHlt _ eq_refl); [done| |done]. intros [= ->]. done.
Qed.

(** What returns at one depth returns the same or overflows at any other. *)
Lemma expandDepth_Ok_cases (env : gmap string Monotype) (d d' : nat)
    (t t' : Monotype) :
  expandDepth d env t = Ok t' ->
  expandDepth d' env t = Ok t' \/ expandDepth d' env t = Throw stackOverflow.
Proof.
  intros H. destruct (le_lt_dec d d') as [Hle|Hlt].
  - left. by eapply expandDepth_stable.
  - destruct (expandDepth d' env t) as [x|e] eqn:E.
    + left. rewrite <- H. symmetry.
      eapply expandDepth_stable; [exact E|done|lia].
    + destruct (decide (e = stackOverflow)) as [->|Hne]; [by right|].
      rewrite (expandDepth_stable _ _ _ _ E) in H; [done| |lia]. congruence.
Qed.

Lemma mapM_expandDepth_Ok_cases (env : gmap string Monotype) (d d' : nat)
    (l l' : list Monotype) :
  mapM (expandDepth d env) l = Ok l' ->
  mapM (expandDepth d' env) l = Ok l' \/
  mapM (expandDepth d' env) l = Throw stackOverflow.
Proof.
  revert l'. induction l as [|x l IH]; intros l' H; [by left|].
  rewrite mapM_Res_cons in H. apply Res_bind_Ok in H as (y & Hy & H).
  apply Res_bind_Ok in H as (k & Hk & [= <-]).
  rewrite mapM_Res_cons.
  destruct (expandDepth_Ok_cases _ _ d' _ _ Hy) as [-> | ->]; [|by right].
  destruct (IH _ Hk) as [-> | ->]; [by left|by right].
Qed.

(** ** The order of the expansion *)

Lemma Visits_constants (env : gmap string Monotype) (d : nat) (t : Monotype)
    (c : string) :
  Visits env d t c -> c ∈ listTypeConstants t.
Proof.
  induction 1 as [c|op args c _ IH|op op' before before' x after c _ _ _ IH
                  |label lt ext c _ IH|label lt lt' ext c _ _ IH]; simpl.
  - apply list_elem_of_here.
  - apply elem_of_app. by left.
  - apply elem_of_app. right. rewrite flat_map_app. apply elem_of_app. right.
    simpl. apply elem_of_app. by left.
  - apply elem_of_app. by left.
  - apply elem_of_app. by right.
Qed.

(** An expansion that throws has come to a constant whose expansion
    throws. *)
Lemma expandDepth_Throw_Visits (env : gmap string Monotype) (d : nat) :
  forall t e, expandDepth d env t = Throw e ->
    exists c, Visits env d t c /\ expandDepth d env (TConstant c) = Throw e.
Proof.
  induction t as [name|op IHop args IHargs|name us| |label lt IHlt ext IHext];
    intros e H.
  - exists name. split; [constructor|done].
  - rewrite expandDepth_unfold in H.
    apply Res_bind_Throw in H as [H|(op' & Hop & H)].
    + destruct (IHop _ H) as (c & Hc & He). exists c.
      split; [by constructor|done].
    + apply Res_bind_Throw in H as [H|(? & _ & [=])].
      apply mapM_Res_Throw_first in H
        as (before & x & after & ys & -> & Hbefore & Hx).
      apply list_all_Forall in IHargs.
      apply Forall_app in IHargs as [_ IHargs].
      apply Forall_cons in IHargs as [IHx _].
      destruct (IHx _ Hx) as (c & Hc & He). exists c.
      split; [by econstructor|done].
  - by rewrite expandDepth_unfold in H.
  - by rewrite expandDepth_unfold in H.
  - rewrite expandDepth_unfold in H.
    apply Res_bind_Throw in H as [H|(lt' & Hlt & H)].
    + destruct (IHlt _ H) as (c & Hc & He). exists c.
      split; [by constructor|done].
    + apply Res_bind_Throw in H as [H|(? & _ & [=])].
      destruct (IHext _ H) as (c & Hc & He). exists c.
      split; [by econstructor|done].
Qed.

(** When the constant an expansion comes to overflows at a depth, so does
    the expansion, whatever the depth at which it came to the constant. *)
Lemma Visits_overflow (env : gmap string Monotype) (d : nat) (t : Monotype)
    (c : string) :
  Visits env d t c ->
  forall d', expandDepth d' env (TConstant c) = Throw stackOverflow ->
    expandDepth d' env t = Throw stackOverflow.
Proof.
  induction 1 as [c|op args c _ IH|op op' before before' x after c Hop Hbefore _ IH
                  |label lt ext c _ IH|label lt lt' ext c Hlt _ IH];
    intros d' Hc; [done|rewrite expandDepth_unfold..].
  - by rewrite (IH _ Hc).
  - destruct (expandDepth_Ok_cases _ _ d' _ _ Hop) as [-> | ->]; [|done].
    simpl.
    destruct (mapM_expandDepth_Ok_cases _ _ d' _ _ Hbefore) as [Hb|Hb].
    + by rewrite (mapM_Res_app_Throw_at _ _ _ _ _ _ Hb (IH _ Hc)).
    + by rewrite (mapM_Res_app_Throw _ _ _ _ Hb).
  - by rewrite (IH _ Hc).
  - destruct (expandDepth_Ok_cases _ _ d' _ _ Hlt) as [-> | ->]; [|done].
    simpl. by rewrite (IH _ Hc).
Qed.

Lemma calls_refersTo (env : gmap string Monotype) (a b : string) :
  calls env a b -> refersTo env a b.
Proof.
  intros (def & d & Hdef & Hv & Hb). exists def.
  split; [done|]. split; [by eapply Visits_constants|done].
Qed.

Lemma tc_subrel {A} (R1 R2 : relation A) (x y : A) :
  (forall a b, R1 a b -> R2 a b) -> tc R1 x y -> tc R2 x y.
Proof.
  intros H. induction 1 as [x y Hxy|x y z Hxy _ IH].
  - apply tc_once. by apply H.
  - eapply tc_l; [by apply H|done].
Qed.

Lemma chain_reach {A} (R : relation A) (a : A) (l : list A) (b : A) :
  chain R (a :: l) -> b ∈ l -> tc R a b.
Proof.
  revert a. induction l as [|c l IH]; intros a Hc Hb.
  - by apply elem_of_nil in Hb.
  - inversion Hc as [|? ? ? Hr Hc']; subst.
    apply elem_of_cons in Hb as [->|Hb]; [by apply tc_once|].
    eapply tc_l; [exact Hr|]. by apply IH.
Qed.

(** A chain with a repetition passes through an element on a cycle. *)
Lemma chain_repetition {A} `{EqDecision A} (R : relation A) (l : list A) :
  chain R l -> ~ NoDup l -> exists b, b ∈ l /\ tc R b b.
Proof.
  induction l as [|a l IH]; intros Hc Hdup; [destruct Hdup; constructor|].
  destruct (decide (a ∈ l)) as [Ha|Ha].
  - exists a. split; [apply list_elem_of_here|]. by eapply chain_reach.
  - destruct l as [|b l]; [destruct Hdup; apply NoDup_singleton|].
    inversion Hc as [|? ? ? _ Hc']; subst.
    destruct (IH Hc') as (c & Hin & Hcycle).
    + intros Hnodup. apply Hdup. by constructor.
    + exists c. split; [by apply list_elem_of_further|done].
Qed.

Lemma declared_NoDup_length (env : gmap string Monotype) (l : list string) :
  Forall (fun x => is_Some (env !! x)) l -> NoDup l -> length l <= size env.
Proof.
  intros Hl Hnodup.
  rewrite <- (size_dom (D := gset string)). unfold size, set_size. simpl.
  apply submseteq_length, NoDup_submseteq; [done|].
  intros x Hx. apply elem_of_elements, elem_of_dom.
  rewrite Forall_forall in Hl. by apply Hl.
Qed.

Lemma chain_calls_declared (env : gmap string Monotype) (l : list string) :
  chain (calls env) l ->
  (forall a, head l = Some a -> is_Some (env !! a)) ->
  Forall (fun x => is_Some (env !! x)) l.
Proof.
  induction 1 as [a|a b l Hab _ IH]; intros Hhead.
  - constructor; [by apply Hhead|constructor].
  - constructor; [by apply Hhead|]. apply IH. intros ? [= <-].
    by destruct Hab as (? & ? & _ & _ & ?).
Qed.

(** An expansion that overflows at depth [d] has come through a chain of
    [d] calls. *)
Lemma expandDepth_overflow_chain (env : gmap string Monotype) (d : nat) :
  forall t, expandDepth d env t = Throw stackOverflow ->
    exists c l,
      Visits env d t c /\ is_Some (env !! c) /\
      chain (calls env) (c :: l) /\ length l = d.
Proof.
  induction d as [|d IHd]; intros t H;
    apply expandDepth_Throw_Visits in H as (c & Hv & H);
    destruct (constant_cases env c) as [[def Hdef]|[[Hn Hp]|[Hn Hp]]];
    try (rewrite expandDepth_inherited in H by done; discriminate);
    try (rewrite expandDepth_opaque in H by done; discriminate);
    rewrite (expandDepth_declared _ _ _ _ Hdef) in H.
  - exists c, []. split; [done|]. split; [eauto|]. split; [constructor|done].
  - destruct (IHd _ H) as (c' & l & Hv' & Hc' & Hchain & Hlen).
    exists c, (c' :: l). split; [done|]. split; [eauto|].
    split; [|simpl; by rewrite Hlen]. constructor; [|done].
    by exists def, d.
Qed.

Lemma tc_cycle_step {A} (R : relation A) (a : A) :
  tc R a a -> exists b, R a b /\ tc R b b.
Proof.
  inversion 1 as [? ? Hr|? b ? Hr Hba]; subst.
  - exists a. split; [done|by apply tc_once].
  - exists b. split; [done|]. by eapply tc_r.
Qed.

(** An alias whose expansion comes back to it overflows at every depth, and
    so does every alias whose expansion comes to it. *)
Lemma calls_cycle_overflow (env : gmap string Monotype) (d : nat) :
  forall c, tc (calls env) c c ->
    expandDepth d env (TConstant c) = Throw stackOverflow.
Proof.
  induction d as [|d IHd]; intros c Hcycle;
    destruct (tc_cycle_step _ _ Hcycle)
      as (b & (def & d0 & Hdef & Hv & _) & Hb);
    rewrite (expandDepth_declared _ _ _ _ Hdef); [done|].
  eapply Visits_overflow; [exact Hv|]. by apply IHd.
Qed.

Lemma calls_reach_overflow (env : gmap string Monotype) (a c : string) :
  rtc (calls env) a c ->
  (forall d, expandDepth d env (TConstant c) = Throw stackOverflow) ->
  forall d, expandDepth d env (TConstant a) = Throw stackOverflow.
Proof.
  induction 1 as [a|a b c (def & d0 & Hdef & Hv & _) _ IH]; [done|].
  intros Hc [|d]; rewrite (expandDepth_declared _ _ _ _ Hdef); [done|].
  eapply Visits_overflow; [exact Hv|]. by apply IH.
Qed.

(** An expansion that overflows at the number of declared aliases has come
    to an alias from which the calls lead into a cycle. *)
Lemma expandDepth_overflow_cycle (env : gmap string Monotype) (t : Monotype) :
  expandDepth (size env) env t = Throw stackOverflow ->
  exists d c b,
    Visits env d t c /\ is_Some (env !! c) /\
    rtc (calls env) c b /\ tc (calls env) b b.
Proof.
  intros H. apply expandDepth_overflow_chain in H
    as (c & l & Hv & Hc & Hchain & Hlen).
  assert (Hdup : ~ NoDup (c :: l)).
  { intros Hnodup. apply declared_NoDup_length with (env := env) in Hnodup.
    - simpl in Hnodup. lia.
    - apply chain_calls_declared; [done|]. by intros ? [= <-]. }
  destruct (chain_repetition _ _ Hchain Hdup) as (b & Hb & Hcycle).
  exists (size env), c, b. split; [done|]. split; [done|]. split; [|done].
  apply elem_of_cons in Hb as [->|Hb]; [done|].
  apply tc_rtc. by eapply chain_reach.
Qed.

(** The bound of [expandTypeAliases] is exact: an expansion that overflows
    at it overflows at every depth. *)
Lemma expandDepth_diverges (env : gmap string Monotype) (t : Monotype) :
  expandDepth (size env) env t = Throw stackOverflow ->
  forall d, expandDepth d env t = Throw stackOverflow.
Proof.
  intros H d.
  apply expandDepth_overflow_cycle in H as (d0 & c & b & Hv & _ & Hcb & Hb).
  eapply Visits_overflow; [exact Hv|].
  apply (calls_reach_overflow _ _ _ Hcb). intros d'.
  by apply calls_cycle_overflow.
Qed.

(** No depth beyond the number of declared aliases changes the result. *)
Lemma expandDepth_exact (env : gmap string Monotype) (t : Monotype) (d : nat) :
  size env <= d -> expandDepth d env t = expandTypeAliases t env.
Proof.
  intros Hd. unfold expandTypeAliases.
  destruct (expandDepth (size env) env t) as [x|e] eqn:E.
  - by eapply expandDepth_stable.
  - destruct (decide (e = stackOverflow)) as [->|Hne].
    + by apply expandDepth_diverges.
    + eapply expandDepth_stable; [exact E|congruence|done].
Qed.

(** ** What the expansion returns *)

(** A result is the expansion the specification describes, and mentions
    neither a declared alias nor a member of [Object.prototype]. *)
Lemma expandDepth_ExpandsTo (env : gmap string Monotype) (d : nat) :
  forall t t', expandDepth d env t = Ok t' ->
    ExpandsTo env t t' /\
    (forall c, c ∈ listTypeConstants t' ->
       env !! c = None /\ c ∉ objectPrototypeKeys).
Proof.
  induction d as [d IHd] using lt_wf_ind.
  induction t as [name|op IHop args IHargs|name us| |label lt IHlt ext IHext];
    intros t' H.
  - destruct (constant_cases env name) as [[def Hdef]|[[Hn Hp]|[Hn Hp]]].
    + rewrite (expandDepth_declared _ _ _ _ Hdef) in H.
      destruct d as [|d]; [discriminate|].
      destruct (IHd d (Nat.lt_succ_diag_r d) _ _ H) as [He Hc].
      split; [by econstructor|done].
    + rewrite expandDepth_inherited in H by done. discriminate.
    + rewrite expandDepth_opaque in H by done. injection H as <-.
      split; [by constructor|].
      intros c Hc. by apply list_elem_of_singleton in Hc as ->.
  - rewrite expandDepth_unfold in H.
    apply Res_bind_Ok in H as (op' & Hop & H).
    apply Res_bind_Ok in H as (args' & Hargs & [= <-]).
    destruct (IHop _ Hop) as [Heop Hcop].
    apply mapM_Res_Forall2 in Hargs. apply list_all_Forall in IHargs.
    assert (Hall : Forall2 (ExpandsTo env) args args' /\
      forall c, c ∈ flat_map listTypeConstants args' ->
        env !! c = None /\ c ∉ objectPrototypeKeys).
    { induction Hargs as [|x y l k Hxy _ IH].
      - split; [constructor|]. intros c Hc. by apply elem_of_nil in Hc.
      - apply Forall_cons in IHargs as [Hx Hl].
        destruct (Hx _ Hxy) as [Hex Hcx]. destruct (IH Hl) as [Hel Hcl].
        split; [by constructor|]. simpl. intros c Hc.
        apply elem_of_app in Hc as [Hc|Hc]; auto. }
    destruct Hall as [Heargs Hcargs]. split; [by constructor|].
    simpl. intros c Hc. apply elem_of_app in Hc as [Hc|Hc]; auto.
  - rewrite expandDepth_unfold in H. injection H as <-.
    split; [constructor|]. intros c Hc. by apply elem_of_nil in Hc.
  - rewrite expandDepth_unfold in H. injection H as <-.
    split; [constructor|]. intros c Hc. by apply elem_of_nil in Hc.
  - rewrite expandDepth_unfold in H.
    apply Res_bind_Ok in H as (lt' & Hlt & H).
    apply Res_bind_Ok in H as (ext' & Hext & [= <-]).
    destruct (IHlt _ Hlt) as [Helt Hclt]. destruct (IHext _ Hext) as [Heext Hcext].
    split; [by constructor|]. simpl. intros c Hc.
    apply elem_of_app in Hc as [Hc|Hc]; auto.
Qed.

(** When an expansion returns, the expansion of every constant of the type
    returns. *)
Lemma expandDepth_constants (d : nat) (env : gmap string Monotype) :
  forall t t', expandDepth d env t = Ok t' ->
    forall c, c ∈ listTypeConstants t ->
      exists tc, expandDepth d env (TConstant c) = Ok tc.
Proof.
  induction t as [name|op IHop args IHargs|name us| |label lt IHlt ext IHext];
    intros t' H c Hc; simpl in Hc.
  - apply list_elem_of_singleton in Hc as ->. eauto.
  - rewrite expandDepth_unfold in H.
    apply Res_bind_Ok in H as (op' & Hop & H).
    apply Res_bind_Ok in H as (args' & Hargs & _).
    apply elem_of_app in Hc as [Hc|Hc]; [by eapply IHop|].
    apply list_elem_of_In, in_flat_map in Hc as (x & Hx & Hc).
    apply list_elem_of_In in Hx, Hc.
    apply list_all_Forall in IHargs. rewrite Forall_forall in IHargs.
    apply mapM_Res_Forall2 in Hargs.
    apply list_elem_of_lookup in Hx as [k Hk].
    destruct (Forall2_lookup_l _ _ _ _ _ Hargs Hk) as (y & _ & Hy).
    eapply IHargs; [by eapply list_elem_of_lookup_2|exact Hy|exact Hc].
  - by apply elem_of_nil in Hc.
  - by apply elem_of_nil in Hc.
  - rewrite expandDepth_unfold in H.
    apply Res_bind_Ok in H as (lt' & Hlt & H).
    apply Res_bind_Ok in H as (ext' & Hext & _).
    apply elem_of_app in Hc as [Hc|Hc]; [by eapply IHlt|by eapply IHext].
Qed.

(** The expansion of an alias on a cycle of references returns at no
    depth, and neither does that of an alias that leads to one. *)
Lemma expandDepth_cycle (env : gmap string Monotype) (d : nat) :
  forall a t', tc (refersTo env) a a ->
    expandDepth d env (TConstant a) <> Ok t'.
Proof.
  induction d as [|d IHd]; intros a t' Hcycle H;
    destruct (tc_cycle_step _ _ Hcycle) as (b & (def & Hdef & Hb & _) & Hcycleb);
    rewrite (expandDepth_declared _ _ _ _ Hdef) in H; [discriminate|].
  destruct (expandDepth_constants _ _ _ _ H _ Hb) as [tb Htb].
  by eapply IHd.
Qed.

Lemma expandDepth_reach (env : gmap string Monotype) (a b : string) :
  rtc (refersTo env) a b ->
  forall d ta, expandDepth d env (TConstant a) = Ok ta ->
    exists d' tb, expandDepth d' env (TConstant b) = Ok tb.
Proof.
  induction 1 as [a|a c b (def & Hdef & Hc & _) _ IH]; intros d ta H; [eauto|].
  rewrite (expandDepth_declared _ _ _ _ Hdef) in H.
  destruct d as [|d]; [discriminate|].
  destruct (expandDepth_constants _ _ _ _ H _ Hc) as [tc Htc]. by eapply IH.
Qed.

Lemma expandDepth_Ok_reaches (env : gmap string Monotype) (d : nat)
    (t t' : Monotype) :
  expandDepth d env t = Ok t' ->
  ~ reachesCycle env t /\ ~ reachesInherited env t.
Proof.
  intros H.
  assert (Hreach : forall b, reachesAlias env t b ->
    exists d' tb, expandDepth d' env (TConstant b) = Ok tb).
  { intros b (a & Ha & _ & Hab).
    destruct (expandDepth_constants _ _ _ _ H _ Ha) as [ta Hta].
    by eapply expandDepth_reach. }
  split.
  - intros (b & Hb & Hcycle). destruct (Hreach _ Hb) as (d' & tb & Htb).
    by eapply expandDepth_cycle.
  - intros (c & [Hc|(b & def & Hb & Hdef & Hc)]);
      apply inheritedConstants_elem in Hc as (Hc & Hp & Hn).
    + destruct (expandDepth_constants _ _ _ _ H _ Hc) as [tc Htc].
      rewrite expandDepth_inherited in Htc by done. discriminate.
    + destruct (Hreach _ Hb) as (d' & tb & Htb).
      rewrite (expandDepth_declared _ _ _ _ Hdef) in Htb.
      destruct d' as [|d']; [discriminate|].
      destruct (expandDepth_constants _ _ _ _ Htb _ Hc) as [tc Htc].
      rewrite expandDepth_inherited in Htc by done. discriminate.
Qed.

Lemma reachesAlias_declared (env : gmap string Monotype) (name : string)
    (def : Monotype) (b : string) :
  env !! name = Some def -> reachesAlias env def b ->
  reachesAlias env (TConstant name) b.
Proof.
  intros Hdef (a & Ha & Hsome & Hab). exists name.
  split; [apply list_elem_of_here|]. split; [eauto|].
  eapply rtc_l; [|exact Hab]. by exists def.
Qed.

Lemma reachesAlias_Visits (env : gmap string Monotype) (d : nat)
    (t : Monotype) (c b : string) :
  Visits env d t c -> reachesAlias env (TConstant c) b -> reachesAlias env t b.
Proof.
  intros Hv (a & Ha & Hsome & Hab).
  apply list_elem_of_singleton in Ha as ->. exists c.
  split; [by eapply Visits_constants|done].
Qed.

(** An expansion that throws throws one of two exceptions: the overflow,
    and then at the bound the type leads to a cycle; or the read of a
    member of [Object.prototype], and then the type leads to one. *)
Lemma expandDepth_Throw (env : gmap string Monotype) (d : nat) :
  forall t e, expandDepth d env t = Throw e ->
    e = stackOverflow \/ (e = notAType /\ reachesInherited env t).
Proof.
  induction d as [|d IHd]; intros t e H;
    apply expandDepth_Throw_Visits in H as (c & Hv & H);
    destruct (constant_cases env c) as [[def Hdef]|[[Hn Hp]|[Hn Hp]]];
    try (rewrite expandDepth_opaque in H by done; discriminate);
    try (rewrite expandDepth_inherited in H by done; injection H as <-;
         right; split; [done|]; exists c; left;
         apply inheritedConstants_elem; split; [by eapply Visits_constants|done]);
    rewrite (expandDepth_declared _ _ _ _ Hdef) in H.
  - injection H as <-. by left.
  - destruct (IHd _ _ H) as [->|[-> (c' & Hc')]]; [by left|].
    right. split; [done|]. exists c'. right.
    destruct Hc' as [Hc'|(b & defb & Hb & Hdefb & Hc')].
    + exists c, def. split; [|done]. eapply reachesAlias_Visits; [exact Hv|].
      exists c. split; [apply list_elem_of_here|]. split; [eauto|done].
    + exists b, defb. split; [|done]. eapply reachesAlias_Visits; [exact Hv|].
      by eapply reachesAlias_declared.
Qed.

Lemma expandTypeAliases_overflow (env : gmap string Monotype) (t : Monotype) :
  expandTypeAliases t env = Throw stackOverflow -> reachesCycle env t.
Proof.
  intros H. apply expandDepth_overflow_cycle in H
    as (d & c & b & Hv & Hc & Hcb & Hb).
  exists b. split.
  - exists c. split; [by eapply Visits_constants|]. split; [done|].
    eapply rtc_subrel; [apply calls_refersTo|done].
  - eapply tc_subrel; [apply calls_refersTo|done].
Qed.

(** When the expansion returns and when it throws. *)
Lemma expandTypeAliases_cases (env : gmap string Monotype) (t : Monotype) :
  ((exists t', expandTypeAliases t env = Ok t') <->
     ~ reachesCycle env t /\ ~ reachesInherited env t) /\
  (forall e, expandTypeAliases t env = Throw e ->
     (e = stackOverflow /\ reachesCycle env t) \/
     (e = notAType /\ reachesInherited env t)).
Proof.
  assert (Hthrow : forall e, expandTypeAliases t env = Throw e ->
     (e = stackOverflow /\ reachesCycle env t) \/
     (e = notAType /\ reachesInherited env t)).
  { intros e H. destruct (expandDepth_Throw _ _ _ _ H) as [->|?]; [|by right].
    left. split; [done|]. by apply expandTypeAliases_overflow. }
  split; [|done]. split.
  - intros [t' H]. by eapply expandDepth_Ok_reaches.
  - intros [Hc Hi]. destruct (expandTypeAliases t env) as [t'|e] eqn:E; [eauto|].
    destruct (Hthrow _ eq_refl) as [[_ ?]|[_ ?]]; done.
Qed.

Lemma acyclic_reachesCycle (env : gmap string Monotype) (t : Monotype) :
  aliasesAcyclic env -> ~ reachesCycle env t.
Proof. intros H (b & _ & Hb). by apply (H b). Qed.

Lemma resolves_reachesInherited (env : gmap string Monotype) (t : Monotype) :
  aliasesResolve env -> typeResolves env t -> ~ reachesInherited env t.
Proof.
  intros Henv Ht (c & [Hc|(b & def & _ & Hdef & Hc)]).
  - unfold typeResolves in Ht. rewrite Ht in Hc. by apply elem_of_nil in Hc.
  - specialize (Henv _ _ Hdef). unfold typeResolves in Henv. simpl in Henv.
    rewrite Henv in Hc. by apply elem_of_nil in Hc.
Qed.

(** Over acyclic aliases whose definitions mention no constant that is
    read from [Object.prototype], the expansion of a type that mentions
    none returns. *)
Lemma expandTypeAliases_resolved (env : gmap string Monotype) (t : Monotype) :
  aliasesAcyclic env -> aliasesResolve env -> typeResolves env t ->
  exists t', expandTypeAliases t env = Ok t'.
Proof.
  intros Hacyclic Henv Ht. apply expandTypeAliases_cases.
  split; [by apply acyclic_reachesCycle|by apply resolves_reachesInherited].
Qed.

Lemma isOk_true {A} (r : Res A) : isOk r = true <-> exists a, r = Ok a.
Proof.
  destruct r as [a|e]; simpl; split;
    [eauto|done|discriminate|intros [? [=]]].
Qed.

Lemma aliasesAcyclicb_sound (env : gmap string Monotype) :
  aliasesAcyclicb env = true -> aliasesAcyclic env.
Proof.
  intros H a Hcycle. apply bool_decide_eq_true in H.
  destruct (tc_cycle_step _ _ Hcycle) as (b & (def & Hdef & Hb & _) & Hcycleb).
  specialize (H _ _ Hdef). simpl in H.
  apply Is_true_true, isOk_true in H as [t' Ht'].
  destruct (expandDepth_constants _ _ _ _ Ht' _ Hb) as [tb Htb].
  by eapply expandDepth_cycle.
Qed.


(** C8: the environment without aliases is acyclic and declares nothing,
    yet the expansion of the constant [constructor] throws instead of
    returning the constant: the lookup finds the member of
    [Object.prototype] and the expansion re-enters on it. The same happens
    below other types and in environments that declare aliases. In
    general the expansion of a constant the environment does not declare
    returns the constant exactly when its name is not that of such a
    member. *)
Theorem expandTypeAliases_inherited_constant_throws :
  aliasesAcyclic ∅ /\
  expandTypeAliases (TConstant "constructor") ∅ = Throw notAType /\
  (let env : gmap string Monotype :=
     <["Person" := tRecord [("id", TConstant "ID")] emptyRow]>
       {["ID" := tNumber]} in
   aliasesAcyclic env /\ env !! "toString" = None /\
   expandTypeAliases (tVector (TConstant "toString")) env = Throw notAType) /\
  (forall (env : gmap string Monotype) (name : string),
     expandTypeAliases (TConstant name) (delete name env) =
       if bool_decide (name ∈ objectPrototypeKeys) then Throw notAType
       else Ok (TConstant name)).
Proof.
  split; [apply aliasesAcyclicb_sound; by vm_compute|].
  split; [by vm_compute|]. split.
  - split; [apply aliasesAcyclicb_sound; by vm_compute|].
    split; by vm_compute.
  - intros env name. unfold expandTypeAliases. case_bool_decide as E.
    + apply expandDepth_inherited; [apply lookup_delete_eq|done].
    + apply expandDepth_opaque; [apply lookup_delete_eq|done].
Qed.

(** ** The generator returns *)

(** Induction on expressions, the components of a node given by [Forall]. *)
Lemma Expression_Forall_ind {I} (P : Expression I -> Prop) :
  (forall i, P (EUnknown i)) ->
  (forall v i, P (ENumber v i)) ->
  (forall v i, P (EString v i)) ->
  (forall values i, Forall P values -> P (EVector values i)) ->
  (forall fields extends i,
     Forall (fun f => P f.2) fields -> from_option P True extends ->
     P (ERecord fields extends i)) ->
  (forall name i, P (EVariableReference name i)) ->
  (forall c t e i, P c -> P t -> P e -> P (EConditional c t e i)) ->
  (forall args body i, Forall P body -> P (EFunction args body i)) ->
  (forall fn args i, P fn -> Forall P args -> P (EFunctionCall fn args i)) ->
  (forall bindings body i,
     Forall (fun b => P b.2) bindings -> Forall P body ->
     P (ELetBindings bindings body i)) ->
  (forall t value i, P value -> P (ETypeAnnotation t value i)) ->
  (forall body returning i,
     Forall P body -> P returning -> P (EDoBlock body returning i)) ->
  (forall value cases i,
     P value -> Forall (fun c => Forall P c.2) cases ->
     P (EMatch value cases i)) ->
  forall e, P e.
Proof.
  intros H1 H2 H3 H4 H5 H6 H7 H8 H9 H10 H11 H12 H13.
  assert (Hpairs : forall (A : Type) (l : list (A * Expression I)),
    list_all _ (prod_all A (fun _ => unit) (Expression I) P) l ->
    Forall (fun f => P f.2) l).
  { intros A l. induction 1 as [|x Hx l _ IH]; constructor; [|done].
    by destruct Hx. }
  induction e as [| | |values Hvalues ?|fields Hfields ext Hext ?| | |? body Hbody ?
                  |? ? args Hargs ?|bindings Hbindings body Hbody ?|
                  |body Hbody ? ? ?|? ? cases Hcases ?];
    eauto using list_all_Forall.
  - apply H5; [by apply Hpairs|]. by destruct Hext.
  - apply H13; [assumption|].
    induction Hcases as [|x Hx l _ IH]; constructor; [|assumption].
    destruct Hx. by apply list_all_Forall.
Qed.

Lemma returnsWith_ret {A} (P : A -> Prop) (a : A) :
  P a -> returnsWith P (mret a).
Proof. intros H n. by exists a, n. Qed.

Lemma returnsWith_bind {A B} (P : A -> Prop) (Q : B -> Prop)
    (m : Gen A) (f : A -> Gen B) :
  returnsWith P m -> (forall a, P a -> returnsWith Q (f a)) ->
  returnsWith Q (m ≫= f).
Proof.
  intros Hm Hf n. destruct (Hm n) as (a & n1 & Ha & HP).
  destruct (Hf a HP n1) as (b & n2 & Hb & HQ).
  exists b, n2. by rewrite Gen_bind_unfold, Ha.
Qed.

Lemma returnsWith_weaken {A} (P Q : A -> Prop) (m : Gen A) :
  (forall a, P a -> Q a) -> returnsWith P m -> returnsWith Q m.
Proof.
  intros HPQ Hm n. destruct (Hm n) as (a & n' & Ha & HP). exists a, n'. auto.
Qed.

Lemma returnsWith_generate : returnsWith (fun _ => True) generateUniqueTVar.
Proof. intros n. by eexists _, _. Qed.

Lemma returnsWith_liftRes {A} (P : A -> Prop) (a : A) :
  P a -> returnsWith P (liftRes (Ok a)).
Proof. intros H n. by exists a, n. Qed.

Lemma returnsWith_mapM {A B} (Q : A -> B -> Prop) (f : A -> Gen B) (l : list A) :
  Forall (fun x => returnsWith (Q x) (f x)) l ->
  returnsWith (fun ys => Forall2 Q l ys) (mapM f l).
Proof.
  induction 1 as [|x l Hx _ IH]; intros n.
  - exists [], n. split; [done|constructor].
  - destruct (Hx n) as (y & n1 & Hy & HQ).
    destruct (IH n1) as (ys & n2 & Hys & HQs).
    exists (y :: ys), n2. rewrite mapM_Gen_cons, Gen_bind_unfold, Hy.
    rewrite Gen_bind_unfold, Hys. split; [done|by constructor].
Qed.

Lemma returnsWith_inferManyWith {A}
    (f : A -> Gen (InferResult (Expression Typed))) (l : list A) :
  Forall (fun x => returnsWith (fun _ => True) (f x)) l ->
  returnsWith (fun r => length (result r) = length l) (inferManyWith f l).
Proof.
  intros H. unfold inferManyWith.
  eapply returnsWith_bind; [by apply (returnsWith_mapM (fun _ _ => True))|].
  intros rs Hrs. apply returnsWith_ret. simpl.
  rewrite length_map. symmetry. by eapply Forall2_length.
Qed.

Lemma lastInfoType_Ok (forms : list (Expression Typed)) :
  forms <> [] -> exists t, lastInfoType forms = Ok t.
Proof.
  intros H. unfold lastInfoType. destruct (last forms) as [f|] eqn:E; [eauto|].
  by apply last_None in E.
Qed.

Lemma forallb_Forall_true {A} (p : A -> bool) (l : list A) :
  forallb p l = true -> Forall (fun x => p x = true) l.
Proof. intros H. apply Forall_forall. intros x Hx.
  rewrite forallb_forall in H. apply H. by apply list_elem_of_In. Qed.

Lemma nonempty_length {A B} (l : list A) (k : list B) :
  length k = length l -> negb (bool_decide (l = [])) = true -> k <> [].
Proof.
  intros Hlen Hl ->. apply negb_true_iff, bool_decide_eq_false in Hl.
  destruct l; [done|discriminate].
Qed.

Ltac returns_fresh :=
  eapply returnsWith_bind; [apply returnsWith_generate | intros ? _].

Ltac returns_done := apply returnsWith_ret; exact I.


(** An instantiation replaces variables by variables: the constants stay. *)
Lemma lookupAssoc_Some {A} (k : string) (l : list (string * A)) (v : A) :
  lookupAssoc k l = Some v -> exists p, p ∈ l /\ p.2 = v.
Proof.
  unfold lookupAssoc. destruct (List.find _ l) as [p|] eqn:E; [|discriminate].
  intros [= <-]. apply find_some in E as [Hin _]. exists p.
  split; [by apply list_elem_of_In|done].
Qed.

Lemma instantiateIn_constants_seen (t : Monotype) :
  forall seen n t' seen' n',
    instantiateIn t seen n = (t', seen', n') ->
    Forall (fun p : string * Monotype => listTypeConstants p.2 = []) seen ->
    listTypeConstants t' = listTypeConstants t /\
    Forall (fun p : string * Monotype => listTypeConstants p.2 = []) seen'.
Proof.
  induction t as [name|op IHop args IHargs|name us| |label lt IHlt ext IHext];
    intros seen n t' seen' n' H Hseen; simpl in H.
  - by injection H as <- <- <-.
  - destruct (instantiateIn op seen n) as [[op' seen1] n1] eqn:Hop.
    destruct (instantiateList instantiateIn args seen1 n1) as [[args' seen2] n2]
      eqn:Hargs.
    injection H as <- <- <-.
    destruct (IHop _ _ _ _ _ Hop Hseen) as (Hop' & Hseen1).
    apply list_all_Forall in IHargs.
    assert (Hlist :
      flat_map listTypeConstants args' = flat_map listTypeConstants args /\
      Forall (fun p : string * Monotype => listTypeConstants p.2 = []) seen2).
    { clear Hop IHop Hop'. revert seen1 n1 args' Hargs Hseen1.
      induction IHargs as [|x l Hx _ IH]; intros seen1 n1 args' Hargs Hseen1;
        simpl in Hargs.
      - by injection Hargs as <- <- <-.
      - destruct (instantiateIn x seen1 n1) as [[x' s1] m1] eqn:Hx1.
        destruct (instantiateList instantiateIn l s1 m1) as [[l' s2] m2] eqn:Hl.
        injection Hargs as <- <- <-.
        destruct (Hx _ _ _ _ _ Hx1 Hseen1) as (Hx' & Hs1).
        destruct (IH _ _ _ Hl Hs1) as (Hl' & Hs2).
        split; [|done]. simpl. by rewrite Hx', Hl'. }
    destruct Hlist as (Hargs' & Hseen2). split; [|done].
    simpl. by rewrite Hop', Hargs'.
  - destruct (isWildcard name).
    + case_bool_decide.
      * by injection H as <- <- <-.
      * destruct (lookupAssoc name seen) as [v|] eqn:E.
        -- injection H as <- <- <-. split; [|done].
           apply lookupAssoc_Some in E as (p & Hp & <-).
           rewrite Forall_forall in Hseen. by apply Hseen.
        -- injection H as <- <- <-. split; [done|]. apply Forall_app.
           split; [done|]. by constructor.
    + by injection H as <- <- <-.
  - by injection H as <- <- <-.
  - destruct (instantiateIn lt seen n) as [[lt' seen1] n1] eqn:Hlt.
    destruct (instantiateIn ext seen1 n1) as [[ext' seen2] n2] eqn:Hext.
    injection H as <- <- <-.
    destruct (IHlt _ _ _ _ _ Hlt Hseen) as (Hlt' & Hseen1).
    destruct (IHext _ _ _ _ _ Hext Hseen1) as (Hext' & Hseen2).
    split; [|done]. simpl. by rewrite Hlt', Hext'.
Qed.

Lemma instantiateIn_constants (t : Monotype) (n : nat) (t' : Monotype)
    (seen' : list (string * Monotype)) (n' : nat) :
  instantiateIn t [] n = (t', seen', n') ->
  listTypeConstants t' = listTypeConstants t.
Proof.
  intros H. by destruct (instantiateIn_constants_seen _ _ _ _ _ _ H).
Qed.

Lemma Forall_flat_map_elem {A B} (Q : B -> Prop) (g : A -> list B)
    (l : list A) (x : A) :
  Forall Q (flat_map g l) -> x ∈ l -> Forall Q (g x).
Proof.
  rewrite !Forall_forall. intros H Hx y Hy. apply H.
  apply list_elem_of_In, in_flat_map. exists x. split; by apply list_elem_of_In.
Qed.

Lemma Forall_returns {A B C} (p : A -> bool) (g : A -> list C) (Q : C -> Prop)
    (P : A -> Prop) (f : A -> Gen B) (l : list A) :
  Forall P l -> forallb p l = true -> Forall Q (flat_map g l) ->
  (forall x, P x -> p x = true -> Forall Q (g x) ->
     returnsWith (fun _ => True) (f x)) ->
  Forall (fun x => returnsWith (fun _ => True) (f x)) l.
Proof.
  intros HP Hp Hq Hf. apply forallb_Forall_true in Hp.
  rewrite Forall_forall in HP, Hp |- *. intros x Hx.
  apply Hf; [by apply HP|by apply Hp|]. by eapply Forall_flat_map_elem.
Qed.

(** When every body of a function, of a [let] and of a case of a [match]
    holds at least one form, the type aliases are acyclic and neither their
    definitions nor the annotations of the expression mention a constant
    that is read from [Object.prototype], the generator returns. *)
Lemma infer_total (internalTypes : gmap string Monotype)
    (expr : Expression unit) (monovars : list string) :
  aliasesAcyclic internalTypes ->
  aliasesResolve internalTypes ->
  nonEmptyBodies expr = true ->
  Forall (typeResolves internalTypes) (annotationTypes expr) ->
  returnsWith (fun _ => True) (infer expr monovars internalTypes).
Proof.
  intros Hacyclic Hresolve Hwf Hq.
  revert monovars Hwf Hq.
  induction expr as
    [i|v i|v i|values i IHvalues|fields ext i IHfields IHext|name i
    |c t e i IHc IHt IHe|args body i IHbody|fn args i IHfn IHargs
    |bindings body i IHbindings IHbody|ty value i IHvalue
    |body returning i IHbody IHreturning|value cases i IHvalue IHcases]
    using Expression_Forall_ind; intros monovars Hwf Hq; simpl in Hwf, Hq;
    rewrite ?andb_true_iff in Hwf; rewrite ?Forall_app in Hq; simpl.
  - returns_fresh. returns_fresh. returns_done.
  - returns_fresh. returns_done.
  - returns_fresh. returns_done.
  - eapply returnsWith_bind.
    { apply returnsWith_inferManyWith.
      eapply Forall_returns; [exact IHvalues|exact Hwf|exact Hq|].
      intros x Hx Hp Hqx. by apply Hx. }
    intros ? _. returns_fresh. returns_fresh. returns_done.
  - destruct Hwf as [Hfields Hext]. destruct Hq as [Hqfields Hqext].
    eapply returnsWith_bind.
    { apply (returnsWith_mapM (fun _ _ => True)).
      eapply Forall_returns; [exact IHfields|exact Hfields|exact Hqfields|].
      intros [label value] Hx Hp Hqx. simpl in *.
      eapply returnsWith_bind; [by apply Hx|]. intros ? _. returns_done. }
    intros inferred _.
    eapply returnsWith_bind with (P := fun _ => True).
    { destruct ext as [tail|]; simpl in *; [|returns_done].
      eapply returnsWith_bind; [by apply IHext|]. intros ? _. returns_done. }
    intros tailInferred _. returns_fresh. returns_fresh.
    eapply returnsWith_bind with (P := fun _ => True).
    { destruct tailInferred as [tail|]; [|returns_done].
      eapply returnsWith_bind.
      { apply (returnsWith_mapM (fun _ _ => True)).
        apply Forall_forall. intros x _. returns_fresh. returns_done. }
      intros ? _. returns_done. }
    intros ? _. returns_done.
  - returns_fresh. returns_fresh. returns_done.
  - destruct Hwf as [[Hc Ht] He]. destruct Hq as (Hqc & Hqt & Hqe).
    eapply returnsWith_bind; [by apply IHc|]. intros ? _.
    eapply returnsWith_bind; [by apply IHt|]. intros ? _.
    eapply returnsWith_bind; [by apply IHe|]. intros ? _.
    returns_fresh. returns_fresh. returns_done.
  - destruct Hwf as [Hne Hbody].
    eapply returnsWith_bind.
    { apply (returnsWith_mapM (fun _ _ => True)).
      apply Forall_forall. intros x _. apply returnsWith_generate. }
    intros argtypes _.
    eapply returnsWith_bind.
    { apply returnsWith_inferManyWith.
      eapply Forall_returns; [exact IHbody|exact Hbody|exact Hq|].
      intros x Hx Hp Hqx. by apply Hx. }
    intros bodyInference Hlen. returns_fresh.
    destruct (lastInfoType_Ok (result bodyInference)) as [out Hout];
      [exact (nonempty_length _ _ Hlen Hne)|].
    rewrite Hout.
    eapply returnsWith_bind; [by apply (returnsWith_liftRes (fun _ => True))|].
    intros ? _. returns_fresh. returns_done.
  - destruct Hwf as [Hfn Hargs]. destruct Hq as [Hqfn Hqargs].
    eapply returnsWith_bind; [by apply IHfn|]. intros ? _.
    eapply returnsWith_bind.
    { apply returnsWith_inferManyWith.
      eapply Forall_returns; [exact IHargs|exact Hargs|exact Hqargs|].
      intros x Hx Hp Hqx. by apply Hx. }
    intros ? _. returns_fresh. returns_fresh. returns_done.
  - destruct Hwf as [[Hbindings Hne] Hbody]. destruct Hq as [Hqbindings Hqbody].
    eapply returnsWith_bind.
    { apply (returnsWith_mapM (fun _ _ => True)).
      eapply Forall_returns; [exact IHbindings|exact Hbindings|exact Hqbindings|].
      intros [variable value] Hx Hp Hqx. simpl in *.
      eapply returnsWith_bind; [by apply Hx|]. intros ? _. returns_done. }
    intros bindingsInfo _.
    eapply returnsWith_bind.
    { apply returnsWith_inferManyWith.
      eapply Forall_returns; [exact IHbody|exact Hbody|exact Hqbody|].
      intros x Hx Hp Hqx. by apply Hx. }
    intros bodyInference Hlen. returns_fresh.
    destruct (lastInfoType_Ok (result bodyInference)) as [out Hout];
      [exact (nonempty_length _ _ Hlen Hne)|].
    rewrite Hout.
    eapply returnsWith_bind; [by apply (returnsWith_liftRes (fun _ => True))|].
    intros ? _. returns_done.
  - destruct ty as [annotation]. apply Forall_cons in Hq as [Hqt Hqvalue].
    eapply returnsWith_bind; [by apply IHvalue|]. intros inferred _.
    eapply returnsWith_bind
      with (P := fun t => listTypeConstants t = listTypeConstants annotation).
    { intros n. unfold instantiate.
      destruct (instantiateIn annotation [] n) as [[t' seen'] n'] eqn:E.
      exists t', n'. split; [done|].
      by apply instantiateIn_constants in E. }
    intros instantiated Hconstants.
    destruct (expandTypeAliases_resolved internalTypes instantiated Hacyclic
                Hresolve) as [t' Ht'].
    { unfold typeResolves, inheritedConstants in *. by rewrite Hconstants. }
    rewrite Ht'.
    eapply returnsWith_bind; [by apply (returnsWith_liftRes (fun _ => True))|].
    intros ? _. returns_done.
  - destruct Hwf as [Hbody Hreturning]. destruct Hq as [Hqbody Hqreturning].
    eapply returnsWith_bind.
    { apply returnsWith_inferManyWith.
      eapply Forall_returns; [exact IHbody|exact Hbody|exact Hqbody|].
      intros x Hx Hp Hqx. by apply Hx. }
    intros ? _.
    eapply returnsWith_bind; [by apply IHreturning|]. intros ? _.
    returns_fresh. returns_done.
  - destruct Hwf as [Hvalue Hcases]. destruct Hq as [Hqvalue Hqcases].
    eapply returnsWith_bind; [by apply IHvalue|]. intros value' _.
    eapply returnsWith_bind.
    { apply (returnsWith_mapM
        (fun (c : string * string * list (Expression unit))
             (c' : string * string * InferResult (list (Expression Typed))) =>
           c'.1.1 = c.1.1 /\ result c'.2 <> [])).
      apply forallb_Forall_true in Hcases.
      rewrite Forall_forall in *. intros [[label variable] body] Hin.
      specialize (IHcases _ Hin). specialize (Hcases _ Hin).
      pose proof (Forall_flat_map_elem _ _ _ _ Hqcases Hin) as Hqbody.
      simpl in *.
      apply andb_true_iff in Hcases as [Hne Hbody].
      eapply returnsWith_bind.
      { apply returnsWith_inferManyWith.
        eapply Forall_returns; [exact IHcases|exact Hbody|exact Hqbody|].
        intros x Hx Hp Hqx. by apply Hx. }
      intros inference Hlen. apply returnsWith_ret. simpl.
      split; [done|]. exact (nonempty_length _ _ Hlen Hne). }
    intros cases' Hcases'.
    eapply returnsWith_bind; [apply returnsWith_generate|]. intros t _.
    returns_fresh.
    eapply returnsWith_bind.
    { apply (returnsWith_mapM
        (fun (c : string * string * list (Expression unit))
             (v : string * Monotype) => v.1 = c.1.1)).
      apply Forall_forall. intros [[label variable] body] _.
      eapply returnsWith_bind; [apply returnsWith_generate|]. intros v _.
      by apply returnsWith_ret. }
    intros variantTypes Hvariants.
    assert (Hconstraints : exists cs,
      mapM (matchCaseConstraints variantTypes t) cases' = Ok cs).
    { assert (Hlabels : Forall (fun c' : string * string * InferResult (list (Expression Typed)) =>
        c'.1.1 ∈ map fst variantTypes /\ result c'.2 <> []) cases').
      { apply Forall_forall. intros c' Hc'.
        apply list_elem_of_lookup in Hc' as [k Hk].
        destruct (Forall2_lookup_r _ _ _ _ _ Hcases' Hk) as (c & Hc & Hl & Hne).
        split; [|done].
        destruct (Forall2_lookup_l _ _ _ _ _ Hvariants Hc) as (v & Hv & Hvl).
        apply list_elem_of_fmap. exists v. split; [congruence|].
        by eapply list_elem_of_lookup_2. }
      clear Hcases' Hvariants.
      induction Hlabels as [|[[label variable] inference] l [Hl Hne] _ IH].
      - by exists [].
      - destruct IH as [cs Hcs]. rewrite mapM_Res_cons, Hcs.
        unfold matchCaseConstraints at 1. simpl in *.
        destruct (last (result inference)) as [returningForm|] eqn:Hlast;
          [|by apply last_None in Hlast].
        destruct (find_bool_decide_Some fst _ _ Hl) as (k & variant & Hfind & _).
        assert (Hbound : exists bound,
          mapM (fun a0 : TAssumption =>
            if bool_decide (aname a0 = variable)
            then match List.find (fun v : string * Monotype => bool_decide (v.1 = label)) variantTypes with
                 | Some variant => Ok [constEqual (assumptionExpr a0) variant.2]
                 | None => Throw (InvariantViolation ("Unknown invariant case " +:+ label))
                 end
            else Ok []) (assumptions inference) = Ok bound).
        { rewrite Hfind. induction (assumptions inference) as [|x xs [bound IHxs]].
          - by exists [].
          - rewrite mapM_Res_cons, IHxs. case_bool_decide; by eexists. }
        destruct Hbound as [bound Hbound]. rewrite Hbound. by eexists. }
    destruct Hconstraints as [cs Hcs]. rewrite Hcs.
    eapply returnsWith_bind; [by apply (returnsWith_liftRes (fun _ => True))|].
    intros ? _. returns_done.
Qed.

(** C2, as the specification states it, would have the generator return
    for every expression. A [match] with a case without forms makes it
    throw. *)
Lemma infer_match_without_forms_throws :
  infer (EMatch (EVariableReference "v" tt) [("L", "x", [])] tt) [] ∅ 0 =
    Throw (InvariantViolation "Missing returning form!").
Proof. vm_compute. reflexivity. Qed.

(** ** Freshness of the effect of a lambda *)

Lemma tvarName_inj (j k : nat) : tvarName j = tvarName k -> j = k.
Proof. unfold tvarName. simpl. intros [= H]. by apply (inj pretty). Qed.

Lemma olderName_mono (k k' : nat) (name : string) :
  k <= k' -> olderName k name -> olderName k' name.
Proof. intros Hk H j Hj. apply H. lia. Qed.

Lemma olderName_generated (n k : nat) : n <= k -> olderName k (tvarName n).
Proof. intros Hn j Hj E. apply tvarName_inj in E. lia. Qed.

Lemma belowT_mono (k k' : nat) (t : Monotype) :
  k <= k' -> belowT k t -> belowT k' t.
Proof.
  intros Hk H. eapply Forall_impl; [exact H|]. intros name. by apply olderName_mono.
Qed.

Lemma belowI_mono (k k' : nat) (i : Typed) :
  k <= k' -> belowI k i -> belowI k' i.
Proof. intros Hk [? ?]. split; by eapply belowT_mono. Qed.

Lemma belowC_mono (k k' : nat) (c : TConstraint) :
  k <= k' -> belowC k c -> belowC k' c.
Proof.
  intros Hk H. eapply Forall_impl; [exact H|]. intros name. by apply olderName_mono.
Qed.

Lemma belowA_mono (k k' : nat) (a : TAssumption) :
  k <= k' -> belowA k a -> belowA k' a.
Proof. apply belowI_mono. Qed.


Lemma goodResult_mono (k k' : nat) (r : InferResult (Expression Typed)) :
  k <= k' -> goodResult k r -> goodResult k' r.
Proof.
  intros Hk (Hi & Hc & Ha). split; [by eapply belowI_mono|].
  split; eapply Forall_impl; eauto using belowC_mono, belowA_mono.
Qed.

Lemma goodMany_mono (k k' : nat) (r : InferResult (list (Expression Typed))) :
  k <= k' -> goodMany k r -> goodMany k' r.
Proof.
  intros Hk (Hi & Hc & Ha).
  split; [|split]; eapply Forall_impl; eauto using belowI_mono, belowC_mono, belowA_mono.
Qed.


Lemma belowT_app (k : nat) (op : Monotype) (args : list Monotype) :
  belowT k op -> Forall (belowT k) args -> belowT k (tApp op args).
Proof.
  intros Hop Hargs. unfold belowT. simpl. apply Forall_app. split; [done|].
  induction Hargs as [|x l Hx _ IH]; simpl; [constructor|].
  apply Forall_app. by split.
Qed.

Lemma belowT_row (k : nat) (fields : list (string * Monotype)) (ext : Monotype) :
  Forall (fun f => belowT k f.2) fields -> belowT k ext ->
  belowT k (tRow fields ext).
Proof.
  intros Hf He. induction Hf as [|x l Hx _ IH]; simpl; [done|].
  unfold belowT. simpl. apply Forall_app. by split.
Qed.

Lemma belowT_record (k : nat) (fields : list (string * Monotype)) (ext : Monotype) :
  Forall (fun f => belowT k f.2) fields -> belowT k ext ->
  belowT k (tRecord fields ext).
Proof.
  intros Hf He. apply belowT_app; [constructor|].
  constructor; [by apply belowT_row|constructor].
Qed.

Lemma belowT_variant (k : nat) (cases : list (string * Monotype)) :
  Forall (fun f => belowT k f.2) cases -> belowT k (tVariant cases).
Proof.
  intros Hf. apply belowT_app; [constructor|].
  constructor; [apply belowT_row; [done|constructor]|constructor].
Qed.

Lemma belowT_fn (k : nat) (args : list Monotype) (eff out : Monotype) :
  Forall (belowT k) args -> belowT k eff -> belowT k out ->
  belowT k (tFn args eff out).
Proof.
  intros Ha He Ho. apply belowT_app; [constructor|].
  apply Forall_app. split; [done|]. by repeat constructor.
Qed.

Lemma belowT_vector (k : nat) (t : Monotype) : belowT k t -> belowT k (tVector t).
Proof. intros H. apply belowT_app; [constructor|]. by repeat constructor. Qed.

Lemma belowT_effect_empty (k : nat) : belowT k (tEffect []).
Proof. constructor. Qed.

Lemma belowC_intro (k : nat) (c : TConstraint) :
  belowI k (info (carrier c)) -> belowT k (constraintType c) ->
  Forall (olderName k) (monovarsOf c) -> belowC k c.
Proof.
  intros [Ht He] Hc Hm. unfold belowC, constraintVariables.
  rewrite !Forall_app. done.
Qed.

(** Constraints other than implicit instances have no monomorphic set. *)
Ltac belowC_plain := apply belowC_intro; [| |constructor].

Lemma Forall_olderName_mono (k k' : nat) (names : list string) :
  k <= k' -> Forall (olderName k) names -> Forall (olderName k') names.
Proof.
  intros Hk H. eapply Forall_impl; [exact H|]. intros name. by apply olderName_mono.
Qed.

Lemma generate_inv (n n' : nat) (t : Monotype) :
  generateUniqueTVar n = Ok (t, n') ->
  t = tVar (tvarName (S n)) false /\ n' = S n /\ belowT n' t.
Proof.
  intros [= <- <-]. split; [done|]. split; [done|].
  constructor; [|constructor]. by apply olderName_generated.
Qed.

(** Instantiating an annotation only adds variables the source hands out
    on the way. *)
Lemma instantiateIn_below (t : Monotype) :
  forall seen n t' seen' n',
    instantiateIn t seen n = (t', seen', n') ->
    belowT n t -> Forall (fun p => belowT n p.2) seen ->
    n <= n' /\ belowT n' t' /\ Forall (fun p => belowT n' p.2) seen'.
Proof.
  induction t as [name|op IHop args IHargs|name us| |label lt IHlt ext IHext];
    intros seen n t' seen' n' H Ht Hseen; simpl in H.
  - by injection H as <- <- <-.
  - destruct (instantiateIn op seen n) as [[op' seen1] n1] eqn:Hop.
    destruct (instantiateList instantiateIn args seen1 n1) as [[args' seen2] n2]
      eqn:Hargs.
    injection H as <- <- <-.
    unfold belowT in Ht. simpl in Ht. apply Forall_app in Ht as [Htop Htargs].
    destruct (IHop _ _ _ _ _ Hop Htop Hseen) as (Hn1 & Hop' & Hseen1).
    apply list_all_Forall in IHargs.
    assert (Hlist : n1 <= n2 /\ Forall (belowT n2) args' /\
                    Forall (fun p => belowT n2 p.2) seen2).
    { clear Hop IHop Htop Hop'. revert seen1 n1 args' Hargs Hseen1 Hn1.
      induction IHargs as [|x l Hx _ IH]; intros seen1 n1 args' Hargs Hseen1 Hn1;
        simpl in Hargs.
      - injection Hargs as <- <- <-. by repeat split.
      - destruct (instantiateIn x seen1 n1) as [[x' s1] m1] eqn:Hx1.
        destruct (instantiateList instantiateIn l s1 m1) as [[l' s2] m2] eqn:Hl.
        injection Hargs as <- <- <-.
        simpl in Htargs. apply Forall_app in Htargs as [Htx Htl].
        destruct (Hx _ _ _ _ _ Hx1) as (Hm1 & Hx' & Hs1);
          [eapply belowT_mono; [|exact Htx]; lia|done|].
        destruct (IH Htl _ _ _ Hl Hs1) as (Hm2 & Hl' & Hs2); [lia|].
        split; [lia|]. split; [|done].
        constructor; [|done]. by eapply belowT_mono. }
    destruct Hlist as (Hn2 & Hargs' & Hseen2).
    split; [lia|]. split; [|done].
    apply (belowT_app _ op' args'); [|done]. by eapply belowT_mono.
  - destruct (isWildcard name).
    + case_bool_decide.
      * injection H as <- <- <-. split; [lia|]. split.
        -- constructor; [|constructor]. by apply olderName_generated.
        -- eapply Forall_impl; [exact Hseen|]. intros p. apply belowT_mono. lia.
      * destruct (lookupAssoc name seen) as [v|] eqn:E.
        -- injection H as <- <- <-. split; [lia|]. split; [|done].
           apply lookupAssoc_Some in E as (p & Hp & <-).
           rewrite Forall_forall in Hseen. by apply Hseen.
        -- injection H as <- <- <-. split; [lia|].
           assert (Hv : belowT (S n) (tVar (tvarName (S n)) false)).
           { constructor; [|constructor]. by apply olderName_generated. }
           split; [done|]. apply Forall_app.
           split; [|constructor; [exact Hv|constructor]].
           eapply Forall_impl; [exact Hseen|]. intros p. apply belowT_mono. lia.
    + by injection H as <- <- <-.
  - by injection H as <- <- <-.
  - destruct (instantiateIn lt seen n) as [[lt' seen1] n1] eqn:Hlt.
    destruct (instantiateIn ext seen1 n1) as [[ext' seen2] n2] eqn:Hext.
    injection H as <- <- <-.
    unfold belowT in Ht. simpl in Ht. apply Forall_app in Ht as [Htlt Htext].
    destruct (IHlt _ _ _ _ _ Hlt Htlt Hseen) as (Hn1 & Hlt' & Hseen1).
    destruct (IHext _ _ _ _ _ Hext) as (Hn2 & Hext' & Hseen2);
      [eapply belowT_mono; [|exact Htext]; lia|done|].
    split; [lia|]. split; [|done].
    unfold belowT. simpl. apply Forall_app. split; [|done].
    eapply belowT_mono; [|exact Hlt']. lia.
Qed.

Lemma instantiate_below (ty : TypeWithWildcards) (n n' : nat) (t : Monotype) :
  instantiate ty n = Ok (t, n') ->
  Forall (belowT n) (match ty with mkTypeWithWildcards b => [b] end) ->
  n <= n' /\ belowT n' t.
Proof.
  destruct ty as [b]. unfold instantiate.
  destruct (instantiateIn b [] n) as [[t' seen'] m] eqn:E.
  intros [= <- <-] Hb. apply Forall_cons in Hb as [Hb _].
  destruct (instantiateIn_below _ _ _ _ _ _ E Hb) as (? & ? & _); [constructor|].
  done.
Qed.

(** Expanding aliases only adds variables of the alias definitions. *)
Lemma expandDepth_below (env : gmap string Monotype) (k : nat) (d : nat) :
  map_Forall (fun _ def => belowT k def) env ->
  forall t t', expandDepth d env t = Ok t' -> belowT k t -> belowT k t'.
Proof.
  intros Henv. induction d as [d IHd] using lt_wf_ind.
  induction t as [name|op IHop args IHargs|name us| |label lt IHlt ext IHext];
    intros t' H Ht; rewrite expandDepth_unfold in H.
  - destruct (getProperty env name) as [[def|key]|] eqn:Hdef;
      [|discriminate|by injection H as <-].
    apply getProperty_Own in Hdef.
    destruct d as [|d]; [discriminate|].
    eapply (IHd d); [lia|exact H|]. by eapply Henv.
  - apply Res_bind_Ok in H as (op' & Hop & H).
    apply Res_bind_Ok in H as (args' & Hargs & [= <-]).
    unfold belowT in Ht. simpl in Ht. apply Forall_app in Ht as [Htop Htargs].
    apply (belowT_app _ op' args'); [by eapply IHop|].
    apply mapM_Res_Forall2 in Hargs. apply list_all_Forall in IHargs.
    induction Hargs as [|x y l l' Hxy _ IH]; [constructor|].
    apply Forall_cons in IHargs as [Hx Hl].
    simpl in Htargs. apply Forall_app in Htargs as [Htx Htl].
    constructor; [by eapply Hx|by apply IH].
  - by injection H as <-.
  - by injection H as <-.
  - apply Res_bind_Ok in H as (lt' & Hlt & H).
    apply Res_bind_Ok in H as (ext' & Hext & [= <-]).
    unfold belowT in Ht. simpl in Ht. apply Forall_app in Ht as [Htlt Htext].
    unfold belowT. simpl. apply Forall_app. split; [by eapply IHlt|by eapply IHext].
Qed.

Lemma expandTypeAliases_below (env : gmap string Monotype) (k : nat)
    (t t' : Monotype) :
  map_Forall (fun _ def => belowT k def) env ->
  expandTypeAliases t env = Ok t' -> belowT k t -> belowT k t'.
Proof.
  intros Henv. unfold expandTypeAliases. by apply expandDepth_below.
Qed.

Lemma Forall_flatMap {A B} (P : B -> Prop) (f : A -> list B) (l : list A) :
  Forall (fun x => Forall P (f x)) l -> Forall P (flatMap f l).
Proof.
  unfold flatMap. induction 1 as [|x l Hx _ IH]; simpl; [constructor|].
  apply Forall_app. by split.
Qed.

Lemma Forall_belowC_map {A} (k : nat) (f : A -> TConstraint) (l : list A) :
  Forall (fun x => belowI k (info (carrier (f x))) /\
                   belowT k (constraintType (f x)) /\
                   Forall (olderName k) (monovarsOf (f x))) l ->
  Forall (belowC k) (map f l).
Proof.
  intros H. apply Forall_fmap. eapply Forall_impl; [exact H|].
  intros x (? & ? & ?). by apply belowC_intro.
Qed.

Lemma Forall_belowC_map_plain {A} (k : nat) (f : A -> TConstraint) (l : list A) :
  (forall x, monovarsOf (f x) = []) ->
  Forall (fun x => belowI k (info (carrier (f x))) /\
                   belowT k (constraintType (f x))) l ->
  Forall (belowC k) (map f l).
Proof.
  intros Hplain H. apply Forall_belowC_map. eapply Forall_impl; [exact H|].
  intros x [? ?]. rewrite Hplain. split; [done|]. split; [done|constructor].
Qed.

Ltac belowC_map := apply Forall_belowC_map_plain; [reflexivity|].

Lemma mapM_below {A B} (G : nat -> B -> Prop) (f : A -> Gen B) (k : nat)
    (l : list A) :
  (forall n m b, n <= m -> G n b -> G m b) ->
  Forall (fun x => forall n y n', k <= n -> f x n = Ok (y, n') ->
            n <= n' /\ G n' y) l ->
  forall n ys n', k <= n -> mapM f l n = Ok (ys, n') ->
    n <= n' /\ Forall (G n') ys.
Proof.
  intros Hmono. induction 1 as [|x l Hx _ IH]; intros n ys n' Hk H.
  - apply Gen_ret_Ok in H as [= -> ->]. split; [lia|constructor].
  - rewrite mapM_Gen_cons in H.
    apply Gen_bind_Ok in H as (y & n1 & Hy & H).
    apply Gen_bind_Ok in H as (ys' & n2 & Hys & H).
    apply Gen_ret_Ok in H as [= -> ->].
    destruct (Hx _ _ _ Hk Hy) as [Hn1 Gy].
    destruct (IH n1 ys' n2) as [Hn2 Gys]; [lia|done|].
    split; [lia|]. constructor; [|done]. eapply Hmono; [|exact Gy]. lia.
Qed.

Lemma inferManyWith_below {A}
    (f : A -> Gen (InferResult (Expression Typed))) (k : nat) (l : list A) :
  Forall (fun x => forall n r n', k <= n -> f x n = Ok (r, n') ->
            n <= n' /\ goodResult n' r) l ->
  forall n r n', k <= n -> inferManyWith f l n = Ok (r, n') ->
    n <= n' /\ goodMany n' r.
Proof.
  intros Hl n r n' Hk H. unfold inferManyWith in H.
  apply Gen_bind_Ok in H as (rs & n1 & Hrs & H).
  apply Gen_ret_Ok in H as [= -> ->].
  destruct (mapM_below goodResult f k l goodResult_mono Hl _ _ _ Hk Hrs)
    as [Hn1 Hgood].
  split; [done|]. unfold goodMany, collectResults. simpl.
  split; [|split].
  - apply Forall_fmap. eapply Forall_impl; [exact Hgood|]. by intros x (? & _).
  - apply Forall_flatMap. eapply Forall_impl; [exact Hgood|]. by intros x (_ & ? & _).
  - apply Forall_flatMap. eapply Forall_impl; [exact Hgood|]. by intros x (_ & _ & ?).
Qed.

Lemma Forall_flat_map_inv {A B} (P : B -> Prop) (f : A -> list B) (l : list A) :
  Forall P (flat_map f l) -> Forall (fun x => Forall P (f x)) l.
Proof.
  induction l as [|x l IH]; simpl; [constructor|].
  intros H. apply Forall_app in H as [? ?]. constructor; auto.
Qed.

Lemma Forall_sub {A} (P Q : A -> Prop) (l : list A) :
  Forall P l -> Forall Q l -> Forall (fun x => P x /\ Q x) l.
Proof. intros HP HQ. rewrite Forall_forall in *. auto. Qed.

Lemma lastInfoType_below (k : nat) (forms : list (Expression Typed)) (t : Monotype) :
  lastInfoType forms = Ok t -> Forall (fun e => belowI k (info e)) forms ->
  belowT k t.
Proof.
  unfold lastInfoType. destruct (last forms) as [form|] eqn:E; [|discriminate].
  intros [= <-] H. apply last_Some_elem_of in E.
  rewrite Forall_forall in H. by apply H.
Qed.

Lemma goodResult_intro (k : nat) (e : Expression Typed)
    (cs : list TConstraint) (asms : list TAssumption) :
  belowT k (type (info e)) -> belowT k (effect (info e)) ->
  Forall (belowC k) cs -> Forall (belowA k) asms ->
  goodResult k (mkInferResult e cs asms).
Proof. by repeat split. Qed.

Lemma Forall_list_filter {A} (P : A -> Prop) (p : A -> bool) (l : list A) :
  Forall P l -> Forall P (List.filter p l).
Proof.
  rewrite !Forall_forall. intros H x Hx. apply H.
  apply filter_elem_of in Hx. tauto.
Qed.

Lemma argTypeOf_below (k : nat) (fnargs : list string) (argtypes : list Monotype)
    (name : string) :
  Forall (belowT k) argtypes -> belowT k (argTypeOf fnargs argtypes name).
Proof.
  intros H. unfold argTypeOf.
  destruct (indexOf name fnargs) as [i|]; simpl; [|constructor].
  destruct (argtypes !! i) as [t|] eqn:E; simpl; [|constructor].
  rewrite Forall_forall in H. apply H. by eapply list_elem_of_lookup_2.
Qed.

Lemma bindingTypeOf_below (k : nat)
    (bindingsInfo : list (string * InferResult (Expression Typed)))
    (name : string) :
  Forall (fun b => goodResult k b.2) bindingsInfo ->
  belowT k (bindingTypeOf bindingsInfo name).
Proof.
  intros H. unfold bindingTypeOf.
  destruct (List.find _ bindingsInfo) as [bi|] eqn:E; simpl; [|constructor].
  apply find_some in E as [Hin _]. apply list_elem_of_In in Hin.
  rewrite Forall_forall in H. by destruct (H _ Hin) as ([? _] & _).
Qed.

Lemma mapM_Res_Forall {A B} (Q : B -> Prop) (f : A -> Res B) (l : list A)
    (ys : list B) :
  Forall (fun x => forall y, f x = Ok y -> Q y) l ->
  mapM f l = Ok ys -> Forall Q ys.
Proof.
  intros H. revert ys. induction H as [|x l Hx _ IH]; intros ys Hys.
  - injection Hys as <-. constructor.
  - rewrite mapM_Res_cons in Hys.
    apply Res_bind_Ok in Hys as (y & Hy & Hys).
    apply Res_bind_Ok in Hys as (k & Hk & Hys). injection Hys as <-.
    constructor; auto.
Qed.

Lemma Forall_concat_list {A} (P : A -> Prop) (ls : list (list A)) :
  Forall (Forall P) ls -> Forall P (concat ls).
Proof.
  induction 1 as [|x l Hx _ IH]; simpl; [constructor|].
  apply Forall_app. by split.
Qed.

Lemma matchCaseConstraints_below (k : nat)
    (variantTypes : list (string * Monotype)) (t : Monotype)
    (c : string * string * InferResult (list (Expression Typed)))
    (cs : list TConstraint) :
  Forall (fun v => belowT k v.2) variantTypes -> belowT k t ->
  goodMany k c.2 ->
  matchCaseConstraints variantTypes t c = Ok cs -> Forall (belowC k) cs.
Proof.
  intros Hv Ht (Hres & _ & Has). destruct c as [[label variable] inference].
  unfold matchCaseConstraints. simpl in *.
  destruct (last (result inference)) as [form|] eqn:Hlast; [|discriminate].
  intros H. apply Res_bind_Ok in H as (bound & Hbound & [= <-]).
  constructor.
  - belowC_plain; [|done]. simpl. apply last_Some_elem_of in Hlast.
    rewrite Forall_forall in Hres. by apply Hres.
  - apply Forall_concat_list. eapply mapM_Res_Forall; [|exact Hbound].
    eapply Forall_impl; [exact Has|]. intros a Ha y Hy. simpl in Hy.
    case_bool_decide; [|injection Hy as <-; constructor].
    destruct (List.find _ variantTypes) as [variant|] eqn:E; [|discriminate].
    injection Hy as <-. constructor; [|constructor].
    belowC_plain; [done|]. simpl.
    apply find_some in E as [Hin _]. apply list_elem_of_In in Hin.
    rewrite Forall_forall in Hv. by apply Hv.
Qed.

Ltac inv_bind H x n Hx := apply Gen_bind_Ok in H as (x & n & Hx & H).
Ltac inv_fresh H t n Ht :=
  apply Gen_bind_Ok in H as (t & n & Ht & H);
  apply generate_inv in Ht as (-> & -> & Ht).
Ltac inv_ret H := apply Gen_ret_Ok in H as [= -> ->].

(** The types of the arguments of a lambda are variables the source has
    handed out. *)
Lemma argtypes_below {A} (fnargs : list A) (n n' : nat) (argtypes : list Monotype) :
  mapM (fun _ => generateUniqueTVar) fnargs n = Ok (argtypes, n') ->
  n <= n' /\ Forall (belowT n') argtypes /\
  Forall (olderName n') (map tvarNodeName argtypes).
Proof.
  intros H.
  eapply (mapM_below (fun m t => belowT m t /\ olderName m (tvarNodeName t)))
    in H as [Hn H]; [| | |exact (Nat.le_refl n)].
  - split; [done|]. split.
    + eapply Forall_impl; [exact H|]. by intros t [? _].
    + apply Forall_fmap. eapply Forall_impl; [exact H|]. by intros t [_ ?].
  - intros m m' t Hm [? ?].
    split; [by eapply belowT_mono|by eapply olderName_mono].
  - apply Forall_forall. intros x _ m y m' Hm Hy.
    apply generate_inv in Hy as (-> & -> & Hy). split; [lia|]. split; [done|].
    by apply olderName_generated.
Qed.

Lemma inferMany_fresh (internalTypes : gmap string Monotype) (k : nat)
    (exprs : list (Expression unit)) :
  Forall (inferFresh internalTypes k) exprs ->
  Forall (olderName k) (flat_map inputNames exprs) ->
  forall monovars n r n',
    k <= n -> Forall (olderName n) monovars ->
    inferManyWith (fun e => infer e monovars internalTypes) exprs n = Ok (r, n') ->
    n <= n' /\ goodMany n' r.
Proof.
  intros IH Hin monovars n r n' Hk Hmv H.
  eapply inferManyWith_below; [|exact (Nat.le_refl n)|exact H].
  apply Forall_flat_map_inv in Hin.
  eapply Forall_impl; [exact (Forall_sub _ _ _ IH Hin)|].
  intros x [Hx Hix] m y m' Hm Hy.
  eapply Hx; [exact Hix| |eapply Forall_olderName_mono; [|exact Hmv]|exact Hy]; lia.
Qed.

Lemma infer_below (internalTypes : gmap string Monotype) (k : nat) :
  map_Forall (fun _ def => belowT k def) internalTypes ->
  forall expr, inferFresh internalTypes k expr.
Proof.
  intros Henv.
  induction expr as
    [i|v i|v i|values i IHvalues|fields ext i IHfields IHext|name i
    |c t e i IHc IHt IHe|args body i IHbody|fn args i IHfn IHargs
    |bindings body i IHbindings IHbody|ty value i IHvalue
    |body returning i IHbody IHreturning|value cases i IHvalue IHcases]
    using Expression_Forall_ind; intros Hin monovars n r n' Hk Hmv H;
    simpl in H, Hin.
  - inv_fresh H t n1 Ht. inv_fresh H eff n2 Heff. inv_ret H.
    split; [lia|].
    apply goodResult_intro; simpl; [|done|constructor|constructor].
    eapply belowT_mono; [|exact Ht]. lia.
  - inv_fresh H eff n1 Heff. inv_ret H.
    split; [lia|].
    apply goodResult_intro; simpl; [constructor|done|constructor|constructor].
  - inv_fresh H eff n1 Heff. inv_ret H.
    split; [lia|].
    apply goodResult_intro; simpl; [constructor|done|constructor|constructor].
  - (* vector *)
    inv_bind H vs n1 Hvs. inv_fresh H t n2 Ht. inv_fresh H eff n3 Heff. inv_ret H.
    eapply inferMany_fresh in Hvs as [Hn1 Hvs]; [|done|done|done|done].
    apply (goodMany_mono _ (S (S n1))) in Hvs as (Hres & Hcs & Has); [|lia].
    apply (belowT_mono _ (S (S n1))) in Ht; [|lia].
    split; [lia|]. apply goodResult_intro; simpl;
      [by apply belowT_vector|done| |done].
    rewrite !Forall_app. split; [done|].
    split; belowC_map; (eapply Forall_impl; [exact Hres|]);
      intros x Hx; simpl; by split.
  - (* record *)
    apply Forall_app in Hin as [Hinf Hine].
    inv_bind H inferred n1 Hinf'. inv_bind H tailInferred n2 Htail.
    inv_fresh H tailRowType n3 Hrow. inv_fresh H eff n4 Heff.
    inv_bind H tailConstraint n5 Htc. inv_ret H.
    eapply (mapM_below (fun n p => goodResult n p.2)) in Hinf' as [Hn1 Hinferred];
      [|intros; by eapply goodResult_mono| |exact (Nat.le_refl n)].
    2:{ apply Forall_flat_map_inv in Hinf.
        eapply Forall_impl; [exact (Forall_sub _ _ _ IHfields Hinf)|].
        intros [label value] [Hx Hix] m y m' Hm Hy. simpl in *.
        inv_bind Hy iv m1 Hiv. inv_ret Hy.
        eapply Hx; [exact Hix| |eapply Forall_olderName_mono; [|exact Hmv]|exact Hiv];
          lia. }
    assert (Htail' : n1 <= n2 /\ from_option (goodResult n2) True tailInferred).
    { destruct ext as [tail|]; simpl in *.
      - inv_bind Htail it m1 Hit. inv_ret Htail. simpl.
        eapply IHext;
          [exact Hine| |eapply Forall_olderName_mono; [|exact Hmv]|exact Hit]; lia.
      - inv_ret Htail. by split. }
    destruct Htail' as [Hn2 Htail'].
    assert (Htc' : S (S n2) <= n5 /\ Forall (belowC n5) tailConstraint).
    { destruct tailInferred as [tail|]; simpl in *.
      - inv_bind Htc fr m1 Hfresh. inv_ret Htc.
        eapply (mapM_below (fun n (p : string * Monotype) => belowT n p.2))
          in Hfresh as [Hm1 Hfresh];
          [|intros; by eapply belowT_mono| |exact (Nat.le_refl _)].
        2:{ apply Forall_forall. intros x _ m y m' Hm Hy.
            inv_fresh Hy v m2 Hv. inv_ret Hy. by split; [lia|]. }
        split; [done|]. constructor; [|constructor].
        belowC_plain; simpl.
        + destruct Htail' as (Hi & _). eapply belowI_mono; [|exact Hi]. lia.
        + apply belowT_record; [done|]. eapply belowT_mono; [|exact Hrow]. lia.
      - inv_ret Htc. split; [lia|constructor]. }
    destruct Htc' as [Hn5 Htc'].
    assert (Hinf5 : Forall (fun p : string * InferResult (Expression Typed) =>
                      goodResult n5 p.2) inferred).
    { eapply Forall_impl; [exact Hinferred|]. intros p. apply goodResult_mono. lia. }
    assert (Htail5 : from_option (goodResult n5) True tailInferred).
    { destruct tailInferred; [|done]. simpl in *.
      eapply goodResult_mono; [|exact Htail']. lia. }
    apply (belowT_mono _ n5) in Hrow; [|lia].
    apply (belowT_mono _ n5) in Heff; [|lia].
    split; [lia|]. apply goodResult_intro; simpl.
    + apply belowT_record.
      * apply Forall_fmap. eapply Forall_impl; [exact Hinf5|].
        by intros p ([? _] & _).
      * destruct tailInferred; [done|constructor].
    + done.
    + rewrite !Forall_app. split; [|split; [|split; [done|split]]].
      * apply Forall_flatMap. eapply Forall_impl; [exact Hinf5|].
        by intros p (_ & ? & _).
      * destruct tailInferred; simpl in *; [|constructor].
        by destruct Htail5 as (_ & ? & _).
      * belowC_map. eapply Forall_impl; [exact Hinf5|].
        intros p (? & _). by split.
      * destruct tailInferred; simpl in *; [|constructor].
        constructor; [|constructor]. belowC_plain; [|done].
        by destruct Htail5 as (? & _).
    + rewrite Forall_app. split.
      * apply Forall_flatMap. eapply Forall_impl; [exact Hinf5|].
        by intros p (_ & _ & ?).
      * destruct tailInferred; simpl in *; [|constructor].
        by destruct Htail5 as (_ & _ & ?).
  - (* variable reference *)
    inv_fresh H t n1 Ht. inv_fresh H eff n2 Heff. inv_ret H.
    apply (belowT_mono _ (S (S n))) in Ht; [|lia].
    split; [lia|].
    apply goodResult_intro; simpl; [done|done|constructor|].
    constructor; [by split|constructor].
  - (* conditional *)
    apply Forall_app in Hin as [Hinc Hin]. apply Forall_app in Hin as [Hint Hine].
    inv_bind H rc n1 Hc. inv_bind H rt n2 Ht. inv_bind H re n3 He.
    inv_fresh H t' n4 Ht'. inv_fresh H eff n5 Heff. inv_ret H.
    eapply IHc in Hc as [Hn1 Hc]; [|done|done|done].
    eapply IHt in Ht as [Hn2 Ht];
      [|done|lia|eapply Forall_olderName_mono; [|exact Hmv]; lia].
    eapply IHe in He as [Hn3 He];
      [|done|lia|eapply Forall_olderName_mono; [|exact Hmv]; lia].
    apply (goodResult_mono _ (S (S n3))) in Hc as (Hci & Hcc & Hca); [|lia].
    apply (goodResult_mono _ (S (S n3))) in Ht as (Hti & Htc & Hta); [|lia].
    apply (goodResult_mono _ (S (S n3))) in He as (Hei & Hec & Hea); [|lia].
    apply (belowT_mono _ (S (S n3))) in Ht'; [|lia].
    split; [lia|]. apply goodResult_intro; simpl; [done|done| |].
    + rewrite !Forall_app. repeat split; try done.
      repeat (constructor; [belowC_plain; simpl; first [done|constructor]|]).
      constructor.
    + rewrite !Forall_app. by repeat split.
  - (* function *)
    inv_bind H argtypes n1 Hargs. inv_bind H bodyInference n2 Hbody.
    inv_fresh H bodyEffect n3 Hbe. inv_bind H out n4 Hout.
    inv_fresh H eff n5 Heff. inv_ret H.
    apply liftRes_Ok in Hout as [Hout ->]. simpl in Hout.
    apply argtypes_below in Hargs as (Hn1 & Hargs & Hnames).
    eapply inferMany_fresh in Hbody as [Hn2 Hbody]; [|done|done|lia|].
    2:{ apply Forall_app. split; [|done].
        eapply Forall_olderName_mono; [|exact Hmv]. lia. }
    apply (goodMany_mono _ (S (S n2))) in Hbody as (Hres & Hcs & Has); [|lia].
    apply (belowT_mono _ (S (S n2))) in Hbe; [|lia].
    assert (Hargs' : Forall (belowT (S (S n2))) argtypes).
    { eapply Forall_impl; [exact Hargs|]. intros x. apply belowT_mono. lia. }
    split; [lia|]. apply goodResult_intro; simpl.
    + apply belowT_fn; [done|done|]. by eapply lastInfoType_below.
    + done.
    + rewrite !Forall_app. split; [done|]. split.
      * belowC_map. apply Forall_list_filter.
        eapply Forall_impl; [exact Has|]. intros a Ha. simpl.
        split; [done|]. by apply argTypeOf_below.
      * belowC_map. eapply Forall_impl; [exact Hres|].
        intros x Hx. by split.
    + by apply Forall_list_filter.
  - (* function call *)
    apply Forall_app in Hin as [Hinf Hina].
    inv_bind H ifn n1 Hfn. inv_bind H iargs n2 Hargs.
    inv_fresh H tTo n3 Hto. inv_fresh H eff n4 Heff. inv_ret H.
    eapply IHfn in Hfn as [Hn1 Hfn]; [|done|done|done].
    eapply inferMany_fresh in Hargs as [Hn2 Hargs];
      [|done|done|lia|eapply Forall_olderName_mono; [|exact Hmv]; lia].
    apply (goodResult_mono _ (S (S n2))) in Hfn as (Hfi & Hfc & Hfa); [|lia].
    apply (goodMany_mono _ (S (S n2))) in Hargs as (Hres & Hcs & Has); [|lia].
    apply (belowT_mono _ (S (S n2))) in Hto; [|lia].
    split; [lia|]. apply goodResult_intro; simpl; [done|done| |].
    + constructor.
      { belowC_plain; [done|]. simpl. apply belowT_fn; [|done|done].
        apply Forall_fmap. eapply Forall_impl; [exact Hres|]. by intros x [? _]. }
      rewrite !Forall_app. split; [done|]. split; [done|].
      constructor; [by belowC_plain|].
      belowC_map. eapply Forall_impl; [exact Hres|].
      intros x Hx. by split.
    + rewrite Forall_app. by split.
  - (* let *)
    apply Forall_app in Hin as [Hinb Hinbody].
    inv_bind H bindingsInfo n1 Hbi. inv_bind H bodyInference n2 Hbody.
    inv_fresh H eff n3 Heff. inv_bind H t' n4 Hout. inv_ret H.
    apply liftRes_Ok in Hout as [Hout ->]. simpl in Hout.
    eapply (mapM_below (fun n p => goodResult n p.2)) in Hbi as [Hn1 Hbi];
      [|intros; by eapply goodResult_mono| |exact (Nat.le_refl n)].
    2:{ apply Forall_flat_map_inv in Hinb.
        eapply Forall_impl; [exact (Forall_sub _ _ _ IHbindings Hinb)|].
        intros [variable value] [Hx Hix] m y m' Hm Hy. simpl in *.
        inv_bind Hy iv m1 Hiv. inv_ret Hy.
        eapply Hx; [exact Hix| |eapply Forall_olderName_mono; [|exact Hmv]|exact Hiv];
          lia. }
    eapply inferMany_fresh in Hbody as [Hn2 Hbody];
      [|done|done|lia|eapply Forall_olderName_mono; [|exact Hmv]; lia].
    apply (goodMany_mono _ (S n2)) in Hbody as (Hres & Hcs & Has); [|lia].
    assert (Hbi' : Forall (fun p : string * InferResult (Expression Typed) =>
                     goodResult (S n2) p.2) bindingsInfo).
    { eapply Forall_impl; [exact Hbi|]. intros p. apply goodResult_mono. lia. }
    apply (Forall_olderName_mono _ (S n2)) in Hmv; [|lia].
    split; [lia|]. apply goodResult_intro; simpl.
    + by eapply lastInfoType_below.
    + done.
    + rewrite !Forall_app. split; [done|]. split; [|split; [|split]].
      * apply Forall_flatMap. eapply Forall_impl; [exact Hbi'|].
        by intros p (_ & ? & _).
      * apply Forall_belowC_map. apply Forall_list_filter.
        eapply Forall_impl; [exact Has|]. intros a Ha. simpl.
        split; [done|]. split; [|done]. by apply bindingTypeOf_below.
      * belowC_map. eapply Forall_impl; [exact Hbi'|].
        intros p (? & _). split; [done|]. apply belowT_effect_empty.
      * belowC_map. eapply Forall_impl; [exact Hres|].
        intros x Hx. by split.
    + rewrite Forall_app. split; [by apply Forall_list_filter|].
      apply Forall_flatMap. eapply Forall_impl; [exact Hbi'|].
      by intros p (_ & _ & ?).
  - (* type annotation *)
    destruct ty as [annotation]. apply Forall_app in Hin as [Hina Hinv].
    inv_bind H inferred n1 Hinf. inv_bind H instantiated n2 Hinst.
    inv_bind H t' n3 Hexp. inv_ret H.
    apply liftRes_Ok in Hexp as [Hexp ->]. simpl in Hexp.
    eapply IHvalue in Hinf as [Hn1 Hinf]; [|done|done|done].
    apply instantiate_below in Hinst as [Hn2 Hinst].
    2:{ constructor; [|constructor]. eapply belowT_mono; [|exact Hina]. lia. }
    apply (goodResult_mono _ n2) in Hinf as ([Hit Hie] & Hic & Hia); [|lia].
    eapply expandTypeAliases_below in Hexp; [| |exact Hinst].
    2:{ eapply map_Forall_impl; [exact Henv|]. intros ? def. apply belowT_mono. lia. }
    split; [lia|]. apply goodResult_intro; simpl; [done|done| |done].
    rewrite Forall_app. split; [done|]. constructor; [|constructor].
    by belowC_plain.
  - (* do block *)
    apply Forall_app in Hin as [Hinb Hinr].
    inv_bind H rbody n1 Hbody. inv_bind H rret n2 Hret.
    inv_fresh H eff n3 Heff. inv_ret H.
    eapply inferMany_fresh in Hbody as [Hn1 Hbody]; [|done|done|done|done].
    eapply IHreturning in Hret as [Hn2 Hret];
      [|done|lia|eapply Forall_olderName_mono; [|exact Hmv]; lia].
    apply (goodMany_mono _ (S n2)) in Hbody as (Hres & Hcs & Has); [|lia].
    apply (goodResult_mono _ (S n2)) in Hret as ([Hrt Hre] & Hrc & Hra); [|lia].
    split; [lia|]. apply goodResult_intro; simpl; [done|done| |].
    + rewrite !Forall_app. split; [done|]. split; [done|]. split.
      * belowC_map. eapply Forall_impl; [exact Hres|].
        intros x Hx. by split.
      * constructor; [|constructor]. by belowC_plain.
    + rewrite Forall_app. by split.
  - (* match *)
    apply Forall_app in Hin as [Hinv Hinc].
    inv_bind H rvalue n1 Hvalue. inv_bind H cases' n2 Hcases.
    inv_fresh H t' n3 Ht'. inv_fresh H eff n4 Heff.
    inv_bind H variantTypes n5 Hvt. inv_bind H caseConstraints n6 Hcc. inv_ret H.
    apply liftRes_Ok in Hcc as [Hcc ->]. simpl in Hcc.
    eapply IHvalue in Hvalue as [Hn1 Hvalue]; [|done|done|done].
    eapply (mapM_below (fun n p => goodMany n p.2)) in Hcases as [Hn2 Hcases];
      [|intros; by eapply goodMany_mono| |exact (Nat.le_refl n1)].
    2:{ apply Forall_flat_map_inv in Hinc.
        eapply Forall_impl; [exact (Forall_sub _ _ _ IHcases Hinc)|].
        intros [[label variable] cbody] [Hx Hix] m y m' Hm Hy. simpl in *.
        apply Forall_cons in Hix as [Hvar Hix].
        inv_bind Hy iv m1 Hiv. inv_ret Hy. simpl.
        eapply inferMany_fresh; [exact Hx|exact Hix| | |exact Hiv]; [lia|].
        apply Forall_app. split.
        - eapply Forall_olderName_mono; [|exact Hmv]. lia.
        - constructor; [|constructor]. eapply olderName_mono; [|exact Hvar]. lia. }
    eapply (mapM_below (fun n (p : string * Monotype) => belowT n p.2))
      in Hvt as [Hn5 Hvt];
      [|intros; by eapply belowT_mono| |exact (Nat.le_refl _)].
    2:{ apply Forall_forall. intros [[label variable] cbody] _ m y m' Hm Hy.
        inv_fresh Hy v m2 Hv. inv_ret Hy. by split; [lia|]. }
    apply (goodResult_mono _ n5) in Hvalue as ([Hvt' Hve] & Hvc & Hva); [|lia].
    assert (Hcases5 : Forall
      (fun p : string * string * InferResult (list (Expression Typed)) =>
         goodMany n5 p.2) cases').
    { eapply Forall_impl; [exact Hcases|]. intros p. apply goodMany_mono. lia. }
    apply (belowT_mono _ n5) in Ht'; [|lia].
    apply (belowT_mono _ n5) in Heff; [|lia].
    split; [lia|]. apply goodResult_intro; simpl; [done|done| |].
    + rewrite !Forall_app. split; [done|]. split.
      * apply Forall_flatMap. eapply Forall_impl; [exact Hcases5|].
        by intros p (_ & ? & _).
      * constructor.
        { belowC_plain; [done|]. simpl. by apply belowT_variant. }
        apply Forall_concat_list. eapply mapM_Res_Forall; [|exact Hcc].
        eapply Forall_impl; [exact Hcases5|]. intros c Hc y Hy.
        exact (matchCaseConstraints_below _ _ _ _ _ Hvt Ht' Hc Hy).
    + rewrite Forall_app. split; [done|].
      apply Forall_flatMap. eapply Forall_impl; [exact Hcases5|].
      intros p (_ & _ & ?). by apply Forall_list_filter.
Qed.

(** C5 (amended): when the given monomorphic variables, the annotations
    and pattern variables of a lambda and the alias definitions mention no
    name the fresh-variable source has yet to hand out, the effect of the
    lambda expression is freshly generated: it is the variable the source
    hands out last during the inference of the lambda, after the state the
    inference started from. It occurs in no constraint emitted for the
    lambda: neither in the type or the effect of a carrier, nor in the type
    on the other side, nor in a monomorphic set. It occurs neither in the
    arrow type of the lambda, which holds the body effect, nor in an
    assumption that escapes. *)
Theorem lambda_effect_is_fresh (internalTypes : gmap string Monotype)
    (fnargs : list string) (body : list (Expression unit)) (i : unit)
    (monovars : list string) (n n' : nat) (r : InferResult (Expression Typed)) :
  map_Forall (fun _ def => belowT n def) internalTypes ->
  Forall (olderName n) (inputNames (EFunction fnargs body i)) ->
  Forall (olderName n) monovars ->
  infer (EFunction fnargs body i) monovars internalTypes n = Ok (r, n') ->
  body <> [] /\
  n < n' /\
  generatedIn n n' (effect (info (result r))) /\
  effect (info (result r)) = tVar (tvarName n') false /\
  (forall c, c ∈ constraints r -> tvarName n' ∉ constraintVariables c) /\
  (tvarName n' ∉ listTypeVariables (type (info (result r)))) /\
  (forall a, a ∈ assumptions r ->
     (tvarName n' ∉ listTypeVariables (type (ainfo a))) /\
     (tvarName n' ∉ listTypeVariables (effect (ainfo a)))).
Proof.
  intros Henv Hin Hmv H. simpl in H, Hin.
  inv_bind H argtypes n1 Hargs. inv_bind H bodyInference n2 Hbody.
  inv_fresh H bodyEffect n3 Hbe. inv_bind H out n4 Hout.
  inv_fresh H eff n5 Heff. inv_ret H.
  apply liftRes_Ok in Hout as [Hout ->]. simpl in Hout.
  apply argtypes_below in Hargs as (Hn1 & Hargs & Hnames).
  assert (Hne : body <> []).
  { intros ->. unfold inferManyWith in Hbody.
    inv_bind Hbody rs m Hrs. inv_ret Hrs. inv_ret Hbody. discriminate Hout. }
  eapply inferMany_fresh in Hbody as [Hn2 Hbody]; [| |exact Hin|exact Hn1|].
  2:{ apply Forall_forall. intros x _. by apply infer_below. }
  2:{ apply Forall_app. split; [|done].
      eapply Forall_olderName_mono; [|exact Hmv]. lia. }
  apply (goodMany_mono _ (S n2)) in Hbody as (Hres & Hcs & Has); [|lia].
  assert (Hargs' : Forall (belowT (S n2)) argtypes).
  { eapply Forall_impl; [exact Hargs|]. intros x. apply belowT_mono. lia. }
  assert (Hfresh : forall names, Forall (olderName (S n2)) names ->
            tvarName (S (S n2)) ∉ names).
  { intros names Hnames' Hin'. rewrite Forall_forall in Hnames'.
    by apply (Hnames' _ Hin' (S (S n2))); [lia|]. }
  split; [done|]. split; [lia|].
  split; [exists (S (S n2)); split; [lia|done]|].
  split; [done|]. simpl. split; [|split].
  - intros c Hc. apply Hfresh. revert c Hc. apply Forall_forall.
    rewrite !Forall_app. split; [done|]. split.
    + belowC_map. apply Forall_list_filter.
      eapply Forall_impl; [exact Has|]. intros a Ha. simpl.
      split; [done|]. by apply argTypeOf_below.
    + belowC_map. eapply Forall_impl; [exact Hres|].
      intros x Hx. by split.
  - apply Hfresh. apply belowT_fn; [done|done|]. by eapply lastInfoType_below.
  - intros a Ha. apply filter_elem_of in Ha as [Ha _].
    rewrite Forall_forall in Has. destruct (Has _ Ha) as [? ?].
    split; by apply Hfresh.
Qed.

Lemma lambda_effect_is_fresh_witness :
  let expr :=
    EFunction ["f"; "x"]
      [ELetBindings
         [("y", ETypeAnnotation (mkTypeWithWildcards (TVar "_a" false))
                  (EVariableReference "x" tt) tt)]
         [EFunctionCall (EVariableReference "f" tt) [EVariableReference "y" tt] tt]
         tt]
      tt in
  exists r n',
    infer expr [] ∅ 0 = Ok (r, n') /\
    generatedIn 0 n' (effect (info (result r))) /\
    forall c, c ∈ constraints r -> tvarName n' ∉ constraintVariables c.
Proof.
  eexists _, _. split; [vm_compute; reflexivity|].
  edestruct (lambda_effect_is_fresh ∅ ["f"; "x"]
    [ELetBindings
       [("y", ETypeAnnotation (mkTypeWithWildcards (TVar "_a" false))
                (EVariableReference "x" tt) tt)]
       [EFunctionCall (EVariableReference "f" tt) [EVariableReference "y" tt] tt]
       tt]
    tt [] 0) as (_ & _ & Hg & _ & Hc & _);
    [apply map_Forall_empty
    |constructor; [intros j _; discriminate|constructor]
    |constructor
    |vm_compute; reflexivity|].
  split; [exact Hg|exact Hc].
Defined.

(** C5, as the specification states it, would keep the effect of every
    lambda out of its constraints. In [(lambda (x) (the t5 x))] the
    annotation names its type variable as the source names the effect of
    the lambda, and the constraint that equates the use of [x] with the
    annotation mentions that name. *)
Lemma lambda_effect_named_in_annotation :
  let expr :=
    EFunction ["x"]
      [ETypeAnnotation (mkTypeWithWildcards (TVar "t5" true))
         (EVariableReference "x" tt) tt] tt in
  exists r n' c,
    infer expr [] ∅ 0 = Ok (r, n') /\
    effect (info (result r)) = tVar "t5" false /\
    c ∈ constraints r /\
    "t5" ∈ constraintVariables c.
Proof.
  eexists _, _, _. split; [vm_compute; reflexivity|].
  split; [reflexivity|].
  split; [cbn [constraints]; apply list_elem_of_here|].
  vm_compute. apply list_elem_of_further, list_elem_of_further.
  apply list_elem_of_here.
Qed.

(** * Further properties *)

(** ** The typed tree is the input with annotations *)

Lemma mapM_Gen_Forall2 {A B} (Q : A -> B -> Prop) (f : A -> Gen B) (l : list A) :
  Forall (fun x => forall n y n', f x n = Ok (y, n') -> Q x y) l ->
  forall n ys n', mapM f l n = Ok (ys, n') -> Forall2 Q l ys.
Proof.
  induction 1 as [|x l Hx _ IH]; intros n ys n' H.
  - apply Gen_ret_Ok in H as [= -> ->]. constructor.
  - rewrite mapM_Gen_cons in H.
    apply Gen_bind_Ok in H as (y & n1 & Hy & H).
    apply Gen_bind_Ok in H as (ys' & n2 & Hys & H).
    apply Gen_ret_Ok in H as [= -> ->].
    constructor; [by eapply Hx|by eapply IH].
Qed.

Lemma Forall2_map_eq {A B} (f : B -> A) (l : list A) (k : list B) :
  Forall2 (fun x y => f y = x) l k -> map f k = l.
Proof. induction 1; simpl; congruence. Qed.

Lemma inferManyWith_erase {A} (erase : Expression Typed -> A)
    (f : A -> Gen (InferResult (Expression Typed))) (l : list A) :
  Forall (fun x => forall n r n', f x n = Ok (r, n') -> erase (result r) = x) l ->
  forall n r n', inferManyWith f l n = Ok (r, n') -> map erase (result r) = l.
Proof.
  intros Hl n r n' H. unfold inferManyWith in H.
  inv_bind H rs n1 Hrs. inv_ret H. simpl.
  rewrite map_map. apply (Forall2_map_eq (fun y => erase (result y))).
  by eapply mapM_Gen_Forall2.
Qed.

Lemma infer_eraseInfo (internalTypes : gmap string Monotype) (expr : Expression unit) :
  forall monovars n r n',
    infer expr monovars internalTypes n = Ok (r, n') ->
    eraseInfo (result r) = expr.
Proof.
  induction expr as
    [i|v i|v i|values i IHvalues|fields ext i IHfields IHext|name i
    |c t e i IHc IHt IHe|args body i IHbody|fn args i IHfn IHargs
    |bindings body i IHbindings IHbody|ty value i IHvalue
    |body returning i IHbody IHreturning|value cases i IHvalue IHcases]
    using Expression_Forall_ind; intros monovars n r n' H; destruct i;
    simpl in H.
  - inv_fresh H t n1 Ht. inv_fresh H eff n2 Heff. by inv_ret H.
  - inv_fresh H eff n1 Heff. by inv_ret H.
  - inv_fresh H eff n1 Heff. by inv_ret H.
  - inv_bind H vs n1 Hvs. inv_fresh H t n2 Ht. inv_fresh H eff n3 Heff. inv_ret H.
    unfold eraseInfo. simpl. f_equal.
    eapply (inferManyWith_erase eraseInfo); [|exact Hvs].
    eapply Forall_impl; [exact IHvalues|]. intros x Hx m y m'. apply Hx.
  - inv_bind H inferred n1 Hinf. inv_bind H tailInferred n2 Htail.
    inv_fresh H tailRowType n3 Hrow. inv_fresh H eff n4 Heff.
    inv_bind H tailConstraint n5 Htc. inv_ret H.
    unfold eraseInfo. simpl. f_equal.
    + rewrite map_map. simpl.
      apply (Forall2_map_eq
        (fun y : string * InferResult (Expression Typed) =>
           (y.1, eraseInfo (result y.2)))).
      eapply mapM_Gen_Forall2; [|exact Hinf].
      eapply Forall_impl; [exact IHfields|].
      intros [label value] Hx m y m' Hy. simpl in *.
      inv_bind Hy iv m1 Hiv. inv_ret Hy. simpl. f_equal. by eapply Hx.
    + destruct ext as [tail|]; simpl in *.
      * inv_bind Htail it m1 Hit. inv_ret Htail. simpl. f_equal. by eapply IHext.
      * by inv_ret Htail.
  - inv_fresh H t n1 Ht. inv_fresh H eff n2 Heff. by inv_ret H.
  - inv_bind H rc n1 Hc. inv_bind H rt n2 Ht. inv_bind H re n3 He.
    inv_fresh H t' n4 Ht'. inv_fresh H eff n5 Heff. inv_ret H.
    unfold eraseInfo. simpl. f_equal; [by eapply IHc|by eapply IHt|by eapply IHe].
  - inv_bind H argtypes n1 Hargs. inv_bind H bodyInference n2 Hbody.
    inv_fresh H bodyEffect n3 Hbe. inv_bind H out n4 Hout.
    inv_fresh H eff n5 Heff. inv_ret H.
    unfold eraseInfo. simpl. f_equal.
    eapply (inferManyWith_erase eraseInfo); [|exact Hbody].
    eapply Forall_impl; [exact IHbody|]. intros x Hx m y m'. apply Hx.
  - inv_bind H ifn n1 Hfn. inv_bind H iargs n2 Hargs.
    inv_fresh H tTo n3 Hto. inv_fresh H eff n4 Heff. inv_ret H.
    unfold eraseInfo. simpl. f_equal; [by eapply IHfn|].
    eapply (inferManyWith_erase eraseInfo); [|exact Hargs].
    eapply Forall_impl; [exact IHargs|]. intros x Hx m y m'. apply Hx.
  - inv_bind H bindingsInfo n1 Hbi. inv_bind H bodyInference n2 Hbody.
    inv_fresh H eff n3 Heff. inv_bind H t n4 Ht. inv_ret H.
    unfold eraseInfo. simpl. f_equal.
    + rewrite map_map. simpl.
      apply (Forall2_map_eq
        (fun y : string * InferResult (Expression Typed) =>
           (y.1, eraseInfo (result y.2)))).
      eapply mapM_Gen_Forall2; [|exact Hbi].
      eapply Forall_impl; [exact IHbindings|].
      intros [variable value] Hx m y m' Hy. simpl in *.
      inv_bind Hy iv m1 Hiv. inv_ret Hy. simpl. f_equal. by eapply Hx.
    + eapply (inferManyWith_erase eraseInfo); [|exact Hbody].
      eapply Forall_impl; [exact IHbody|]. intros x Hx m y m'. apply Hx.
  - inv_bind H inferred n1 Hinf. inv_bind H instantiated n2 Hinst.
    inv_bind H t n3 Ht. inv_ret H.
    unfold eraseInfo. simpl. f_equal. by eapply IHvalue.
  - inv_bind H rbody n1 Hbody. inv_bind H rret n2 Hret.
    inv_fresh H eff n3 Heff. inv_ret H.
    unfold eraseInfo. simpl. f_equal; [|by eapply IHreturning].
    eapply (inferManyWith_erase eraseInfo); [|exact Hbody].
    eapply Forall_impl; [exact IHbody|]. intros x Hx m y m'. apply Hx.
  - inv_bind H rvalue n1 Hvalue. inv_bind H cases' n2 Hcases.
    inv_fresh H t n3 Ht. inv_fresh H eff n4 Heff.
    inv_bind H variantTypes n5 Hvt. inv_bind H caseConstraints n6 Hcc. inv_ret H.
    unfold eraseInfo. simpl. f_equal; [by eapply IHvalue|].
    rewrite map_map. simpl.
    apply (Forall2_map_eq
      (fun y : string * string * InferResult (list (Expression Typed)) =>
         (y.1.1, y.1.2, map eraseInfo (result y.2)))).
    eapply mapM_Gen_Forall2; [|exact Hcases].
    eapply Forall_impl; [exact IHcases|].
    intros [[label variable] cbody] Hx m y m' Hy. simpl in *.
    inv_bind Hy iv m1 Hiv. inv_ret Hy. simpl. f_equal.
    eapply (inferManyWith_erase eraseInfo); [|exact Hiv].
    eapply Forall_impl; [exact Hx|]. intros x Hx' k y k'. apply Hx'.
Qed.

(** X1: the typed tree the generator returns is its input with annotations
    added; forgetting the annotations gives the input back, node for node. *)
Theorem infer_annotates_input (expr : Expression unit) (monovars : list string)
    (internalTypes : gmap string Monotype) (n n' : nat)
    (r : InferResult (Expression Typed)) :
  infer expr monovars internalTypes n = Ok (r, n') ->
  eraseInfo (result r) = expr.
Proof. apply infer_eraseInfo. Qed.

Lemma infer_annotates_input_witness :
  let expr :=
    ELetBindings [("id", EFunction ["x"] [EVariableReference "x" tt] tt)]
      [EFunctionCall (EVariableReference "id" tt) [ENumber 1 tt] tt] tt in
  exists r n',
    infer expr [] ∅ 0 = Ok (r, n') /\ eraseInfo (result r) = expr.
Proof.
  eexists _, _. split; [vm_compute; reflexivity|].
  eapply (infer_annotates_input
    (ELetBindings [("id", EFunction ["x"] [EVariableReference "x" tt] tt)]
       [EFunctionCall (EVariableReference "id" tt) [ENumber 1 tt] tt] tt)
    [] ∅ 0).
  vm_compute; reflexivity.
Defined.

(** X2: [inferMany] runs the generator on every expression with the same
    monomorphic variables and keeps the order: the typed forms, the
    constraints and the assumptions are those of the single results,
    concatenated in the order of the expressions, and the typed forms are
    the expressions with annotations added. *)
Theorem inferMany_in_order (exprs : list (Expression unit))
    (monovars : list string) (internalTypes : gmap string Monotype) (n n' : nat)
    (r : InferResult (list (Expression Typed))) :
  inferMany exprs monovars internalTypes n = Ok (r, n') ->
  exists results,
    Forall2 (fun e i =>
      exists k k', infer e monovars internalTypes k = Ok (i, k')) exprs results /\
    result r = map result results /\
    constraints r = concat (map constraints results) /\
    assumptions r = concat (map assumptions results) /\
    map eraseInfo (result r) = exprs.
Proof.
  intros H. assert (H' := H). unfold inferMany, inferManyWith in H.
  inv_bind H results n1 Hresults. inv_ret H.
  exists results. split; [|repeat (split; [done|])].
  - eapply mapM_Gen_Forall2; [|exact Hresults].
    apply Forall_forall. intros e _ k i k' Hi. by exists k, k'.
  - eapply (inferManyWith_erase eraseInfo); [|exact H'].
    apply Forall_forall. intros e _ k i k'. apply infer_eraseInfo.
Qed.

Lemma inferMany_in_order_witness :
  let exprs := [EVariableReference "f" tt; ENumber 1 tt; EVariableReference "x" tt] in
  exists r n',
    inferMany exprs [] ∅ 0 = Ok (r, n') /\
    map eraseInfo (result r) = exprs.
Proof.
  eexists _, _. split; [vm_compute; reflexivity|].
  edestruct (inferMany_in_order
    [EVariableReference "f" tt; ENumber 1 tt; EVariableReference "x" tt] [] ∅ 0)
    as (results & _ & _ & _ & _ & H); [vm_compute; reflexivity|].
  exact H.
Defined.

(** ** The exceptions of the generator *)

Lemma Gen_bind_Throw {A B} (m : Gen A) (f : A -> Gen B) (n : nat) (e : Exception) :
  (m ≫= f) n = Throw e ->
  m n = Throw e \/ exists a n', m n = Ok (a, n') /\ f a n' = Throw e.
Proof.
  rewrite Gen_bind_unfold. destruct (m n) as [[a n']|e'].
  - intros H. right. by exists a, n'.
  - intros [= ->]. by left.
Qed.

Lemma mapM_Gen_Throw {A B} (f : A -> Gen B) (l : list A) (e : Exception) :
  forall n, mapM f l n = Throw e -> exists x k, x ∈ l /\ f x k = Throw e.
Proof.
  induction l as [|x l IH]; intros n H; [discriminate|].
  rewrite mapM_Gen_cons in H.
  apply Gen_bind_Throw in H as [H|(y & n1 & Hy & H)].
  - exists x, n. split; [apply list_elem_of_here|done].
  - apply Gen_bind_Throw in H as [H|(ys & n2 & Hys & H)]; [|discriminate].
    destruct (IH _ H) as (x' & k & Hx' & Hk).
    exists x', k. split; [by apply list_elem_of_further|done].
Qed.

Lemma liftRes_Throw {A} (x : Res A) (n : nat) (e : Exception) :
  liftRes x n = Throw e -> x = Throw e.
Proof. destruct x; simpl; [discriminate|]. by intros [= ->]. Qed.

Lemma inferManyWith_Throw {A}
    (f : A -> Gen (InferResult (Expression Typed))) (l : list A) (e : Exception)
    (n : nat) :
  inferManyWith f l n = Throw e -> exists x k, x ∈ l /\ f x k = Throw e.
Proof.
  unfold inferManyWith. intros H.
  apply Gen_bind_Throw in H as [H|(rs & n1 & _ & H)]; [|discriminate].
  by eapply mapM_Gen_Throw.
Qed.

Lemma lastInfoType_Throw (forms : list (Expression Typed)) (e : Exception) :
  lastInfoType forms = Throw e -> e ∈ generatorExceptions.
Proof.
  unfold lastInfoType. destruct (last forms); [discriminate|].
  intros [= <-]. unfold generatorExceptions. set_solver.
Qed.

Lemma expandTypeAliases_Throw (t : Monotype) (env : gmap string Monotype)
    (e : Exception) :
  expandTypeAliases t env = Throw e -> e ∈ generatorExceptions.
Proof.
  intros H. destruct (expandDepth_Throw _ _ _ _ H) as [->|[-> _]];
    unfold generatorExceptions; set_solver.
Qed.

(** The labels of the variant types are those of the cases, so the lookup
    of a case's label does not fail. *)
Lemma matchCaseConstraints_Throw (variantTypes : list (string * Monotype))
    (t : Monotype) (c : string * string * InferResult (list (Expression Typed)))
    (e : Exception) :
  c.1.1 ∈ map fst variantTypes ->
  matchCaseConstraints variantTypes t c = Throw e -> e ∈ generatorExceptions.
Proof.
  destruct c as [[label variable] inference]. simpl. intros Hlabel H.
  destruct (last (result inference)) as [form|].
  2:{ injection H as <-. unfold generatorExceptions. set_solver. }
  destruct (mapM _ (assumptions inference)) as [bound|e'] eqn:E; [discriminate|].
  injection H as ->. apply mapM_Res_Throw in E as (a & _ & Ha).
  case_bool_decide; [|discriminate].
  destruct (find_bool_decide_Some fst label variantTypes Hlabel)
    as (k & x & Hfind & _).
  by rewrite Hfind in Ha.
Qed.

Lemma Forall2_fmap_eq {A B C} (f : A -> C) (g : B -> C) (l : list A) (k : list B) :
  Forall2 (fun x y => g y = f x) l k -> map g k = map f l.
Proof. induction 1; simpl; congruence. Qed.

Ltac throw_step H := apply Gen_bind_Throw in H as [H|(? & ? & ? & H)].

Lemma infer_Throw (internalTypes : gmap string Monotype) (expr : Expression unit) :
  forall monovars n e,
    infer expr monovars internalTypes n = Throw e -> e ∈ generatorExceptions.
Proof.
  induction expr as
    [i|v i|v i|values i IHvalues|fields ext i IHfields IHext|name i
    |c t e i IHc IHt IHe|args body i IHbody|fn args i IHfn IHargs
    |bindings body i IHbindings IHbody|ty value i IHvalue
    |body returning i IHbody IHreturning|value cases i IHvalue IHcases]
    using Expression_Forall_ind; intros monovars n e' H; simpl in H.
  - do 2 (throw_step H; [discriminate|]). discriminate.
  - throw_step H; [discriminate|]. discriminate.
  - throw_step H; [discriminate|]. discriminate.
  - throw_step H.
    { apply inferManyWith_Throw in H as (x1 & k1 & Hx & H).
      rewrite Forall_forall in IHvalues. by eapply IHvalues. }
    do 2 (throw_step H; [discriminate|]). discriminate.
  - throw_step H.
    { apply mapM_Gen_Throw in H as ([label value] & k1 & Hx & H).
      throw_step H; [|discriminate].
      rewrite Forall_forall in IHfields. by eapply (IHfields _ Hx). }
    throw_step H.
    { destruct ext as [tail|]; simpl in *; [|discriminate].
      throw_step H; [|discriminate]. by eapply IHext. }
    do 2 (throw_step H; [discriminate|]).
    throw_step H; [|discriminate].
    match goal with x : option (InferResult _) |- _ => destruct x end;
      [|discriminate].
    throw_step H; [|discriminate].
    apply mapM_Gen_Throw in H as (x1 & k1 & _ & H).
    throw_step H; discriminate.
  - do 2 (throw_step H; [discriminate|]). discriminate.
  - throw_step H; [by eapply IHc|]. throw_step H; [by eapply IHt|].
    throw_step H; [by eapply IHe|].
    do 2 (throw_step H; [discriminate|]). discriminate.
  - throw_step H.
    { apply mapM_Gen_Throw in H as (x1 & k1 & _ & H). discriminate. }
    throw_step H.
    { apply inferManyWith_Throw in H as (x1 & k1 & Hx & H).
      rewrite Forall_forall in IHbody. by eapply IHbody. }
    throw_step H; [discriminate|].
    throw_step H.
    { apply liftRes_Throw in H. by eapply lastInfoType_Throw. }
    throw_step H; [discriminate|]. discriminate.
  - throw_step H; [by eapply IHfn|].
    throw_step H.
    { apply inferManyWith_Throw in H as (x1 & k1 & Hx & H).
      rewrite Forall_forall in IHargs. by eapply IHargs. }
    do 2 (throw_step H; [discriminate|]). discriminate.
  - throw_step H.
    { apply mapM_Gen_Throw in H as ([variable value] & k1 & Hx & H).
      throw_step H; [|discriminate].
      rewrite Forall_forall in IHbindings. by eapply (IHbindings _ Hx). }
    throw_step H.
    { apply inferManyWith_Throw in H as (x1 & k1 & Hx & H).
      rewrite Forall_forall in IHbody. by eapply IHbody. }
    throw_step H; [discriminate|].
    throw_step H; [|discriminate].
    apply liftRes_Throw in H. by eapply lastInfoType_Throw.
  - throw_step H; [by eapply IHvalue|].
    throw_step H.
    { unfold instantiate in H. destruct ty as [tbody].
      by destruct (instantiateIn tbody [] _) as [[? ?] ?]. }
    throw_step H; [|discriminate].
    apply liftRes_Throw in H. by eapply expandTypeAliases_Throw.
  - throw_step H.
    { apply inferManyWith_Throw in H as (x1 & k1 & Hx & H).
      rewrite Forall_forall in IHbody. by eapply IHbody. }
    throw_step H; [by eapply IHreturning|].
    throw_step H; [discriminate|]. discriminate.
  - throw_step H; [by eapply IHvalue|].
    apply Gen_bind_Throw in H as [H|(cases' & n2 & Hcases & H)].
    { apply mapM_Gen_Throw in H as ([[label variable] cbody] & k1 & Hx & H).
      throw_step H; [|discriminate].
      apply inferManyWith_Throw in H as (y1 & k2 & Hy & H).
      rewrite Forall_forall in IHcases. specialize (IHcases _ Hx). simpl in IHcases.
      rewrite Forall_forall in IHcases. by eapply IHcases. }
    do 2 (throw_step H; [discriminate|]).
    apply Gen_bind_Throw in H as [H|(variantTypes & n5 & Hvt & H)].
    { apply mapM_Gen_Throw in H as ([[label variable] cbody] & k1 & _ & H).
      throw_step H; discriminate. }
    throw_step H; [|discriminate].
    apply liftRes_Throw in H. apply mapM_Res_Throw in H as (c & Hc & H).
    eapply matchCaseConstraints_Throw; [|exact H].
    eapply (mapM_Gen_Forall2
      (fun (c : string * string * list (Expression unit))
           (c' : string * string * InferResult (list (Expression Typed))) =>
         c'.1.1 = c.1.1)) in Hcases.
    2:{ apply Forall_forall. intros [[label variable] cbody] _ m y m' Hy.
        inv_bind Hy iv m1 Hiv. by inv_ret Hy. }
    eapply (mapM_Gen_Forall2
      (fun (c : string * string * list (Expression unit))
           (v : string * Monotype) => v.1 = c.1.1)) in Hvt.
    2:{ apply Forall_forall. intros [[label variable] cbody] _ m y m' Hy.
        inv_fresh Hy v m1 Hv. by inv_ret Hy. }
    apply (Forall2_fmap_eq (fun c => c.1.1) (fun c' => c'.1.1)) in Hcases.
    apply (Forall2_fmap_eq (fun c => c.1.1) fst) in Hvt.
    rewrite Hvt, <- Hcases.
    by apply (list_elem_of_fmap_2
      (fun c' : string * string * InferResult (list (Expression Typed)) => c'.1.1)).
Qed.

(** X3: the generator raises nothing but the invariant violation of a
    [match] case without forms, the type error of reading the last form of
    an empty body, the stack overflow of expanding cyclic aliases, and the
    type error of expanding a constant that is read from
    [Object.prototype]. In particular the lookup of the variant of a case
    never fails, so "Unknown invariant case" is never raised. *)
Theorem infer_exceptions (expr : Expression unit) (monovars : list string)
    (internalTypes : gmap string Monotype) (n : nat) (e : Exception) :
  infer expr monovars internalTypes n = Throw e ->
  e = InvariantViolation "Missing returning form!" \/
  e = TypeError "Cannot read property 'info' of undefined" \/
  e = RangeError "Maximum call stack size exceeded" \/
  e = TypeError "Cannot read property 'tag' of undefined".
Proof.
  intros H. apply infer_Throw in H. unfold generatorExceptions in H.
  apply elem_of_cons in H as [->|H]; [by left|].
  apply elem_of_cons in H as [->|H]; [right; by left|].
  apply elem_of_cons in H as [->|H]; [right; right; by left|].
  apply list_elem_of_singleton in H as ->. right. right. by right.
Qed.

Lemma infer_exceptions_witness :
  exists e,
    infer (ETypeAnnotation (mkTypeWithWildcards (TConstant "constructor"))
             (ENumber 1 tt) tt) [] ∅ 0 = Throw e /\
    (e = InvariantViolation "Missing returning form!" \/
     e = TypeError "Cannot read property 'info' of undefined" \/
     e = RangeError "Maximum call stack size exceeded" \/
     e = TypeError "Cannot read property 'tag' of undefined").
Proof.
  eexists. split; [vm_compute; reflexivity|].
  eapply (infer_exceptions
    (ETypeAnnotation (mkTypeWithWildcards (TConstant "constructor"))
       (ENumber 1 tt) tt) [] ∅ 0).
  vm_compute; reflexivity.
Defined.


(** ** One type variable for every use *)

Lemma usesIn_nil (n n' : nat) : usesIn n n' [].
Proof. split; constructor. Qed.

Lemma usesIn_widen (lo hi n n' : nat) (l : list TAssumption) :
  lo <= n -> n' <= hi -> usesIn n n' l -> usesIn lo hi l.
Proof.
  intros Hlo Hhi [Hg Hd]. split; [|done].
  eapply Forall_impl; [exact Hg|]. intros a (j & Hj & E). exists j. split; [lia|done].
Qed.

Lemma usesIn_app (a b c d : nat) (l1 l2 : list TAssumption) :
  b <= c \/ d <= a -> usesIn a b l1 -> usesIn c d l2 ->
  usesIn (a `min` c) (b `max` d) (l1 ++ l2).
Proof.
  intros Hsep [Hg1 Hd1] [Hg2 Hd2]. split.
  - apply Forall_app. split.
    + eapply Forall_impl; [exact Hg1|]. intros x (j & Hj & E). exists j. split; [lia|done].
    + eapply Forall_impl; [exact Hg2|]. intros x (j & Hj & E). exists j. split; [lia|done].
  - rewrite map_app. apply NoDup_app. split; [done|]. split; [|done].
    intros t Ht1 Ht2.
    apply list_elem_of_fmap in Ht1 as (x1 & -> & Hx1).
    apply list_elem_of_fmap in Ht2 as (x2 & E & Hx2).
    rewrite Forall_forall in Hg1, Hg2.
    destruct (Hg1 _ Hx1) as (j1 & Hj1 & E1). destruct (Hg2 _ Hx2) as (j2 & Hj2 & E2).
    rewrite E1, E2 in E. assert (E' := f_equal tvarNodeName E).
    change (tvarName j1 = tvarName j2) in E'. apply tvarName_inj in E'. lia.
Qed.

Lemma usesIn_app_seq (n n1 n2 : nat) (l1 l2 : list TAssumption) :
  n <= n1 -> n1 <= n2 -> usesIn n n1 l1 -> usesIn n1 n2 l2 ->
  usesIn n n2 (l1 ++ l2).
Proof.
  intros H1 H2 U1 U2.
  eapply usesIn_widen; [| |apply (usesIn_app n n1 n1 n2); [lia|done|done]]; lia.
Qed.

(** The later uses listed first, as in the assumptions of a [let]. *)
Lemma usesIn_app_rev (n n1 n2 : nat) (l1 l2 : list TAssumption) :
  n <= n1 -> n1 <= n2 -> usesIn n n1 l1 -> usesIn n1 n2 l2 ->
  usesIn n n2 (l2 ++ l1).
Proof.
  intros H1 H2 U1 U2.
  eapply usesIn_widen; [| |apply (usesIn_app n1 n2 n n1); [lia|done|done]]; lia.
Qed.

Lemma usesIn_filter (p : TAssumption -> bool) (n n' : nat) (l : list TAssumption) :
  usesIn n n' l -> usesIn n n' (List.filter p l).
Proof.
  intros [Hg Hd]. split.
  - apply Forall_forall. intros x Hx. apply filter_elem_of in Hx as [Hx _].
    rewrite Forall_forall in Hg. by apply Hg.
  - clear Hg. induction l as [|x l IH]; simpl; [constructor|].
    apply NoDup_cons in Hd as [Hx Hd].
    destruct (p x); simpl; [|by apply IH].
    constructor; [|by apply IH].
    intros Hin. apply Hx.
    apply list_elem_of_fmap in Hin as (y & E & Hy).
    apply filter_elem_of in Hy as [Hy _].
    apply list_elem_of_fmap. by exists y.
Qed.

Lemma mapM_usesIn {A B} (f : A -> Gen B) (g : B -> list TAssumption) (l : list A) :
  Forall (fun x => forall n y n', f x n = Ok (y, n') -> n <= n' /\ usesIn n n' (g y)) l ->
  forall n ys n', mapM f l n = Ok (ys, n') -> n <= n' /\ usesIn n n' (flatMap g ys).
Proof.
  induction 1 as [|x l Hx _ IH]; intros n ys n' H.
  - apply Gen_ret_Ok in H as [= -> ->]. split; [lia|apply usesIn_nil].
  - rewrite mapM_Gen_cons in H.
    inv_bind H y n1 Hy. inv_bind H ys' n2 Hys. inv_ret H.
    destruct (Hx _ _ _ Hy) as [Hn1 Uy]. destruct (IH _ _ _ Hys) as [Hn2 Uys].
    split; [lia|]. unfold flatMap. simpl. by eapply usesIn_app_seq.
Qed.

Lemma inferManyWith_usesIn {A}
    (f : A -> Gen (InferResult (Expression Typed))) (l : list A) :
  Forall (fun x => forall n r n', f x n = Ok (r, n') ->
            n <= n' /\ usesIn n n' (assumptions r)) l ->
  forall n r n', inferManyWith f l n = Ok (r, n') ->
    n <= n' /\ usesIn n n' (assumptions r).
Proof.
  intros Hl n r n' H. unfold inferManyWith in H.
  inv_bind H rs n1 Hrs. inv_ret H. simpl.
  by eapply (mapM_usesIn f assumptions).
Qed.

Lemma mapM_generate_le {A B} (f : A -> Monotype -> B) (l : list A) :
  forall n ys n',
    mapM (fun x => v ← generateUniqueTVar; mret (f x v)) l n = Ok (ys, n') ->
    n' = n + length l.
Proof.
  induction l as [|x l IH]; intros n ys n' H.
  - apply Gen_ret_Ok in H as [= -> ->]. simpl. lia.
  - rewrite mapM_Gen_cons in H.
    inv_bind H y n1 Hy. inv_bind H ys' n2 Hys. inv_ret H.
    inv_fresh Hy v m Hv. inv_ret Hy. apply IH in Hys. simpl. lia.
Qed.

Lemma mapM_generate_plain_le {A} (l : list A) :
  forall n ys n',
    mapM (fun _ : A => generateUniqueTVar) l n = Ok (ys, n') -> n' = n + length l.
Proof.
  induction l as [|x l IH]; intros n ys n' H.
  - apply Gen_ret_Ok in H as [= -> ->]. simpl. lia.
  - rewrite mapM_Gen_cons in H.
    inv_bind H y n1 Hy. inv_bind H ys' n2 Hys. inv_ret H.
    apply generate_inv in Hy as (_ & -> & _). apply IH in Hys. simpl. lia.
Qed.

Lemma instantiateIn_le (t : Monotype) :
  forall seen n t' seen' n',
    instantiateIn t seen n = (t', seen', n') -> n <= n'.
Proof.
  induction t as [name|op IHop args IHargs|name us| |label lt IHlt ext IHext];
    intros seen n t' seen' n' H; simpl in H.
  - injection H as <- <- <-. lia.
  - destruct (instantiateIn op seen n) as [[op' seen1] n1] eqn:Hop.
    destruct (instantiateList instantiateIn args seen1 n1) as [[args' seen2] n2]
      eqn:Hargs.
    injection H as <- <- <-. apply IHop in Hop.
    apply list_all_Forall in IHargs.
    assert (n1 <= n2); [|lia].
    clear Hop IHop. revert seen1 n1 args' Hargs.
    induction IHargs as [|x l Hx _ IH]; intros seen1 n1 args' Hargs; simpl in Hargs.
    + injection Hargs as <- <- <-. lia.
    + destruct (instantiateIn x seen1 n1) as [[x' s1] m1] eqn:Hx1.
      destruct (instantiateList instantiateIn l s1 m1) as [[l' s2] m2] eqn:Hl.
      injection Hargs as <- <- <-. apply Hx in Hx1. apply IH in Hl. lia.
  - destruct (isWildcard name).
    + case_bool_decide.
      * injection H as <- <- <-. lia.
      * destruct (lookupAssoc name seen) as [v|]; injection H as <- <- <-; lia.
    + injection H as <- <- <-. lia.
  - injection H as <- <- <-. lia.
  - destruct (instantiateIn lt seen n) as [[lt' seen1] n1] eqn:Hlt.
    destruct (instantiateIn ext seen1 n1) as [[ext' seen2] n2] eqn:Hext.
    injection H as <- <- <-. apply IHlt in Hlt. apply IHext in Hext. lia.
Qed.

Lemma instantiate_le (ty : TypeWithWildcards) (n n' : nat) (t : Monotype) :
  instantiate ty n = Ok (t, n') -> n <= n'.
Proof.
  destruct ty as [b]. unfold instantiate.
  destruct (instantiateIn b [] n) as [[t' seen'] m] eqn:E.
  intros [= <- <-]. by eapply instantiateIn_le.
Qed.

Ltac usesIn_many IH :=
  eapply inferManyWith_usesIn;
  [eapply Forall_impl; [exact IH|]; intros ? Hx_ ? ? ?; apply Hx_|eassumption].

Lemma infer_usesIn (internalTypes : gmap string Monotype) (expr : Expression unit) :
  forall monovars n r n',
    infer expr monovars internalTypes n = Ok (r, n') ->
    n <= n' /\ usesIn n n' (assumptions r).
Proof.
  induction expr as
    [i|v i|v i|values i IHvalues|fields ext i IHfields IHext|name i
    |c t e i IHc IHt IHe|args body i IHbody|fn args i IHfn IHargs
    |bindings body i IHbindings IHbody|ty value i IHvalue
    |body returning i IHbody IHreturning|value cases i IHvalue IHcases]
    using Expression_Forall_ind; intros monovars n r n' H; simpl in H.
  - inv_fresh H t n1 Ht. inv_fresh H eff n2 Heff. inv_ret H.
    split; [lia|apply usesIn_nil].
  - inv_fresh H eff n1 Heff. inv_ret H. split; [lia|apply usesIn_nil].
  - inv_fresh H eff n1 Heff. inv_ret H. split; [lia|apply usesIn_nil].
  - inv_bind H vs n1 Hvs. inv_fresh H t n2 Ht. inv_fresh H eff n3 Heff. inv_ret H.
    simpl. assert (n <= n1 /\ usesIn n n1 (assumptions vs)) as [Hn1 U].
    { usesIn_many IHvalues. }
    split; [lia|]. eapply usesIn_widen; [| |exact U]; lia.
  - inv_bind H inferred n1 Hinf. inv_bind H tailInferred n2 Htail.
    inv_fresh H tailRowType n3 Hrow. inv_fresh H eff n4 Heff.
    inv_bind H tailConstraint n5 Htc. inv_ret H. simpl.
    apply (mapM_usesIn _ (fun i : string * InferResult (Expression Typed) =>
                            assumptions i.2)) in Hinf as [Hn1 U1].
    2:{ eapply Forall_impl; [exact IHfields|].
        intros [label value] Hx m y m' Hy. simpl in *.
        inv_bind Hy iv m1 Hiv. inv_ret Hy. simpl. by eapply Hx. }
    assert (n1 <= n2 /\ usesIn n1 n2 (from_option assumptions [] tailInferred))
      as [Hn2 U2].
    { destruct ext as [tail|]; simpl in *.
      - inv_bind Htail it m1 Hit. inv_ret Htail. simpl. by eapply IHext.
      - inv_ret Htail. split; [lia|apply usesIn_nil]. }
    assert (S (S n2) <= n5) as Hn5.
    { destruct tailInferred; simpl in *.
      - inv_bind Htc fr m1 Hfr. inv_ret Htc. apply mapM_generate_le in Hfr. lia.
      - inv_ret Htc. lia. }
    split; [lia|].
    eapply usesIn_widen; [| |exact (usesIn_app_seq _ _ _ _ _ Hn1 Hn2 U1 U2)]; lia.
  - inv_fresh H t n1 Ht. inv_fresh H eff n2 Heff. inv_ret H.
    split; [lia|]. simpl. split.
    + constructor; [|constructor]. simpl. exists (S n). split; [lia|done].
    + simpl. constructor; [|constructor]. apply not_elem_of_nil.
  - inv_bind H rc n1 Hc. inv_bind H rt n2 Ht. inv_bind H re n3 He.
    inv_fresh H t' n4 Ht'. inv_fresh H eff n5 Heff. inv_ret H. simpl.
    apply IHc in Hc as [Hn1 Uc]. apply IHt in Ht as [Hn2 Ut].
    apply IHe in He as [Hn3 Ue]. split; [lia|].
    eapply usesIn_widen; [exact (Nat.le_refl n)| |].
    2:{ eapply usesIn_app_seq; [exact Hn1| |exact Uc|].
        2:{ eapply usesIn_app_seq; [exact Hn2|exact Hn3|exact Ut|exact Ue]. }
        lia. }
    lia.
  - inv_bind H argtypes n1 Hargs. inv_bind H bodyInference n2 Hbody.
    inv_fresh H bodyEffect n3 Hbe. inv_bind H out n4 Hout.
    inv_fresh H eff n5 Heff. inv_ret H. simpl.
    apply mapM_generate_plain_le in Hargs.
    apply liftRes_Ok in Hout as [_ ->].
    assert (n1 <= n2 /\ usesIn n1 n2 (assumptions bodyInference)) as [Hn2 U].
    { usesIn_many IHbody. }
    split; [lia|]. apply usesIn_filter. eapply usesIn_widen; [| |exact U]; lia.
  - inv_bind H ifn n1 Hfn. inv_bind H iargs n2 Hargs.
    inv_fresh H tTo n3 Hto. inv_fresh H eff n4 Heff. inv_ret H. simpl.
    apply IHfn in Hfn as [Hn1 Ufn].
    assert (n1 <= n2 /\ usesIn n1 n2 (assumptions iargs)) as [Hn2 U].
    { usesIn_many IHargs. }
    split; [lia|].
    eapply usesIn_widen; [| |exact (usesIn_app_seq _ _ _ _ _ Hn1 Hn2 Ufn U)]; lia.
  - inv_bind H bindingsInfo n1 Hbi. inv_bind H bodyInference n2 Hbody.
    inv_fresh H eff n3 Heff. inv_bind H t n4 Ht. inv_ret H. simpl.
    apply liftRes_Ok in Ht as [_ ->].
    apply (mapM_usesIn _ (fun i : string * InferResult (Expression Typed) =>
                            assumptions i.2)) in Hbi as [Hn1 U1].
    2:{ eapply Forall_impl; [exact IHbindings|].
        intros [variable value] Hx m y m' Hy. simpl in *.
        inv_bind Hy iv m1 Hiv. inv_ret Hy. simpl. by eapply Hx. }
    assert (n1 <= n2 /\ usesIn n1 n2 (assumptions bodyInference)) as [Hn2 U].
    { usesIn_many IHbody. }
    split; [lia|].
    eapply usesIn_widen; [exact (Nat.le_refl n)| |].
    2:{ eapply usesIn_app_rev; [exact Hn1|exact Hn2|exact U1|].
        apply usesIn_filter. exact U. }
    lia.
  - inv_bind H inferred n1 Hinf. inv_bind H instantiated n2 Hinst.
    inv_bind H t n3 Ht. inv_ret H. simpl.
    apply liftRes_Ok in Ht as [_ ->].
    apply IHvalue in Hinf as [Hn1 U].
    assert (n1 <= n2) as Hn2.
    { by eapply instantiate_le. }
    split; [lia|]. eapply usesIn_widen; [| |exact U]; lia.
  - inv_bind H rbody n1 Hbody. inv_bind H rret n2 Hret.
    inv_fresh H eff n3 Heff. inv_ret H. simpl.
    assert (n <= n1 /\ usesIn n n1 (assumptions rbody)) as [Hn1 U].
    { usesIn_many IHbody. }
    apply IHreturning in Hret as [Hn2 Ur].
    split; [lia|].
    eapply usesIn_widen; [| |exact (usesIn_app_seq _ _ _ _ _ Hn1 Hn2 U Ur)]; lia.
  - inv_bind H rvalue n1 Hvalue. inv_bind H cases' n2 Hcases.
    inv_fresh H t n3 Ht. inv_fresh H eff n4 Heff.
    inv_bind H variantTypes n5 Hvt. inv_bind H caseConstraints n6 Hcc. inv_ret H.
    simpl. apply liftRes_Ok in Hcc as [_ ->].
    apply IHvalue in Hvalue as [Hn1 Uv].
    assert (n5 = S (S n2) + length cases) as Hn5.
    { clear -Hvt. revert Hvt. generalize (S (S n2)). revert variantTypes.
      induction cases as [|[[label variable] cbody] l IH]; intros ys n H.
      - apply Gen_ret_Ok in H as [= -> ->]. simpl. lia.
      - rewrite mapM_Gen_cons in H.
        inv_bind H y m1 Hy. inv_bind H ys' m2 Hys. inv_ret H.
        inv_fresh Hy v m Hv. inv_ret Hy. apply IH in Hys. simpl. lia. }
    apply (mapM_usesIn _
      (fun c : string * string * InferResult (list (Expression Typed)) =>
         List.filter (fun a => negb (bool_decide (aname a = c.1.2)))
           (assumptions c.2))) in Hcases as [Hn2 U].
    2:{ eapply Forall_impl; [exact IHcases|].
        intros [[label variable] cbody] Hx m y m' Hy. simpl in *.
        inv_bind Hy iv m1 Hiv. inv_ret Hy. simpl.
        assert (m <= m1 /\ usesIn m m1 (assumptions iv)) as [Hm U].
        { usesIn_many Hx. }
        split; [done|]. by apply usesIn_filter. }
    split; [lia|].
    eapply usesIn_widen; [| |exact (usesIn_app_seq _ _ _ _ _ Hn1 Hn2 Uv U)]; lia.
Qed.

(** X4: every use of a variable the generator leaves open carries a type
    variable of its own: the types of the assumptions are variables the
    source handed out during this run, and no two assumptions share
    theirs. *)
Theorem infer_assumptions_distinct (expr : Expression unit)
    (monovars : list string) (internalTypes : gmap string Monotype)
    (n n' : nat) (r : InferResult (Expression Typed)) :
  infer expr monovars internalTypes n = Ok (r, n') ->
  n <= n' /\
  Forall (fun a => generatedIn n n' (type (ainfo a))) (assumptions r) /\
  NoDup (map (fun a => type (ainfo a)) (assumptions r)).
Proof.
  intros H. apply infer_usesIn in H as [Hn [Hg Hd]]. by repeat split.
Qed.

Lemma infer_assumptions_distinct_witness :
  exists r n',
    infer (EFunctionCall (EVariableReference "f" tt)
             [EVariableReference "x" tt; EVariableReference "x" tt] tt)
      [] ∅ 0 = Ok (r, n') /\
    NoDup (map (fun a => type (ainfo a)) (assumptions r)).
Proof.
  eexists _, _. split; [vm_compute; reflexivity|].
  edestruct (infer_assumptions_distinct
    (EFunctionCall (EVariableReference "f" tt)
       [EVariableReference "x" tt; EVariableReference "x" tt] tt) [] ∅ 0)
    as (_ & _ & H); [vm_compute; reflexivity|].
  exact H.
Defined.

(** ** The assumptions are the free variables *)

Lemma map_filter_aname (p : string -> bool) (l : list TAssumption) :
  map aname (List.filter (fun v => p (aname v)) l) = List.filter p (map aname l).
Proof.
  induction l as [|a l IH]; [done|]. simpl.
  destruct (p (aname a)); simpl; by rewrite IH.
Qed.

Lemma mapM_names {A B} (f : A -> Gen B) (g : B -> list TAssumption)
    (fv : A -> list string) (l : list A) :
  Forall (fun x => forall n y n', f x n = Ok (y, n') -> map aname (g y) = fv x) l ->
  forall n ys n', mapM f l n = Ok (ys, n') ->
    map aname (flatMap g ys) = flat_map fv l.
Proof.
  induction 1 as [|x l Hx _ IH]; intros n ys n' H.
  - by apply Gen_ret_Ok in H as [= -> ->].
  - rewrite mapM_Gen_cons in H.
    inv_bind H y n1 Hy. inv_bind H ys' n2 Hys. inv_ret H.
    unfold flatMap. simpl. rewrite map_app. f_equal; [by eapply Hx|by eapply IH].
Qed.

Lemma inferManyWith_names {A}
    (f : A -> Gen (InferResult (Expression Typed))) (fv : A -> list string)
    (l : list A) :
  Forall (fun x => forall n r n', f x n = Ok (r, n') ->
            map aname (assumptions r) = fv x) l ->
  forall n r n', inferManyWith f l n = Ok (r, n') ->
    map aname (assumptions r) = flat_map fv l.
Proof.
  intros Hl n r n' H. unfold inferManyWith in H.
  inv_bind H rs n1 Hrs. inv_ret H. simpl.
  by eapply (mapM_names f assumptions).
Qed.

Ltac names_many IH :=
  eapply inferManyWith_names;
  [eapply Forall_impl; [exact IH|]; intros ? Hx_ ? ? ?; apply Hx_|eassumption].

Lemma infer_freeVariables (internalTypes : gmap string Monotype)
    (expr : Expression unit) :
  forall monovars n r n',
    infer expr monovars internalTypes n = Ok (r, n') ->
    map aname (assumptions r) = freeVariables expr.
Proof.
  induction expr as
    [i|v i|v i|values i IHvalues|fields ext i IHfields IHext|name i
    |c t e i IHc IHt IHe|args body i IHbody|fn args i IHfn IHargs
    |bindings body i IHbindings IHbody|ty value i IHvalue
    |body returning i IHbody IHreturning|value cases i IHvalue IHcases]
    using Expression_Forall_ind; intros monovars n r n' H; simpl in H.
  - inv_fresh H t n1 Ht. inv_fresh H eff n2 Heff. by inv_ret H.
  - inv_fresh H eff n1 Heff. by inv_ret H.
  - inv_fresh H eff n1 Heff. by inv_ret H.
  - inv_bind H vs n1 Hvs. inv_fresh H t n2 Ht. inv_fresh H eff n3 Heff. inv_ret H.
    simpl. names_many IHvalues.
  - inv_bind H inferred n1 Hinf. inv_bind H tailInferred n2 Htail.
    inv_fresh H tailRowType n3 Hrow. inv_fresh H eff n4 Heff.
    inv_bind H tailConstraint n5 Htc. inv_ret H. simpl.
    rewrite map_app. f_equal.
    + eapply (mapM_names _ (fun i : string * InferResult (Expression Typed) =>
                              assumptions i.2)); [|exact Hinf].
      eapply Forall_impl; [exact IHfields|].
      intros [label value] Hx m y m' Hy. simpl in *.
      inv_bind Hy iv m1 Hiv. inv_ret Hy. simpl. by eapply Hx.
    + destruct ext as [tail|]; simpl in *.
      * inv_bind Htail it m1 Hit. inv_ret Htail. simpl. by eapply IHext.
      * by inv_ret Htail.
  - inv_fresh H t n1 Ht. inv_fresh H eff n2 Heff. by inv_ret H.
  - inv_bind H rc n1 Hc. inv_bind H rt n2 Ht. inv_bind H re n3 He.
    inv_fresh H t' n4 Ht'. inv_fresh H eff n5 Heff. inv_ret H. simpl.
    rewrite !map_app. f_equal; [by eapply IHc|].
    f_equal; [by eapply IHt|by eapply IHe].
  - inv_bind H argtypes n1 Hargs. inv_bind H bodyInference n2 Hbody.
    inv_fresh H bodyEffect n3 Hbe. inv_bind H out n4 Hout.
    inv_fresh H eff n5 Heff. inv_ret H. simpl.
    rewrite (map_filter_aname (fun x => negb (includes args x))). f_equal.
    names_many IHbody.
  - inv_bind H ifn n1 Hfn. inv_bind H iargs n2 Hargs.
    inv_fresh H tTo n3 Hto. inv_fresh H eff n4 Heff. inv_ret H. simpl.
    rewrite map_app. f_equal; [by eapply IHfn|]. names_many IHargs.
  - inv_bind H bindingsInfo n1 Hbi. inv_bind H bodyInference n2 Hbody.
    inv_fresh H eff n3 Heff. inv_bind H t n4 Ht. inv_ret H. simpl.
    rewrite map_app. f_equal.
    + rewrite (map_filter_aname
        (fun x => negb (includes (map fst bindings) x))). f_equal.
      names_many IHbody.
    + eapply (mapM_names _ (fun i : string * InferResult (Expression Typed) =>
                              assumptions i.2)); [|exact Hbi].
      eapply Forall_impl; [exact IHbindings|].
      intros [variable value] Hx m y m' Hy. simpl in *.
      inv_bind Hy iv m1 Hiv. inv_ret Hy. simpl. by eapply Hx.
  - inv_bind H inferred n1 Hinf. inv_bind H instantiated n2 Hinst.
    inv_bind H t n3 Ht. inv_ret H. simpl. by eapply IHvalue.
  - inv_bind H rbody n1 Hbody. inv_bind H rret n2 Hret.
    inv_fresh H eff n3 Heff. inv_ret H. simpl.
    rewrite map_app. f_equal; [|by eapply IHreturning]. names_many IHbody.
  - inv_bind H rvalue n1 Hvalue. inv_bind H cases' n2 Hcases.
    inv_fresh H t n3 Ht. inv_fresh H eff n4 Heff.
    inv_bind H variantTypes n5 Hvt. inv_bind H caseConstraints n6 Hcc. inv_ret H.
    simpl. rewrite map_app. f_equal; [by eapply IHvalue|].
    eapply (mapM_names _
      (fun c : string * string * InferResult (list (Expression Typed)) =>
         List.filter (fun a => negb (bool_decide (aname a = c.1.2)))
           (assumptions c.2))); [|exact Hcases].
    eapply Forall_impl; [exact IHcases|].
    intros [[label variable] cbody] Hx m y m' Hy. simpl in *.
    inv_bind Hy iv m1 Hiv. inv_ret Hy. simpl.
    pose proof (map_filter_aname
      (fun x : string => negb (bool_decide (x = variable)))) as Hfilter.
    etransitivity; [apply Hfilter|].
    f_equal. names_many Hx.
Qed.

(** X5: the assumptions the generator returns are the free occurrences of
    variables of the expression, one assumption per occurrence: parameters
    are bound in the body of their function, the variables of a [let] in
    its body but not in the values of its bindings, and the variable of a
    [match] case in the body of the case. *)
Theorem infer_assumptions_are_free_variables (expr : Expression unit)
    (monovars : list string) (internalTypes : gmap string Monotype)
    (n n' : nat) (r : InferResult (Expression Typed)) :
  infer expr monovars internalTypes n = Ok (r, n') ->
  map aname (assumptions r) = freeVariables expr.
Proof. apply infer_freeVariables. Qed.

Lemma infer_assumptions_are_free_variables_witness :
  exists r n',
    infer
      (ELetBindings [("x", EVariableReference "x" tt)]
         [EFunction ["y"]
            [EFunctionCall (EVariableReference "f" tt)
               [EVariableReference "x" tt; EVariableReference "y" tt] tt] tt]
         tt) [] ∅ 0 = Ok (r, n') /\
    map aname (assumptions r) = ["f"; "x"].
Proof.
  eexists _, _. split; [vm_compute; reflexivity|].
  etransitivity;
    [eapply (infer_assumptions_are_free_variables
       (ELetBindings [("x", EVariableReference "x" tt)]
          [EFunction ["y"]
             [EFunctionCall (EVariableReference "f" tt)
                [EVariableReference "x" tt; EVariableReference "y" tt] tt] tt]
          tt) [] ∅ 0);
     vm_compute; reflexivity
    |vm_compute; reflexivity].
Defined.

(** ** Nothing returned is ahead of the counter *)

(** X6: whatever the generator returns mentions no name the source of fresh
    variables has yet to hand out: when the aliases, the annotations, the
    pattern variables and the monomorphic variables given to it do not,
    neither do the annotation of the result, the constraints and the
    assumptions; and the counter never goes back. *)
Theorem infer_mentions_no_future_variable (expr : Expression unit)
    (monovars : list string) (internalTypes : gmap string Monotype)
    (n n' : nat) (r : InferResult (Expression Typed)) :
  map_Forall (fun _ def => belowT n def) internalTypes ->
  Forall (olderName n) (inputNames expr) ->
  Forall (olderName n) monovars ->
  infer expr monovars internalTypes n = Ok (r, n') ->
  n <= n' /\ goodResult n' r.
Proof.
  intros Henv Hin Hmv H.
  exact (infer_below internalTypes n Henv expr Hin monovars n r n'
           (Nat.le_refl n) Hmv H).
Qed.

Lemma infer_mentions_no_future_variable_witness :
  exists r n',
    infer (EVector [EVariableReference "x" tt; ENumber 1 tt] tt) [] ∅ 0
      = Ok (r, n') /\
    goodResult n' r.
Proof.
  eexists _, _. split; [vm_compute; reflexivity|].
  edestruct (infer_mentions_no_future_variable
    (EVector [EVariableReference "x" tt; ENumber 1 tt] tt) [] ∅ 0)
    as [_ H];
    [apply map_Forall_empty|constructor|constructor|vm_compute; reflexivity|].
  exact H.
Defined.

(** ** Binding forms *)

Lemma mapM_generate_seq {A} (l : list A) :
  forall n ys n',
    mapM (fun _ : A => generateUniqueTVar) l n = Ok (ys, n') ->
    ys = map (fun k => tVar (tvarName k) false) (seq (S n) (length l)) /\
    n' = n + length l.
Proof.
  induction l as [|x l IH]; intros n ys n' H.
  - apply Gen_ret_Ok in H as [= -> ->]. simpl. split; [done|lia].
  - rewrite mapM_Gen_cons in H.
    inv_bind H y n1 Hy. inv_bind H ys' n2 Hys. inv_ret H.
    apply generate_inv in Hy as (-> & -> & _).
    apply IH in Hys as [-> ->]. simpl. split; [done|lia].
Qed.

Lemma indexOf_elem_of {A} `{EqDecision A} (x : A) (l : list A) :
  x ∈ l ->
  exists k, indexOf x l = Some k /\ l !! k = Some x /\
    forall k', k' < k -> l !! k' <> Some x.
Proof.
  induction l as [|y l IH]; intros Hx; [by apply elem_of_nil in Hx|]. simpl.
  case_bool_decide as Hy.
  - subst y. exists 0. split; [done|]. split; [done|]. intros; lia.
  - apply elem_of_cons in Hx as [->|Hx]; [done|].
    destruct (IH Hx) as (k & -> & Hk & Hfirst). exists (S k).
    split; [done|]. split; [done|].
    intros [|k'] Hlt; simpl; [congruence|]. apply Hfirst. lia.
Qed.

Lemma argTypeOf_generated (fnargs : list string) (n k : nat) (name : string) :
  indexOf name fnargs = Some k -> k < length fnargs ->
  argTypeOf fnargs
    (map (fun j => tVar (tvarName j) false) (seq (S n) (length fnargs))) name
  = tVar (tvarName (S n + k)) false.
Proof.
  intros Hk Hlt. unfold argTypeOf. rewrite Hk. simpl.
  rewrite list_lookup_fmap, lookup_seq_lt by done. done.
Qed.

Lemma map_tvarNodeName_generated (l : list nat) :
  map tvarNodeName (map (fun j => tVar (tvarName j) false) l) = map tvarName l.
Proof. by rewrite map_map. Qed.

(** X7: a function gives its parameters consecutive fresh type variables,
    in order, which are the argument types of its type and are added, by
    name, to the monomorphic variables of its body. Every use of a
    parameter in the body is equated with the variable of the first
    parameter of that name and does not escape; the other assumptions of
    the body escape unchanged. Every form of the body is given the effect
    in the type of the function, a variable generated after the body. *)
Theorem lambda_binds_parameters (fnargs : list string)
    (body : list (Expression unit)) (i : unit) (monovars : list string)
    (internalTypes : gmap string Monotype)
    (n n' : nat) (r : InferResult (Expression Typed)) :
  infer (EFunction fnargs body i) monovars internalTypes n = Ok (r, n') ->
  exists bodyInference n2 out,
    inferMany body (monovars ++ map tvarName (seq (S n) (length fnargs)))
      internalTypes (n + length fnargs) = Ok (bodyInference, n2) /\
    lastInfoType (result bodyInference) = Ok out /\
    type (info (result r)) =
      tFn (map (fun k => tVar (tvarName k) false) (seq (S n) (length fnargs)))
        (tVar (tvarName (S n2)) false) out /\
    (forall use, use ∈ assumptions bodyInference -> aname use ∈ fnargs ->
       exists k,
         fnargs !! k = Some (aname use) /\
         (forall k', k' < k -> fnargs !! k' <> Some (aname use)) /\
         constEqual (assumptionExpr use) (tVar (tvarName (S n + k)) false)
           ∈ constraints r) /\
    (forall form, form ∈ result bodyInference ->
       constEffect form (tVar (tvarName (S n2)) false) ∈ constraints r) /\
    assumptions r =
      List.filter (fun v => negb (includes fnargs (aname v)))
        (assumptions bodyInference) /\
    (forall use, use ∈ assumptions r -> aname use ∉ fnargs).
Proof.
  intros H. simpl in H.
  inv_bind H argtypes n1 Hargs. inv_bind H bodyInference n2 Hbody.
  inv_fresh H bodyEffect n3 Hbe. inv_bind H out n4 Hout.
  inv_fresh H eff n5 Heff. inv_ret H.
  apply mapM_generate_seq in Hargs as [-> ->].
  apply liftRes_Ok in Hout as [Hout ->].
  rewrite map_tvarNodeName_generated in Hbody.
  exists bodyInference, n2, out. simpl.
  split; [exact Hbody|]. split; [done|]. split; [done|].
  split; [|split; [|split; [done|]]].
  - intros use Huse Hname.
    destruct (indexOf_elem_of _ _ Hname) as (k & Hk & Hlookup & Hfirst).
    exists k. split; [done|]. split; [done|].
    apply elem_of_app. right. apply elem_of_app. left.
    apply list_elem_of_fmap. exists use. split.
    { f_equal. symmetry. apply argTypeOf_generated; [done|].
      by eapply lookup_lt_Some. }
    apply filter_elem_of. split; [done|]. by apply bool_decide_eq_true.
  - intros form Hform.
    apply elem_of_app. right. apply elem_of_app. right.
    by apply (list_elem_of_fmap_2
      (fun form => constEffect form (tVar (tvarName (S n2)) false))).
  - intros use Huse Hname. apply filter_elem_of in Huse as [_ Hp].
    apply negb_true_iff, bool_decide_eq_false in Hp. done.
Qed.

Lemma lambda_binds_parameters_witness :
  exists r n',
    infer (EFunction ["x"; "y"]
             [EFunctionCall (EVariableReference "f" tt)
                [EVariableReference "y" tt] tt] tt) [] ∅ 0 = Ok (r, n') /\
    forall use, use ∈ assumptions r -> aname use ∉ ["x"; "y"].
Proof.
  eexists _, _. split; [vm_compute; reflexivity|].
  edestruct (lambda_binds_parameters ["x"; "y"]
    [EFunctionCall (EVariableReference "f" tt) [EVariableReference "y" tt] tt]
    tt [] ∅ 0) as (bi & n2 & out & _ & _ & _ & _ & _ & _ & Hno);
    [vm_compute; reflexivity|].
  exact Hno.
Defined.

Lemma mapM_Res_Ok_elem {A B} (f : A -> Res B) (l : list A) (ys : list B) :
  mapM f l = Ok ys -> forall x, x ∈ l -> exists y, f x = Ok y /\ y ∈ ys.
Proof.
  revert ys. induction l as [|x l IH]; intros ys H y Hy;
    [by apply elem_of_nil in Hy|].
  rewrite mapM_Res_cons in H.
  apply Res_bind_Ok in H as (z & Hz & H).
  apply Res_bind_Ok in H as (zs & Hzs & H). injection H as <-.
  apply elem_of_cons in Hy as [->|Hy].
  - exists z. split; [done|apply list_elem_of_here].
  - destruct (IH _ Hzs _ Hy) as (w & Hw & Hin).
    exists w. split; [done|by apply list_elem_of_further].
Qed.

Lemma mapM_variantTypes {A B} (l : list (string * A * B)) :
  forall n ys n',
    mapM (fun c : string * A * B =>
            let '(label, _, _) := c in
            v ← generateUniqueTVar; mret (label, v)) l n = Ok (ys, n') ->
    map fst ys = map (fun c => c.1.1) l /\
    map snd ys = map (fun k => tVar (tvarName k) false) (seq (S n) (length l)) /\
    n' = n + length l.
Proof.
  induction l as [|[[label a] b] l IH]; intros n ys n' H.
  - apply Gen_ret_Ok in H as [= -> ->]. simpl. repeat split; lia.
  - rewrite mapM_Gen_cons in H.
    inv_bind H y n1 Hy. inv_bind H ys' n2 Hys. inv_ret H.
    inv_fresh Hy v m Hv. inv_ret Hy.
    apply IH in Hys as (E1 & E2 & ->). simpl. rewrite E1, E2. repeat split; lia.
Qed.

Lemma elem_of_concat {A} (ls : list (list A)) (l : list A) (x : A) :
  l ∈ ls -> x ∈ l -> x ∈ concat ls.
Proof.
  intros Hl Hx. rewrite list_elem_of_In, in_concat.
  exists l. by rewrite <- !list_elem_of_In.
Qed.

Lemma elem_of_flatMap {A B} (f : A -> list B) (l : list A) (x : A) (y : B) :
  x ∈ l -> y ∈ f x -> y ∈ flatMap f l.
Proof.
  intros Hx Hy. unfold flatMap. apply (elem_of_concat _ (f x)); [|done].
  by apply (list_elem_of_fmap_2 f).
Qed.

Lemma matchCaseConstraints_equalities (variantTypes : list (string * Monotype))
    (t : Monotype) (c : string * string * InferResult (list (Expression Typed)))
    (cs : list TConstraint) :
  matchCaseConstraints variantTypes t c = Ok cs ->
  Forall (fun c => exists e t', c = constEqual e t') cs.
Proof.
  destruct c as [[label variable] inference]. simpl.
  destruct (last (result inference)) as [form|]; [|discriminate].
  intros H. apply Res_bind_Ok in H as (bound & Hbound & [= <-]).
  constructor; [eauto|]. apply Forall_concat_list.
  eapply mapM_Res_Forall; [|exact Hbound].
  apply Forall_forall. intros a _ b Hb. case_bool_decide.
  - destruct (List.find _ variantTypes) as [variant|]; [|discriminate].
    injection Hb as <-. constructor; [eauto|constructor].
  - injection Hb as <-. constructor.
Qed.

(** X8: a [match] gives every case a fresh variant type variable, in the
    order of the cases after its own type and effect, and equates the
    matched value with the variant of these labels. In every case the last
    form is equated with the type of the [match], the variable of the case
    is added to the monomorphic variables of its body, and every use of
    that variable in the body is equated with the variant type of the first
    case of that label and does not escape. The [match] itself emits
    equalities only: no constraint relates the effect of the matched value
    or of a case body to the effect of the [match]. *)
Theorem match_binds_case_variables (value : Expression unit)
    (cases : list (string * string * list (Expression unit))) (i : unit)
    (monovars : list string) (internalTypes : gmap string Monotype)
    (n n' : nat) (r : InferResult (Expression Typed)) :
  infer (EMatch value cases i) monovars internalTypes n = Ok (r, n') ->
  exists rvalue n1 cases' n2 variantTypes,
    let t := tVar (tvarName (S n2)) false in
    infer value monovars internalTypes n = Ok (rvalue, n1) /\
    Forall2 (fun c c' =>
      c'.1 = c.1 /\
      exists m m',
        inferMany c.2 (monovars ++ [c.1.2]) internalTypes m = Ok (c'.2, m'))
      cases cases' /\
    type (info (result r)) = t /\
    map fst variantTypes = map (fun c => c.1.1) cases /\
    map snd variantTypes =
      map (fun k => tVar (tvarName k) false)
        (seq (S (S (S n2))) (length cases)) /\
    constEqual (result rvalue) (tVariant variantTypes) ∈ constraints r /\
    (forall c', c' ∈ cases' ->
       (exists form,
          last (result c'.2) = Some form /\ constEqual form t ∈ constraints r) /\
       (forall use, use ∈ assumptions c'.2 -> aname use = c'.1.2 ->
          exists v,
            lookupAssoc c'.1.1 variantTypes = Some v /\
            constEqual (assumptionExpr use) v ∈ constraints r)) /\
    assumptions r =
      assumptions rvalue
        ++ flatMap (fun c' =>
             List.filter (fun a => negb (bool_decide (aname a = c'.1.2)))
               (assumptions c'.2)) cases' /\
    (forall c, c ∈ constraints r ->
       c ∈ constraints rvalue \/
       c ∈ flatMap (fun c' => constraints c'.2) cases' \/
       exists e t', c = constEqual e t').
Proof.
  intros H. simpl in H.
  inv_bind H rvalue n1 Hvalue. inv_bind H cases' n2 Hcases.
  inv_fresh H t n3 Ht. inv_fresh H eff n4 Heff.
  inv_bind H variantTypes n5 Hvt. inv_bind H caseConstraints n6 Hcc. inv_ret H.
  apply liftRes_Ok in Hcc as [Hcc ->].
  exists rvalue, n1, cases', n2, variantTypes. simpl.
  split; [done|]. split; [|split; [done|]].
  { eapply mapM_Gen_Forall2; [|exact Hcases].
    apply Forall_forall. intros [[label variable] cbody] _ m y m' Hy.
    inv_bind Hy iv m1 Hiv. inv_ret Hy. simpl. split; [done|]. by exists m, m1. }
  assert (Hvt' := Hvt).
  apply mapM_variantTypes in Hvt' as (Hlabels & Hvars & _).
  split; [done|]. split; [done|]. split; [|split; [|split; [done|]]].
  - apply elem_of_app. right. apply elem_of_app. right. apply list_elem_of_here.
  - intros [[label variable] inference] Hc'. simpl.
    destruct (mapM_Res_Ok_elem _ _ _ Hcc _ Hc') as (cs & Hcs & Hin).
    simpl in Hcs.
    destruct (last (result inference)) as [form|]; [|discriminate].
    apply Res_bind_Ok in Hcs as (bound & Hbound & [= <-]).
    assert (Hsub : forall c, c ∈ constEqual form (tVar (tvarName (S n2)) false)
                                   :: concat bound ->
      c ∈ constraints rvalue
            ++ flatMap (fun c => constraints c.2) cases'
            ++ constEqual (result rvalue) (tVariant variantTypes)
            :: concat caseConstraints).
    { intros c Hc. apply elem_of_app. right. apply elem_of_app. right.
      apply list_elem_of_further. by apply (elem_of_concat _ _ _ Hin). }
    split.
    + exists form. split; [done|]. apply Hsub. apply list_elem_of_here.
    + intros use Huse Hname.
      destruct (mapM_Res_Ok_elem _ _ _ Hbound _ Huse) as (b & Hb & Hbin).
      rewrite bool_decide_eq_true_2 in Hb by done.
      destruct (List.find _ variantTypes) as [variant|] eqn:Hfind; [|discriminate].
      injection Hb as <-. exists variant.2. split.
      * unfold lookupAssoc. by rewrite Hfind.
      * apply Hsub. apply list_elem_of_further.
        apply (elem_of_concat _ _ _ Hbin). apply list_elem_of_here.
  - intros c Hc. apply elem_of_app in Hc as [Hc|Hc]; [by left|].
    apply elem_of_app in Hc as [Hc|Hc]; [right; by left|].
    right. right. apply elem_of_cons in Hc as [->|Hc]; [eauto|].
    revert c Hc. apply Forall_forall, Forall_concat_list.
    eapply mapM_Res_Forall; [|exact Hcc].
    apply Forall_forall. intros c' _ cs. apply matchCaseConstraints_equalities.
Qed.

Lemma match_binds_case_variables_witness :
  exists r n',
    infer (EMatch (EVariableReference "v" tt)
             [("some", "x", [EVariableReference "x" tt]);
              ("none", "_", [EVariableReference "d" tt])] tt) [] ∅ 0
      = Ok (r, n') /\
    exists rvalue variantTypes,
      map fst variantTypes = ["some"; "none"] /\
      constEqual (result rvalue) (tVariant variantTypes) ∈ constraints r.
Proof.
  eexists _, _. split; [vm_compute; reflexivity|].
  edestruct (match_binds_case_variables (EVariableReference "v" tt)
    [("some", "x", [EVariableReference "x" tt]);
     ("none", "_", [EVariableReference "d" tt])] tt [] ∅ 0)
    as (rv & n1 & cs & n2 & vt & _ & _ & _ & Hlabels & _ & Hvariant & _);
    [vm_compute; reflexivity|].
  exists rv, vt. split; [exact Hlabels|exact Hvariant].
Defined.

(** X9: a type annotation takes as its type the instantiated annotation
    with the aliases of the module expanded, so the type mentions no
    declared alias; it inherits the effect of the annotated value, equates
    the value with the type and passes the assumptions of the value on. *)
Theorem annotation_type_is_expanded (ty : TypeWithWildcards)
    (value : Expression unit) (i : unit) (monovars : list string)
    (internalTypes : gmap string Monotype)
    (n n' : nat) (r : InferResult (Expression Typed)) :
  infer (ETypeAnnotation ty value i) monovars internalTypes n = Ok (r, n') ->
  exists inferred n1 instantiated t,
    infer value monovars internalTypes n = Ok (inferred, n1) /\
    instantiate ty n1 = Ok (instantiated, n') /\
    expandTypeAliases instantiated internalTypes = Ok t /\
    result r =
      ETypeAnnotation ty (result inferred)
        (mkTyped t (effect (info (result inferred)))) /\
    (forall c, c ∈ listTypeConstants t -> internalTypes !! c = None) /\
    constraints r = constraints inferred ++ [constEqual (result inferred) t] /\
    assumptions r = assumptions inferred.
Proof.
  intros H. simpl in H.
  inv_bind H inferred n1 Hinf. inv_bind H instantiated n2 Hinst.
  inv_bind H t n3 Ht. inv_ret H. apply liftRes_Ok in Ht as [Ht ->].
  exists inferred, n1, instantiated, t. simpl.
  repeat (split; [done|]). split; [|done].
  unfold expandTypeAliases in Ht.
  destruct (expandDepth _ _ instantiated) as [x|] eqn:E; [|discriminate].
  injection Ht as ->. by eapply expandDepth_ExpandsTo.
Qed.

Lemma annotation_type_is_expanded_witness :
  let internalTypes : gmap string Monotype := {["ID" := tNumber]} in
  exists r n',
    infer (ETypeAnnotation (mkTypeWithWildcards (tVector (TConstant "ID")))
             (EVariableReference "x" tt) tt) [] internalTypes 0
      = Ok (r, n') /\
    forall c, c ∈ listTypeConstants (type (info (result r))) ->
      internalTypes !! c = None.
Proof.
  eexists _, _. split; [vm_compute; reflexivity|].
  edestruct (annotation_type_is_expanded
    (mkTypeWithWildcards (tVector (TConstant "ID")))
    (EVariableReference "x" tt) tt [] {["ID" := tNumber]} 0)
    as (inf & n1 & inst & t & _ & _ & _ & Hr & Hc & _);
    [vm_compute; reflexivity|].
  rewrite Hr. exact Hc.
Defined.

(** ** Effects *)

(** X10: a vector, a record, a conditional, a function call, the body of a
    [let] and a [do] block give their own effect to every subexpression
    they evaluate: for each of them there is an effect constraint against
    the effect of the node. *)
Theorem evaluated_subforms_share_effect (expr : Expression unit)
    (monovars : list string) (internalTypes : gmap string Monotype)
    (n n' : nat) (r : InferResult (Expression Typed)) :
  infer expr monovars internalTypes n = Ok (r, n') ->
  forall sub, sub ∈ evaluatedSubforms (result r) ->
    constEffect sub (effect (info (result r))) ∈ constraints r.
Proof.
  intros H sub Hsub. destruct expr; simpl in H.
  - inv_fresh H t n1 Ht. inv_fresh H eff n2 Heff. inv_ret H.
    by apply elem_of_nil in Hsub.
  - inv_fresh H eff n1 Heff. inv_ret H. by apply elem_of_nil in Hsub.
  - inv_fresh H eff n1 Heff. inv_ret H. by apply elem_of_nil in Hsub.
  - inv_bind H vs n1 Hvs. inv_fresh H t n2 Ht. inv_fresh H eff n3 Heff. inv_ret H.
    simpl in *. apply elem_of_app. right. apply elem_of_app. right.
    by apply (list_elem_of_fmap_2 (fun e => constEffect e _)).
  - inv_bind H inferred n1 Hinf. inv_bind H tailInferred n2 Htail.
    inv_fresh H tailRowType n3 Hrow. inv_fresh H eff n4 Heff.
    inv_bind H tailConstraint n5 Htc. inv_ret H. simpl in *.
    do 3 (apply elem_of_app; right).
    apply elem_of_app in Hsub as [Hsub|Hsub]; apply elem_of_app; [left|right].
    + rewrite map_map in Hsub. simpl in Hsub.
      apply list_elem_of_fmap in Hsub as (f & -> & Hf).
      by apply (list_elem_of_fmap_2
        (fun i : string * InferResult (Expression Typed) =>
           constEffect (result i.2) _)).
    + destruct tailInferred as [tail|]; simpl in *; [|by apply elem_of_nil in Hsub].
      apply list_elem_of_singleton in Hsub as ->. apply list_elem_of_here.
  - inv_fresh H t n1 Ht. inv_fresh H eff n2 Heff. inv_ret H.
    by apply elem_of_nil in Hsub.
  - inv_bind H rc n1 Hc. inv_bind H rt n2 Ht. inv_bind H re n3 He.
    inv_fresh H t' n4 Ht'. inv_fresh H eff n5 Heff. inv_ret H. simpl in *.
    do 3 (apply elem_of_app; right). do 3 apply list_elem_of_further.
    by apply (list_elem_of_fmap_2 (fun e => constEffect e _)
                [result rc; result rt; result re]).
  - inv_bind H argtypes n1 Hargs. inv_bind H bodyInference n2 Hbody.
    inv_fresh H bodyEffect n3 Hbe. inv_bind H out n4 Hout.
    inv_fresh H eff n5 Heff. inv_ret H. by apply elem_of_nil in Hsub.
  - inv_bind H ifn n1 Hfn. inv_bind H iargs n2 Hargs.
    inv_fresh H tTo n3 Hto. inv_fresh H eff n4 Heff. inv_ret H. simpl in *.
    apply list_elem_of_further. do 2 (apply elem_of_app; right).
    apply elem_of_cons in Hsub as [->|Hsub]; [apply list_elem_of_here|].
    apply list_elem_of_further.
    by apply (list_elem_of_fmap_2 (fun a => constEffect a _)).
  - inv_bind H bindingsInfo n1 Hbi. inv_bind H bodyInference n2 Hbody.
    inv_fresh H eff n3 Heff. inv_bind H t n4 Ht. inv_ret H. simpl in *.
    do 4 (apply elem_of_app; right).
    by apply (list_elem_of_fmap_2 (fun form => constEffect form _)).
  - inv_bind H inferred n1 Hinf. inv_bind H instantiated n2 Hinst.
    inv_bind H t n3 Ht. inv_ret H. by apply elem_of_nil in Hsub.
  - inv_bind H rbody n1 Hbody. inv_bind H rret n2 Hret.
    inv_fresh H eff n3 Heff. inv_ret H. simpl in *.
    do 2 (apply elem_of_app; right).
    apply elem_of_app in Hsub as [Hsub|Hsub]; apply elem_of_app; [left|right].
    + by apply (list_elem_of_fmap_2 (fun form => constEffect form _)).
    + apply list_elem_of_singleton in Hsub as ->. apply list_elem_of_here.
  - inv_bind H rvalue n1 Hvalue. inv_bind H cases' n2 Hcases.
    inv_fresh H t n3 Ht. inv_fresh H eff n4 Heff.
    inv_bind H variantTypes n5 Hvt. inv_bind H caseConstraints n6 Hcc. inv_ret H.
    by apply elem_of_nil in Hsub.
Qed.

Lemma evaluated_subforms_share_effect_witness :
  exists r n' sub,
    infer (EDoBlock [EFunctionCall (EVariableReference "print" tt) [] tt]
             (ENumber 1 tt) tt) [] ∅ 0 = Ok (r, n') /\
    sub ∈ evaluatedSubforms (result r) /\
    constEffect sub (effect (info (result r))) ∈ constraints r.
Proof.
  eexists _, _, _. split; [vm_compute; reflexivity|].
  split; [vm_compute; apply list_elem_of_here|].
  eapply (evaluated_subforms_share_effect
    (EDoBlock [EFunctionCall (EVariableReference "print" tt) [] tt]
       (ENumber 1 tt) tt) [] ∅ 0);
    [vm_compute; reflexivity|vm_compute; apply list_elem_of_here].
Defined.

(** ** The declaration graph of the cycle check *)

Lemma findIndex_Some {A} (p : A -> bool) (l : list A) (i : nat) :
  findIndex p l = Some i ->
  exists x, l !! i = Some x /\ p x = true /\
    forall k y, k < i -> l !! k = Some y -> p y = false.
Proof.
  revert i. induction l as [|x l IH]; intros i; simpl; [discriminate|].
  destruct (p x) eqn:Hx.
  - intros [= <-]. exists x. split; [done|]. split; [done|]. intros; lia.
  - destruct (findIndex p l) as [k|]; simpl; [|discriminate].
    intros [= <-]. destruct (IH k eq_refl) as (y & Hy & Hpy & Hfirst).
    exists y. split; [done|]. split; [done|].
    intros [|k'] z Hk Hz; simpl in Hz; [by injection Hz as <-|].
    eapply Hfirst; [|exact Hz]. lia.
Qed.

Lemma findIndex_None {A} (p : A -> bool) (l : list A) :
  findIndex p l = None -> forall x, x ∈ l -> p x = false.
Proof.
  induction l as [|x l IH]; simpl; intros H y Hy; [by apply elem_of_nil in Hy|].
  destruct (p x) eqn:Hx; [discriminate|].
  destruct (findIndex p l); [discriminate|].
  apply elem_of_cons in Hy as [->|Hy]; [done|]. by apply IH.
Qed.

Lemma indexOf_Some_lookup (x : nat) (l : list nat) (i : nat) :
  indexOf x l = Some i -> l !! i = Some x.
Proof.
  revert i. induction l as [|y l IH]; intros i; simpl; [discriminate|].
  case_bool_decide; [intros [= <-]; simpl; congruence|].
  destruct (indexOf x l); simpl; [|discriminate].
  intros [= <-]. by apply IH.
Qed.

Lemma dependsOn_lt (allTypeAliases : list (string * Monotype)) (i j : nat) :
  dependsOn allTypeAliases i j ->
  i < length allTypeAliases /\ j < length allTypeAliases.
Proof.
  intros (decl & ud & Hi & _ & Hj).
  apply findIndex_Some in Hj as (x & Hx & _).
  split; by eapply lookup_lt_Some.
Qed.

(** What a successful visit has looked at: nothing that can be reached
    from the declaration is on the path. *)
Lemma visit_Ok_unreachable (allTypeAliases : list (string * Monotype)) (i j : nat) :
  rtc (dependsOn allTypeAliases) i j ->
  forall fuel path, visit fuel allTypeAliases i path = Ok tt -> j ∉ path.
Proof.
  induction 1 as [i|i k j (decl & ud & Hi & Hud & Hk) _ IH]; intros fuel path H.
  - destruct fuel; simpl in H;
      (destruct (indexOf i path) eqn:E;
       [by destruct (Nat.eqb _ 1)|by apply indexOf_None]).
  - destruct fuel; simpl in H; destruct (indexOf i path) eqn:E;
      try (by destruct (Nat.eqb _ 1)); [discriminate|].
    rewrite Hi in H. destruct decl as [name definition]. simpl in Hud.
    destruct (mapM _ (listTypeConstants definition)) as [ys|e] eqn:Hdeps;
      [|discriminate].
    destruct (mapM_Res_Ok_elem _ _ _ Hdeps ud Hud) as ([] & Hvisit & _).
    rewrite Hk in Hvisit. apply IH in Hvisit.
    intros Hj. apply Hvisit. apply elem_of_app. by left.
Qed.

Lemma dependencyPath_snoc (allTypeAliases : list (string * Monotype))
    (path : list nat) (i j : nat) :
  dependencyPath allTypeAliases (path ++ [i]) -> dependsOn allTypeAliases i j ->
  dependencyPath allTypeAliases ((path ++ [i]) ++ [j]).
Proof.
  intros Hpath Hij k a b Ha Hb.
  destruct (decide (S k < length (path ++ [i]))) as [Hlt|Hge].
  - rewrite lookup_app_l in Ha by lia. rewrite lookup_app_l in Hb by lia.
    by eapply Hpath.
  - assert (S k = length (path ++ [i])) as Hk.
    { apply lookup_lt_Some in Hb. rewrite length_app in Hb. simpl in Hb. lia. }
    rewrite lookup_app_r in Hb by lia. rewrite Hk, Nat.sub_diag in Hb.
    injection Hb as <-.
    rewrite lookup_app_l in Ha by lia.
    rewrite length_app in Hk. simpl in Hk.
    rewrite lookup_app_r in Ha by lia.
    replace (k - length path) with 0 in Ha by lia. by injection Ha as <-.
Qed.

Lemma dependencyPath_drop (allTypeAliases : list (string * Monotype))
    (path : list nat) (n : nat) :
  dependencyPath allTypeAliases path -> dependencyPath allTypeAliases (drop n path).
Proof.
  intros Hpath k a b Ha Hb. rewrite lookup_drop in Ha, Hb.
  apply (Hpath (n + k)); [done|]. by rewrite <- Nat.add_succ_r.
Qed.

Lemma dependencyPath_tc (allTypeAliases : list (string * Monotype)) (l : list nat) :
  forall a b, dependencyPath allTypeAliases (a :: l ++ [b]) ->
    tc (dependsOn allTypeAliases) a b.
Proof.
  induction l as [|c l IH]; intros a b Hpath.
  - apply tc_once. by apply (Hpath 0).
  - eapply tc_l; [by apply (Hpath 0)|].
    apply IH. intros k x y Hx Hy. by apply (Hpath (S k)).
Qed.

Lemma dependencyCycle_tc (allTypeAliases : list (string * Monotype))
    (cycle : list nat) :
  dependencyCycle allTypeAliases cycle ->
  exists i, head cycle = Some i /\ tc (dependsOn allTypeAliases) i i.
Proof.
  intros (Hlen & Hends & Hpath).
  destruct cycle as [|a l]; [simpl in Hlen; lia|].
  destruct (decide (l = [])) as [->|Hl]; [simpl in Hlen; lia|].
  destruct (exists_last Hl) as (l' & b & ->).
  exists a. split; [done|].
  simpl in Hends. rewrite last_cons, last_snoc in Hends. injection Hends as <-.
  by eapply dependencyPath_tc.
Qed.

Lemma visit_Throw (allTypeAliases : list (string * Monotype)) (fuel : nat) :
  forall i path e,
    visit fuel allTypeAliases i path = Throw e ->
    dependencyPath allTypeAliases (path ++ [i]) ->
    (exists msg, e = RangeError msg) \/
    exists cycle,
      e = Error (circularAliasMessage (aliasNames allTypeAliases cycle)) /\
      dependencyCycle allTypeAliases cycle.
Proof.
  assert (Hcycle : forall i path index e,
    indexOf i path = Some index ->
    (let cycle := drop index path ++ [i] in
     if Nat.eqb (length cycle) 1 then Throw (Error recursiveAliasMessage)
     else Throw (Error (circularAliasMessage
            (omap (fun i => fst <$> allTypeAliases !! i) cycle))) : Res unit)
      = Throw e ->
    dependencyPath allTypeAliases (path ++ [i]) ->
    exists cycle,
      e = Error (circularAliasMessage (aliasNames allTypeAliases cycle)) /\
      dependencyCycle allTypeAliases cycle).
  { intros i path index e Hindex H Hpath. cbv zeta in H.
    pose proof (indexOf_Some_lt _ _ _ Hindex) as Hlt.
    pose proof (indexOf_Some_lookup _ _ _ Hindex) as Hlookup.
    rewrite length_app, length_drop in H. simpl in H.
    destruct (Nat.eqb (length path - index + 1) 1) eqn:E;
      [apply Nat.eqb_eq in E; lia|].
    injection H as <-. exists (drop index path ++ [i]).
    split; [done|]. split; [|split].
    - rewrite length_app, length_drop. simpl. lia.
    - rewrite last_snoc.
      destruct (drop index path) as [|x l] eqn:Hd.
      + apply (f_equal length) in Hd. rewrite length_drop in Hd. simpl in Hd. lia.
      + simpl. f_equal.
        assert (drop index path !! 0 = Some x) as H0 by by rewrite Hd.
        rewrite lookup_drop, Nat.add_0_r, Hlookup in H0. by injection H0.
    - rewrite <- (drop_app_le _ _ index) by lia. by apply dependencyPath_drop. }
  induction fuel as [|fuel IH]; intros i path e H Hpath; simpl in H;
    destruct (indexOf i path) as [index|] eqn:Hindex.
  - right. by eapply Hcycle.
  - left. injection H as <-. eauto.
  - right. by eapply Hcycle.
  - destruct (allTypeAliases !! i) as [[name definition]|] eqn:Hdecl;
      [|discriminate].
    destruct (mapM _ (listTypeConstants definition)) as [k|e'] eqn:Hdeps;
      simpl in H; [discriminate|].
    injection H as ->. apply mapM_Res_Throw in Hdeps as (ud & Hud & Hvisit).
    destruct (findIndex _ allTypeAliases) as [dep|] eqn:Hdep; [|discriminate].
    apply IH in Hvisit; [done|].
    apply dependencyPath_snoc; [done|].
    exists (name, definition), ud. by repeat split.
Qed.

Lemma checkCircularTypes_Throw (allTypeAliases : list (string * Monotype))
    (e : Exception) :
  checkCircularTypes allTypeAliases = Throw e ->
  exists cycle,
    e = Error (circularAliasMessage (aliasNames allTypeAliases cycle)) /\
    dependencyCycle allTypeAliases cycle.
Proof.
  intros H. pose proof (checkCircularTypes_within_bound allTypeAliases) as Hbound.
  rewrite H in Hbound. unfold checkCircularTypes in H.
  destruct (mapM _ (seq 0 (length allTypeAliases))) as [k|e'] eqn:E;
    simpl in H; [discriminate|].
  injection H as ->. apply mapM_Res_Throw in E as (i & _ & Hi).
  apply visit_Throw in Hi as [(msg & ->)|Hc]; [by destruct (Hbound msg)|done|].
  intros k a b Ha Hb. simpl in Hb. by destruct k.
Qed.

Lemma checkCircularTypes_Ok (allTypeAliases : list (string * Monotype)) :
  checkCircularTypes allTypeAliases = Ok tt <->
  forall i, ~ tc (dependsOn allTypeAliases) i i.
Proof.
  split.
  - intros H i Hcycle. unfold checkCircularTypes in H.
    destruct (mapM _ (seq 0 (length allTypeAliases))) as [k|e'] eqn:E;
      [|discriminate].
    assert (exists j, dependsOn allTypeAliases i j /\
                      rtc (dependsOn allTypeAliases) j i) as (j & Hij & Hji).
    { inversion Hcycle as [? ? Hr|? j ? Hr Hji]; subst.
      - exists i. split; [done|apply rtc_refl].
      - exists j. split; [done|by apply tc_rtc]. }
    destruct (dependsOn_lt _ _ _ Hij) as [Hi _].
    destruct (mapM_Res_Ok_elem _ _ _ E i) as ([] & Hvisit & _).
    { apply elem_of_seq. lia. }
    simpl in Hvisit. destruct Hij as (decl & ud & Hdecl & Hud & Hj).
    rewrite Hdecl in Hvisit. destruct decl as [name definition]. simpl in Hud.
    destruct (mapM _ (listTypeConstants definition)) as [ys|e] eqn:Hdeps;
      [|discriminate].
    destruct (mapM_Res_Ok_elem _ _ _ Hdeps ud Hud) as ([] & Hv & _).
    rewrite Hj in Hv. apply (visit_Ok_unreachable _ _ _ Hji) in Hv.
    apply Hv. simpl. apply list_elem_of_here.
  - intros Hacyclic. destruct (checkCircularTypes allTypeAliases) as [[]|e] eqn:E;
      [done|].
    apply checkCircularTypes_Throw in E as (cycle & _ & Hc).
    apply dependencyCycle_tc in Hc as (i & _ & Hi). by destruct (Hacyclic i).
Qed.

(** X11: the cycle check accepts a list of alias declarations exactly when
    no declaration can be reached from itself in the graph the check
    walks, in which a declaration points to the first declaration of every
    name its definition mentions. *)
Theorem checkCircularTypes_accepts_iff_acyclic
    (allTypeAliases : list (string * Monotype)) :
  checkCircularTypes allTypeAliases = Ok tt <->
  forall i, ~ tc (dependsOn allTypeAliases) i i.
Proof. apply checkCircularTypes_Ok. Qed.

(** X12: when the cycle check fails it raises an [Error] whose message
    lists, joined by arrows, the names along a path of the declaration
    graph that ends in the declaration it starts from; the path holds at
    least two entries, since the first declaration is listed again at the
    end. *)
Theorem checkCircularTypes_reports_a_cycle
    (allTypeAliases : list (string * Monotype)) (e : Exception) :
  checkCircularTypes allTypeAliases = Throw e ->
  exists cycle,
    e = Error (circularAliasMessage (aliasNames allTypeAliases cycle)) /\
    2 <= length cycle /\
    head cycle = last cycle /\
    dependencyPath allTypeAliases cycle.
Proof.
  intros H. apply checkCircularTypes_Throw in H as (cycle & -> & Hlen & Hends & Hpath).
  by exists cycle.
Qed.

Lemma checkCircularTypes_reports_a_cycle_witness :
  let aliases :=
    [("A", tVector (TConstant "B")); ("B", tVector (TConstant "A"))] in
  exists e cycle,
    checkCircularTypes aliases = Throw e /\
    e = Error (circularAliasMessage (aliasNames aliases cycle)) /\
    head cycle = last cycle.
Proof.
  eexists.
  edestruct (checkCircularTypes_reports_a_cycle
    [("A", tVector (TConstant "B")); ("B", tVector (TConstant "A"))])
    as (cycle & He & _ & Hends & _); [vm_compute; reflexivity|].
  exists cycle. split; [vm_compute; reflexivity|]. split; [exact He|exact Hends].
Defined.

(** ** The alias environment of a module *)

Lemma typeAliasesOf_cons {I} (s : Syntax I) (forms : list (Syntax I)) :
  typeAliasesOf (s :: forms) =
    match s with
    | STypeAlias a d => (a, d) :: typeAliasesOf forms
    | _ => typeAliasesOf forms
    end.
Proof. by destruct s. Qed.

Lemma internalTypesOf_lookup {I} (forms : list (Syntax I)) (name : string) :
  internalTypesOf forms !! name = lastDeclaration name (typeAliasesOf forms).
Proof.
  unfold internalTypesOf, lastDeclaration.
  assert (G : forall env : gmap string Monotype,
    foldl (fun env s =>
      match s with
      | STypeAlias alias definition => <[alias := definition]> env
      | _ => env
      end) env forms !! name =
    match last (List.filter (fun p => bool_decide (p.1 = name))
                  (typeAliasesOf forms)) with
    | Some p => Some p.2
    | None => env !! name
    end).
  { induction forms as [|s forms IH]; intros env; [done|].
    simpl foldl. rewrite IH, typeAliasesOf_cons.
    destruct s as [e|x v|ids|a d]; try done.
    simpl List.filter. case_bool_decide as Ha; simpl in Ha.
    - subst a. rewrite last_cons.
      destruct (last (List.filter _ (typeAliasesOf forms))); [done|].
      by rewrite lookup_insert_eq.
    - destruct (last (List.filter _ (typeAliasesOf forms))); [done|].
      by rewrite lookup_insert_ne. }
  rewrite G. by destruct (last _).
Qed.

(** X13: the alias environment [inferModule] builds binds every name to
    the definition of its last declaration in the module, and binds no
    other name. *)
Theorem internalTypesOf_keeps_last_declaration (forms : list (Syntax unit))
    (name : string) :
  internalTypesOf forms !! name = lastDeclaration name (typeAliasesOf forms).
Proof. apply internalTypesOf_lookup. Qed.

Lemma filter_NoDup_fst {A} (name : string) (l : list (string * A)) (x : A) :
  NoDup (map fst l) -> (name, x) ∈ l ->
  List.filter (fun p => bool_decide (p.1 = name)) l = [(name, x)].
Proof.
  induction l as [|[k y] l IH]; intros Hnd Hin; [by apply elem_of_nil in Hin|].
  simpl in Hnd. apply NoDup_cons in Hnd as [Hk Hnd]. simpl.
  apply elem_of_cons in Hin as [[= <- <-]|Hin].
  - rewrite bool_decide_eq_true_2 by done. f_equal.
    clear IH Hnd. induction l as [|[k' y'] l IH]; [done|]. simpl.
    rewrite bool_decide_eq_false_2.
    + apply IH. intros Hin. apply Hk. simpl. by apply list_elem_of_further.
    + simpl. intros ->. apply Hk. simpl. apply list_elem_of_here.
  - rewrite bool_decide_eq_false_2; [by apply IH|].
    simpl. intros ->. apply Hk.
    apply (list_elem_of_fmap_2 fst) in Hin. exact Hin.
Qed.

Lemma lastDeclaration_NoDup (name : string) (decls : list (string * Monotype))
    (def : Monotype) :
  NoDup (map fst decls) ->
  lastDeclaration name decls = Some def <-> (name, def) ∈ decls.
Proof.
  intros Hnd. unfold lastDeclaration. split.
  - destruct (last _) as [[k y]|] eqn:E; [|discriminate]. intros [= <-].
    apply last_Some_elem_of in E. apply filter_elem_of in E as [Hin Hk].
    apply bool_decide_eq_true in Hk. simpl in Hk. by subst k.
  - intros Hin. by rewrite (filter_NoDup_fst _ _ _ Hnd Hin).
Qed.

Lemma findIndex_is_Some {A} (p : A -> bool) (l : list A) (x : A) :
  x ∈ l -> p x = true -> is_Some (findIndex p l).
Proof.
  intros Hx Hp. destruct (findIndex p l) eqn:E; [eauto|].
  by rewrite (findIndex_None _ _ E x Hx) in Hp.
Qed.

(** With distinct names every reference between aliases is an edge of the
    declaration graph. *)
Section DistinctNames.

Variable decls : list (string * Monotype).
Variable env : gmap string Monotype.
Hypothesis Hnames : NoDup (map fst decls).
Hypothesis Henv : forall name def, env !! name = Some def <-> (name, def) ∈ decls.

Lemma declaration_index (i j : nat) (name : string) :
  fst <$> decls !! i = Some name -> fst <$> decls !! j = Some name -> i = j.
Proof using Hnames.
  intros Hi Hj. eapply NoDup_lookup; [exact Hnames| |];
    rewrite list_lookup_fmap; [exact Hi|exact Hj].
Qed.

Lemma refersTo_dependsOn (a b : string) (i : nat) :
  refersTo env a b -> fst <$> decls !! i = Some a ->
  exists j, fst <$> decls !! j = Some b /\ dependsOn decls i j.
Proof using Hnames Henv.
  intros (def & Hdef & Hb & [defb Hdefb]) Hi.
  apply Henv in Hdef. apply Henv in Hdefb.
  apply list_elem_of_lookup in Hdef as [i' Hi'].
  assert (i' = i) as ->.
  { eapply declaration_index; [|exact Hi]. by rewrite Hi'. }
  destruct (findIndex_is_Some (fun x => bool_decide (x.1 = b)) decls (b, defb))
    as [j Hj]; [done|by apply bool_decide_eq_true|].
  exists j. split.
  - apply findIndex_Some in Hj as (x & Hx & Hpx & _).
    apply bool_decide_eq_true in Hpx. by rewrite Hx, <- Hpx.
  - exists (a, def), b. by repeat split.
Qed.

Lemma tc_refersTo_dependsOn (a b : string) :
  tc (refersTo env) a b ->
  forall i, fst <$> decls !! i = Some a ->
    exists j, fst <$> decls !! j = Some b /\ tc (dependsOn decls) i j.
Proof using Hnames Henv.
  induction 1 as [a b Hab|a c b Hac _ IH]; intros i Hi.
  - destruct (refersTo_dependsOn _ _ _ Hab Hi) as (j & Hj & Hij).
    exists j. split; [done|by apply tc_once].
  - destruct (refersTo_dependsOn _ _ _ Hac Hi) as (k & Hk & Hik).
    destruct (IH _ Hk) as (j & Hj & Hkj).
    exists j. split; [done|]. by eapply tc_l.
Qed.

Lemma distinct_names_acyclic :
  checkCircularTypes decls = Ok tt -> aliasesAcyclic env.
Proof using Hnames Henv.
  intros Hcheck a Hcycle.
  pose proof (proj1 (checkCircularTypes_Ok _) Hcheck) as Hc.
  assert (exists i, fst <$> decls !! i = Some a) as [i Hi].
  { inversion Hcycle as [? ? (def & Hdef & _)|? ? ? (def & Hdef & _)]; subst;
      apply Henv in Hdef; apply list_elem_of_lookup in Hdef as [i Hi];
      exists i; by rewrite Hi. }
  destruct (tc_refersTo_dependsOn _ _ Hcycle _ Hi) as (j & Hj & Hij).
  rewrite (declaration_index _ _ _ Hj Hi) in Hij. by apply (Hc i).
Qed.

Lemma dependsOn_refersTo (i j : nat) :
  dependsOn decls i j ->
  exists a b, fst <$> decls !! i = Some a /\ fst <$> decls !! j = Some b /\
    refersTo env a b.
Proof using Henv.
  intros ([a def] & ud & Hi & Hud & Hj). simpl in Hud.
  apply findIndex_Some in Hj as ([b defb] & Hj & Hp & _).
  apply bool_decide_eq_true in Hp. simpl in Hp. subst b.
  exists a, ud. rewrite Hi, Hj. split; [done|]. split; [done|].
  exists def. split; [|split; [done|]].
  - apply Henv. by eapply list_elem_of_lookup_2.
  - exists defb. apply Henv. by eapply list_elem_of_lookup_2.
Qed.

Lemma tc_dependsOn_refersTo (i j : nat) :
  tc (dependsOn decls) i j ->
  exists a b, fst <$> decls !! i = Some a /\ fst <$> decls !! j = Some b /\
    tc (refersTo env) a b.
Proof using Henv.
  induction 1 as [i j Hij|i k j Hik _ (b & c & Hb & Hc & Hbc)].
  - destruct (dependsOn_refersTo _ _ Hij) as (a & b & Ha & Hb & Hab).
    exists a, b. split; [done|]. split; [done|]. by apply tc_once.
  - destruct (dependsOn_refersTo _ _ Hik) as (a & b' & Ha & Hb' & Hab).
    rewrite Hb in Hb'. injection Hb' as <-.
    exists a, c. split; [done|]. split; [done|]. by eapply tc_l.
Qed.

Lemma acyclic_distinct_names :
  aliasesAcyclic env -> checkCircularTypes decls = Ok tt.
Proof using Henv.
  intros Hacyclic. apply checkCircularTypes_Ok. intros i Hcycle.
  destruct (tc_dependsOn_refersTo _ _ Hcycle) as (a & b & Ha & Hb & Hab).
  rewrite Ha in Hb. injection Hb as <-. by apply (Hacyclic a).
Qed.

End DistinctNames.

Lemma checked_aliases_acyclic {I} (forms : list (Syntax I)) :
  NoDup (map fst (typeAliasesOf forms)) ->
  checkCircularTypes (typeAliasesOf forms) = Ok tt <->
  aliasesAcyclic (internalTypesOf forms).
Proof.
  intros Hnames.
  assert (Henv : forall name def,
    internalTypesOf forms !! name = Some def <-> (name, def) ∈ typeAliasesOf forms).
  { intros name def. rewrite internalTypesOf_lookup.
    by apply lastDeclaration_NoDup. }
  split.
  - by apply distinct_names_acyclic.
  - by apply acyclic_distinct_names.
Qed.

(** X14: when the aliases of a module have distinct names, they pass the
    cycle check exactly when the alias environment [inferModule] builds
    from them is acyclic; and then, when no definition mentions a constant
    that is read from [Object.prototype], the expansion in that environment
    of every type that mentions none returns, with the expansion the
    specification describes. *)
Theorem checked_distinct_aliases_expand (forms : list (Syntax unit)) :
  NoDup (map fst (typeAliasesOf forms)) ->
  (checkCircularTypes (typeAliasesOf forms) = Ok tt <->
   aliasesAcyclic (internalTypesOf forms)) /\
  (checkCircularTypes (typeAliasesOf forms) = Ok tt ->
   aliasesResolve (internalTypesOf forms) ->
   forall t, typeResolves (internalTypesOf forms) t ->
     exists t',
       expandTypeAliases t (internalTypesOf forms) = Ok t' /\
       ExpandsTo (internalTypesOf forms) t t').
Proof.
  intros Hnames.
  pose proof (checked_aliases_acyclic forms Hnames) as Hiff.
  split; [done|]. intros Hcheck Hresolve t Ht.
  destruct (expandTypeAliases_resolved _ t (proj1 Hiff Hcheck) Hresolve Ht)
    as [t' Ht'].
  exists t'. split; [done|]. by eapply expandDepth_ExpandsTo.
Qed.

Lemma checked_distinct_aliases_expand_witness :
  let forms : list (Syntax unit) :=
    [STypeAlias "Person" (tRecord [("id", TConstant "ID")] emptyRow);
     SExpression (ENumber 1 tt);
     STypeAlias "ID" tNumber] in
  exists t',
    expandTypeAliases (tVector (TConstant "Person")) (internalTypesOf forms)
      = Ok t'.
Proof.
  edestruct (checked_distinct_aliases_expand
    [STypeAlias "Person" (tRecord [("id", TConstant "ID")] emptyRow);
     SExpression (ENumber 1 tt);
     STypeAlias "ID" tNumber]) as [_ H].
  - apply (bool_decide_unpack _). vm_compute. exact I.
  - destruct (H eq_refl) with (t := tVector (TConstant "Person"))
      as (t' & Ht' & _).
    + apply (bool_decide_unpack _). vm_compute. exact I.
    + vm_compute. reflexivity.
    + by exists t'.
Defined.

(** ** When the expansion changes a type, and when it fails *)

Lemma expandDepth_unchanged (env : gmap string Monotype) (d : nat) (t : Monotype) :
  (forall c, c ∈ listTypeConstants t ->
     env !! c = None /\ c ∉ objectPrototypeKeys) ->
  expandDepth d env t = Ok t.
Proof.
  induction t as [name|op IHop args IHargs|name us| |label lt IHlt ext IHext];
    intros Hc; rewrite expandDepth_unfold.
  - destruct (Hc name) as [Hn Hp]; [simpl; apply list_elem_of_here|].
    assert (H : getProperty env name = None) by by apply getProperty_None.
    by rewrite H.
  - rewrite IHop.
    2:{ intros c Hin. apply Hc. simpl. apply elem_of_app. by left. }
    simpl. replace (mapM (expandDepth d env) args) with (Ok args : Res _);
      [done|].
    symmetry. apply mapM_Res_Forall2. apply list_all_Forall in IHargs.
    assert (Hargs : forall c, c ∈ flat_map listTypeConstants args ->
      env !! c = None /\ c ∉ objectPrototypeKeys).
    { intros c Hin. apply Hc. simpl. apply elem_of_app. by right. }
    clear Hc IHop. induction IHargs as [|x l Hx _ IH]; [constructor|].
    constructor.
    + apply Hx. intros c Hin. apply Hargs. simpl. apply elem_of_app. by left.
    + apply IH. intros c Hin. apply Hargs. simpl. apply elem_of_app. by right.
  - done.
  - done.
  - rewrite IHlt.
    2:{ intros c Hin. apply Hc. simpl. apply elem_of_app. by left. }
    simpl. rewrite IHext; [done|].
    intros c Hin. apply Hc. simpl. apply elem_of_app. by right.
Qed.

(** X15: an expansion that returns is final: expanding its result again
    changes nothing, and the result differs from the type that was
    expanded exactly when that type mentions a declared alias. This holds
    for every alias environment, cyclic or not. *)
Theorem expandTypeAliases_idempotent (env : gmap string Monotype)
    (t t' : Monotype) :
  expandTypeAliases t env = Ok t' ->
  expandTypeAliases t' env = Ok t' /\
  (t' = t <-> forall c, c ∈ listTypeConstants t -> env !! c = None).
Proof.
  unfold expandTypeAliases. intros E.
  destruct (expandDepth_ExpandsTo _ _ _ _ E) as [_ Hc].
  split; [by rewrite expandDepth_unchanged|]. split.
  - intros <- c Hin. by apply Hc.
  - intros Hno. rewrite expandDepth_unchanged in E; [by injection E|].
    intros c Hin. split; [by apply Hno|]. intros Hp.
    destruct (expandDepth_constants _ _ _ _ E _ Hin) as [tc Htc].
    rewrite expandDepth_inherited in Htc by auto. discriminate.
Qed.

Lemma expandTypeAliases_idempotent_witness :
  let env : gmap string Monotype :=
    <["Person" := tRecord [("id", TConstant "ID")] emptyRow]> {["ID" := tNumber]} in
  exists t',
    expandTypeAliases (tVector (TConstant "Person")) env = Ok t' /\
    expandTypeAliases t' env = Ok t'.
Proof.
  eexists. split; [vm_compute; reflexivity|].
  eapply (expandTypeAliases_idempotent
    (<["Person" := tRecord [("id", TConstant "ID")] emptyRow]> {["ID" := tNumber]})
    (tVector (TConstant "Person"))).
  vm_compute; reflexivity.
Defined.

(** X16: the expansion of a type returns exactly when the type leads
    neither to a cycle of the alias references nor to a constant that is
    read from [Object.prototype]; it throws nothing but the stack overflow,
    and then the type leads to a cycle, and the type error of expanding
    what is no type, and then the type leads to such a constant. *)
Theorem expandTypeAliases_outcomes (env : gmap string Monotype)
    (t : Monotype) :
  ((exists t', expandTypeAliases t env = Ok t') <->
     ~ reachesCycle env t /\ ~ reachesInherited env t) /\
  (forall e, expandTypeAliases t env = Throw e ->
     (e = RangeError "Maximum call stack size exceeded" /\
      reachesCycle env t) \/
     (e = TypeError "Cannot read property 'tag' of undefined" /\
      reachesInherited env t)).
Proof. apply expandTypeAliases_cases. Qed.

Lemma expandTypeAliases_outcomes_witness :
  let env : gmap string Monotype := {["A" := tVector (TConstant "A")]} in
  expandTypeAliases (tVector (TConstant "constructor")) ∅ = Throw notAType /\
  reachesInherited ∅ (tVector (TConstant "constructor")) /\
  expandTypeAliases (TConstant "A") env = Throw stackOverflow /\
  reachesCycle env (TConstant "A").
Proof.
  split; [vm_compute; reflexivity|]. split.
  - destruct (proj2 (expandTypeAliases_outcomes ∅
                       (tVector (TConstant "constructor"))) notAType)
      as [[E _]|[_ H]]; [vm_compute; reflexivity|discriminate E|exact H].
  - split; [vm_compute; reflexivity|].
    destruct (proj2 (expandTypeAliases_outcomes
                       {["A" := tVector (TConstant "A")]}
                       (TConstant "A")) stackOverflow)
      as [[_ H]|[E _]]; [vm_compute; reflexivity|exact H|discriminate E].
Defined.

(** X25: over acyclic aliases whose definitions mention no constant that
    is read from [Object.prototype], the expansion of every type that
    mentions none returns; the result is the type with every constant that
    names a declared alias replaced by the expansion of its definition and
    every other constant kept, and it mentions no declared alias. *)
Theorem expandTypeAliases_resolved_expands (env : gmap string Monotype) :
  aliasesAcyclic env -> aliasesResolve env ->
  (forall t, typeResolves env t ->
     exists t',
       expandTypeAliases t env = Ok t' /\
       ExpandsTo env t t' /\
       (forall c, c ∈ listTypeConstants t' -> env !! c = None)) /\
  (forall name def, env !! name = Some def ->
     expandTypeAliases (TConstant name) env = expandTypeAliases def env) /\
  (forall name, env !! name = None -> name ∉ objectPrototypeKeys ->
     expandTypeAliases (TConstant name) env = Ok (TConstant name)).
Proof.
  intros Hacyclic Hresolve. split; [|split].
  - intros t Ht.
    destruct (expandTypeAliases_resolved env t Hacyclic Hresolve Ht) as [t' Ht'].
    exists t'. split; [done|].
    destruct (expandDepth_ExpandsTo _ _ _ _ Ht') as [He Hc].
    split; [done|]. intros c Hin. by apply Hc.
  - intros name def Hdef.
    destruct (expandTypeAliases_resolved env (TConstant name) Hacyclic Hresolve)
      as [t' Ht'].
    { apply typeResolves_elem. intros c Hc _.
      apply list_elem_of_singleton in Hc as ->. eauto. }
    rewrite Ht'. unfold expandTypeAliases in *.
    rewrite (expandDepth_declared _ _ _ _ Hdef) in Ht'.
    destruct (size env) as [|d]; [discriminate|]. symmetry.
    eapply expandDepth_stable; [exact Ht'|done|lia].
  - intros name Hn Hp. by apply expandDepth_opaque.
Qed.

Lemma expandTypeAliases_resolved_expands_witness :
  let env : gmap string Monotype :=
    <["Person" := tRecord [("id", TConstant "ID")] emptyRow]> {["ID" := tNumber]} in
  aliasesAcyclic env /\ aliasesResolve env /\
  exists t',
    expandTypeAliases (tVector (TConstant "Person")) env = Ok t' /\
    ExpandsTo env (tVector (TConstant "Person")) t'.
Proof.
  split; [apply aliasesAcyclicb_sound; vm_compute; reflexivity|].
  split; [apply (bool_decide_unpack _); vm_compute; exact I|].
  edestruct (expandTypeAliases_resolved_expands
    (<["Person" := tRecord [("id", TConstant "ID")] emptyRow]> {["ID" := tNumber]}))
    as [H _].
  - apply aliasesAcyclicb_sound; vm_compute; reflexivity.
  - apply (bool_decide_unpack _); vm_compute; exact I.
  - destruct (H (tVector (TConstant "Person"))) as (t' & Ht' & He & _).
    + vm_compute. reflexivity.
    + exists t'. split; assumption.
Defined.

Lemma tc_decreasing (R : nat -> nat -> Prop) :
  (forall i j, R i j -> j < i) -> forall i j, tc R i j -> j < i.
Proof.
  intros HR i j H. induction H as [i j Hij|i k j Hik _ IH].
  - by apply HR.
  - apply HR in Hik. lia.
Qed.

(** X17: the cycle check resolves a name to its first declaration while
    the alias environment keeps the last one. When an alias is declared a
    second time, the module [a := def; b := a; a := b] passes the check, and
    expanding [a] in the environment of the module overflows the stack. *)
Theorem redeclared_alias_passes_check (a b : string) (def : Monotype) :
  a <> b -> listTypeConstants def = [] ->
  let forms : list (Syntax unit) :=
    [STypeAlias a def; STypeAlias b (TConstant a); STypeAlias a (TConstant b)] in
  checkCircularTypes (typeAliasesOf forms) = Ok tt /\
  expandTypeAliases (TConstant a) (internalTypesOf forms) =
    Throw (RangeError "Maximum call stack size exceeded").
Proof.
  intros Hab Hdef forms. split.
  - apply checkCircularTypes_Ok. intros i Hcycle.
    apply (tc_decreasing (dependsOn (typeAliasesOf forms))) in Hcycle; [lia|].
    clear i Hcycle. intros i j (decl & ud & Hi & Hud & Hj).
    unfold forms in Hi, Hj. simpl in Hi, Hj.
    destruct i as [|[|[|i]]]; simpl in Hi; try discriminate;
      injection Hi as <-; simpl in Hud.
    + rewrite Hdef in Hud. by apply elem_of_nil in Hud.
    + apply list_elem_of_singleton in Hud as ->.
      rewrite bool_decide_eq_true_2 in Hj by done. injection Hj as <-. lia.
    + apply list_elem_of_singleton in Hud as ->.
      rewrite bool_decide_eq_false_2 in Hj by done.
      rewrite bool_decide_eq_true_2 in Hj by done. injection Hj as <-. lia.
  - assert (Ha : internalTypesOf forms !! a = Some (TConstant b)).
    { unfold forms, internalTypesOf. simpl. apply lookup_insert_eq. }
    assert (Hb : internalTypesOf forms !! b = Some (TConstant a)).
    { unfold forms, internalTypesOf. simpl.
      rewrite lookup_insert_ne by done. apply lookup_insert_eq. }
    apply calls_cycle_overflow. eapply tc_l; [|apply tc_once].
    + exists (TConstant b), 0. split; [done|]. split; [constructor|eauto].
    + exists (TConstant a), 0. split; [done|]. split; [constructor|eauto].
Qed.

Lemma redeclared_alias_passes_check_witness :
  let forms : list (Syntax unit) :=
    [STypeAlias "A" (tVar "x" true); STypeAlias "B" (TConstant "A");
     STypeAlias "A" (TConstant "B")] in
  checkCircularTypes (typeAliasesOf forms) = Ok tt /\
  expandTypeAliases (TConstant "A") (internalTypesOf forms) =
    Throw (RangeError "Maximum call stack size exceeded").
Proof.
  apply (redeclared_alias_passes_check "A" "B" (tVar "x" true));
    [discriminate|reflexivity].
Defined.

(** ** The driver of a module *)

Lemma mapInfo_compose {I J K} (f : I -> J) (g : J -> K) (e : Expression I) :
  mapInfo g (mapInfo f e) = mapInfo (fun i => g (f i)) e.
Proof.
  induction e as
    [i|v i|v i|values i IHvalues|fields ext i IHfields IHext|name i
    |c t e i IHc IHt IHe|args body i IHbody|fn args i IHfn IHargs
    |bindings body i IHbindings IHbody|ty value i IHvalue
    |body returning i IHbody IHreturning|value cases i IHvalue IHcases]
    using Expression_Forall_ind; simpl; try done.
  - f_equal. rewrite map_map. apply map_ext_Forall. exact IHvalues.
  - f_equal.
    + rewrite map_map. apply map_ext_Forall.
      eapply Forall_impl; [exact IHfields|]. intros [l x] Hx. simpl in *. by f_equal.
    + destruct ext; simpl in *; [by f_equal|done].
  - by f_equal.
  - f_equal. rewrite map_map. apply map_ext_Forall. exact IHbody.
  - f_equal; [done|]. rewrite map_map. apply map_ext_Forall. exact IHargs.
  - f_equal.
    + rewrite map_map. apply map_ext_Forall.
      eapply Forall_impl; [exact IHbindings|]. intros [l x] Hx. simpl in *. by f_equal.
    + rewrite map_map. apply map_ext_Forall. exact IHbody.
  - by f_equal.
  - f_equal; [|done]. rewrite map_map. apply map_ext_Forall. exact IHbody.
  - f_equal; [done|]. rewrite map_map. apply map_ext_Forall.
    eapply Forall_impl; [exact IHcases|]. intros [lv x] Hx. simpl in *. f_equal.
    rewrite map_map. apply map_ext_Forall. exact Hx.
Qed.

Lemma inferSyntax_eraseSyntax (internalTypes : gmap string Monotype)
    (s : Syntax unit) (n n' : nat) (r : InferResult (Syntax Typed)) :
  inferSyntax s internalTypes n = Ok (r, n') -> eraseSyntax (result r) = s.
Proof.
  destruct s as [e|x v|ids|a d]; simpl; intros H.
  - inv_bind H i n1 Hi. inv_ret H. simpl. f_equal. by eapply infer_eraseInfo.
  - inv_bind H i n1 Hi. inv_ret H. simpl. f_equal. by eapply infer_eraseInfo.
  - by inv_ret H.
  - by inv_ret H.
Qed.

Lemma inferSyntax_usesIn (internalTypes : gmap string Monotype)
    (s : Syntax unit) (n n' : nat) (r : InferResult (Syntax Typed)) :
  inferSyntax s internalTypes n = Ok (r, n') ->
  n <= n' /\ usesIn n n' (assumptions r).
Proof.
  destruct s as [e|x v|ids|a d]; simpl; intros H.
  - inv_bind H i n1 Hi. inv_ret H. simpl. by eapply infer_usesIn.
  - inv_bind H i n1 Hi. inv_ret H. simpl. by eapply infer_usesIn.
  - inv_ret H. split; [lia|apply usesIn_nil].
  - inv_ret H. split; [lia|apply usesIn_nil].
Qed.

Lemma inferSyntax_Throw (internalTypes : gmap string Monotype)
    (s : Syntax unit) (n : nat) (e : Exception) :
  inferSyntax s internalTypes n = Throw e -> e ∈ generatorExceptions.
Proof.
  destruct s as [x|x v|ids|a d]; simpl; intros H; try discriminate.
  - throw_step H; [by eapply infer_Throw|discriminate].
  - throw_step H; [by eapply infer_Throw|discriminate].
Qed.

Lemma inferSyntax_freeVariables (internalTypes : gmap string Monotype)
    (s : Syntax unit) (n n' : nat) (r : InferResult (Syntax Typed)) :
  inferSyntax s internalTypes n = Ok (r, n') ->
  map aname (assumptions r) = freeVariablesOfSyntax s.
Proof.
  destruct s as [e|x v|ids|a d]; simpl; intros H.
  - inv_bind H i n1 Hi. inv_ret H. simpl. by eapply infer_freeVariables.
  - inv_bind H i n1 Hi. inv_ret H. simpl. by eapply infer_freeVariables.
  - by inv_ret H.
  - by inv_ret H.
Qed.

Lemma internalVariablesOf_lookup (forms : list (Syntax Typed)) (name : string) :
  internalVariablesOf forms !! name =
    (fun value => type (info value)) <$> lastDefinition name forms.
Proof.
  unfold internalVariablesOf, lastDefinition.
  assert (G : forall env : gmap string Monotype,
    foldl (fun env s =>
      match s with
      | SDefinition variable value => <[variable := type (info value)]> env
      | _ => env
      end) env forms !! name =
    match last (omap (fun s =>
            match s with
            | SDefinition x value =>
                if bool_decide (x = name) then Some value else None
            | _ => None
            end) forms) with
    | Some value => Some (type (info value))
    | None => env !! name
    end).
  { induction forms as [|s forms IH]; intros env; [done|].
    simpl foldl. rewrite IH, omap_cons_eq.
    destruct s as [e|x v|ids|a d]; try done.
    case_bool_decide as Hx.
    - subst x. rewrite last_cons.
      destruct (last (omap _ forms)); [done|]. by rewrite lookup_insert_eq.
    - destruct (last (omap _ forms)); [done|]. by rewrite lookup_insert_ne. }
  rewrite G. by destruct (last _).
Qed.

Lemma inferSyntax_total (internalTypes : gmap string Monotype)
    (s : Syntax unit) :
  aliasesAcyclic internalTypes ->
  aliasesResolve internalTypes ->
  nonEmptyBodiesOfSyntax s = true ->
  Forall (typeResolves internalTypes) (annotationTypesOfSyntax s) ->
  returnsWith (fun _ => True) (inferSyntax s internalTypes).
Proof.
  intros Hacyclic Hresolve Hwf Hq. destruct s as [e|v value|ids|a d]; simpl in *.
  - eapply returnsWith_bind; [by apply infer_total|]. intros ? _. returns_done.
  - eapply returnsWith_bind; [by apply infer_total|]. intros ? _. returns_done.
  - returns_done.
  - returns_done.
Qed.

Section DriverInvariants.

Variable inlinePrimitives : gmap string TypeSchema.
Variable applySubstitution : Monotype -> gmap string Monotype -> Monotype.
Variable solve :
list TConstraint -> gmap string Monotype -> Res (gmap string Monotype).

#[local] Abbreviation groupAssumptions := (groupAssumptions inlinePrimitives).
#[local] Abbreviation inferType := (inferType inlinePrimitives applySubstitution solve).
#[local] Abbreviation inferModule := (inferModule inlinePrimitives applySubstitution solve).
#[local] Abbreviation moduleConstraints := (moduleConstraints inlinePrimitives).
#[local] Abbreviation applySubstitutionToSyntax := (applySubstitutionToSyntax applySubstitution).
#[local] Abbreviation applySubstitutionToExpr := (applySubstitutionToExpr applySubstitution).

Lemma applySubstitutionToExpr_erase (e : Expression Typed)
  (s : gmap string Monotype) :
eraseInfo (applySubstitutionToExpr e s) = eraseInfo e.
Proof. unfold eraseInfo, applySubstitutionToExpr. apply mapInfo_compose. Qed.

Lemma applySubstitutionToSyntax_erase (f : Syntax Typed)
  (s : gmap string Monotype) :
eraseSyntax (applySubstitutionToSyntax f s) = eraseSyntax f.
Proof.
destruct f; simpl; try done; f_equal; apply applySubstitutionToExpr_erase.
Qed.

Lemma inferModule_Ok (m : Module unit) (externalEnv : ExternalEnvironment)
  (n n' : nat) (res : InferModuleResult) :
inferModule m externalEnv n = Ok (res, n') ->
exists bodyInferences solution,
  checkCircularTypes (typeAliasesOf (body m)) = Ok tt /\
  mapM (fun form => inferSyntax form (internalTypesOf (body m))) (body m) n
    = Ok (bodyInferences, n') /\
  body (typedModule res) =
    map (fun s => applySubstitutionToSyntax s solution)
      (map result bodyInferences) /\
  moduleUnknowns res =
    map (fun v => applySubstitutionToVariableReference applySubstitution v solution)
      (unknowns
         (groupAssumptions (flatMap assumptions bodyInferences)
            (mkInternalEnvironment
               (internalVariablesOf (map result bodyInferences))
               (internalTypesOf (body m)))
            externalEnv)).
Proof.
intros H. unfold inferModule in H.
inv_bind H u n1 Hcheck. apply liftRes_Ok in Hcheck as [Hcheck ->].
inv_bind H bodyInferences n2 Hbody. inv_bind H solution n3 Hsolve.
apply liftRes_Ok in Hsolve as [Hsolve ->]. inv_ret H.
exists bodyInferences, solution. destruct u. by repeat split.
Qed.

(** X18: the typed module [inferModule] returns is the module it was given
  with annotations added: it has the same forms in the same order, and
  forgetting the annotations gives the input back, whatever the solver
  and the substitution do. *)
Theorem inferModule_annotates_input (m : Module unit)
  (externalEnv : ExternalEnvironment) (n n' : nat) (res : InferModuleResult) :
inferModule m externalEnv n = Ok (res, n') ->
map eraseSyntax (body (typedModule res)) = body m.
Proof.
intros H. apply inferModule_Ok in H as (bis & solution & _ & Hbody & -> & _).
rewrite !map_map.
apply (Forall2_map_eq
  (fun y => eraseSyntax (applySubstitutionToSyntax (result y) solution))).
eapply mapM_Gen_Forall2; [|exact Hbody].
apply Forall_forall. intros s _ k y k' Hy.
rewrite applySubstitutionToSyntax_erase. by eapply inferSyntax_eraseSyntax.
Qed.

(** X19: a module in which a type alias declaration can be reached from
  itself is rejected before anything is inferred: for every external
  environment and every solver, [inferModule] raises the error of the
  cycle check, whose message lists a cycle of the declarations. *)
Theorem inferModule_rejects_cyclic_aliases (m : Module unit)
  (externalEnv : ExternalEnvironment) (n : nat) (i : nat) :
tc (dependsOn (typeAliasesOf (body m))) i i ->
exists cycle,
  inferModule m externalEnv n =
    Throw (Error (circularAliasMessage
             (aliasNames (typeAliasesOf (body m)) cycle))) /\
  dependencyCycle (typeAliasesOf (body m)) cycle.
Proof.
intros Hcycle.
destruct (checkCircularTypes (typeAliasesOf (body m))) as [[]|e] eqn:E.
- by destruct (proj1 (checkCircularTypes_Ok _) E i).
- destruct (checkCircularTypes_Throw _ _ E) as (cycle & -> & Hc).
  exists cycle. split; [|done].
  unfold inferModule. rewrite Gen_bind_unfold. unfold liftRes at 1.
  by rewrite E.
Qed.

(** X20: what [inferModule] raises is raised by the cycle check, by the
  generator (one of its four exceptions: the invariant violation of a case
  without forms, the type error of an empty body, the stack overflow of
  cyclic aliases, the type error of expanding a constant that is read from
  [Object.prototype]) or by the solver. *)
Theorem inferModule_exceptions (m : Module unit)
  (externalEnv : ExternalEnvironment) (n : nat) (e : Exception) :
inferModule m externalEnv n = Throw e ->
checkCircularTypes (typeAliasesOf (body m)) = Throw e \/
(e = InvariantViolation "Missing returning form!" \/
 e = TypeError "Cannot read property 'info' of undefined" \/
 e = RangeError "Maximum call stack size exceeded" \/
 e = TypeError "Cannot read property 'tag' of undefined") \/
exists constraints, solve constraints ∅ = Throw e.
Proof.
intros H. unfold inferModule in H.
throw_step H; [left; by apply liftRes_Throw in H|].
throw_step H.
{ right. left. apply mapM_Gen_Throw in H as (s & k & _ & H).
  apply inferSyntax_Throw in H. unfold generatorExceptions in H.
  apply elem_of_cons in H as [->|H]; [by left|].
  apply elem_of_cons in H as [->|H]; [right; by left|].
  apply elem_of_cons in H as [->|H]; [right; right; by left|].
  apply list_elem_of_singleton in H as ->. right. right. by right. }
throw_step H; [|discriminate].
right. right. apply liftRes_Throw in H. eauto.
Qed.

(** X21: the unknown references [inferModule] reports are, by name and in
  order, the free occurrences of variables in the expressions and the
  definitions of the module whose name is neither defined in the module,
  nor bound in the external environment, nor an inline primitive, nor the
  name of a member of [Object.prototype]. *)
Theorem inferModule_unknowns_are_free_variables (m : Module unit)
  (externalEnv : ExternalEnvironment) (n n' : nat) (res : InferModuleResult) :
inferModule m externalEnv n = Ok (res, n') ->
map aname (moduleUnknowns res) =
  List.filter
    (fun x =>
       bool_decide ((x ∉ definitionNames (body m))
                    /\ ext_variables externalEnv !! x = None
                    /\ inlinePrimitives !! x = None
                    /\ (x ∉ objectPrototypeKeys)))
    (flat_map freeVariablesOfSyntax (body m)).
Proof.
intros H.
apply inferModule_Ok in H as (bodyInferences & solution & _ & Hbody & _ & ->).
rewrite map_map. cbn [aname applySubstitutionToVariableReference].
rewrite groupAssumptions_unknowns.
rewrite <- (mapM_names _ assumptions freeVariablesOfSyntax _
  (proj2 (Forall_forall _ _)
     (fun s _ k y k' Hy => inferSyntax_freeVariables _ s k k' y Hy))
  _ _ _ Hbody).
rewrite <- (map_filter_aname (fun x =>
  bool_decide ((x ∉ definitionNames (body m))
               /\ ext_variables externalEnv !! x = None
               /\ inlinePrimitives !! x = None
               /\ (x ∉ objectPrototypeKeys)))).
f_equal. apply list_filter_ext_in. intros v Hv. apply bool_decide_ext.
cbn [int_variables].
rewrite <- not_true_iff_false, hasProperty_true.
rewrite internalVariablesOf_is_Some.
rewrite (inferSyntax_definitionNames _ _ _ _ _ Hbody).
rewrite lookupVariableType_None. tauto.
Qed.

(** X22: every use of a variable that the module defines is constrained
  to be an instance, with no monomorphic variables, of the type of the
  last definition of that name; the lookup of that type never yields
  [undefined]. *)
Theorem module_definitions_constrain_uses (forms : list (Syntax unit))
  (internalTypes : gmap string Monotype) (externalEnv : ExternalEnvironment)
  (n n' : nat) (bodyInferences : list (InferResult (Syntax Typed)))
  (use : TAssumption) :
mapM (fun form => inferSyntax form internalTypes) forms n
  = Ok (bodyInferences, n') ->
use ∈ flatMap assumptions bodyInferences ->
aname use ∈ definitionNames forms ->
let internalEnv :=
  mkInternalEnvironment (internalVariablesOf (map result bodyInferences))
    internalTypes in
exists value,
  lastDefinition (aname use) (map result bodyInferences) = Some value /\
  constImplicitInstance (assumptionExpr use) [] (type (info value)) ∈
    moduleConstraints bodyInferences internalEnv externalEnv
      (groupAssumptions (flatMap assumptions bodyInferences)
         internalEnv externalEnv).
Proof.
intros Hbody Huse Hname internalEnv.
rewrite <- (inferSyntax_definitionNames _ _ _ _ _ Hbody) in Hname.
apply internalVariablesOf_is_Some in Hname as Hsome.
destruct Hsome as [t Ht]. assert (Ht' := Ht).
rewrite internalVariablesOf_lookup in Ht'.
destruct (lastDefinition (aname use) (map result bodyInferences))
  as [value|] eqn:Hlast; [|discriminate].
injection Ht' as <-. exists value. split; [done|].
unfold moduleConstraints.
apply elem_of_app. right. apply elem_of_app. right.
apply list_elem_of_fmap. exists use. split.
- cbn [int_variables internalEnv]. unfold implicitInstance.
  apply getProperty_Own in Ht. by rewrite Ht.
- unfold groupAssumptions. cbn [internals]. apply filter_elem_of. split; [done|].
  apply hasProperty_true. cbn [int_variables internalEnv]. left. by rewrite Ht.
Qed.

(** X23: the typed expression [inferType] returns is the expression it was
  given with annotations added, whatever the solver and the substitution
  do. *)
Theorem inferType_annotates_input (expr : Expression unit)
  (env : ExternalEnvironment) (internalTypes : gmap string Monotype)
  (n n' : nat) (e : Expression Typed) :
inferType expr env internalTypes n = Ok (e, n') ->
eraseInfo e = expr.
Proof.
intros H. unfold inferType in H.
inv_bind H i n1 Hi. inv_bind H s n2 Hs. inv_ret H.
rewrite applySubstitutionToExpr_erase. by eapply infer_eraseInfo.
Qed.

(** X26: when the aliases pass the cycle check, the generator returns for
  every form and the solver discharges the constraints, [inferModule]
  returns, and its unknowns are the gathered assumptions whose name is
  neither a definition of the module, nor in the external environment,
  nor an inline primitive, nor the name of a member of
  [Object.prototype], in order, each with the solution applied to its
  type and effect. *)
Theorem inferModule_unknowns (m : Module unit)
  (externalEnv : ExternalEnvironment) (n n1 : nat)
  (bodyInferences : list (InferResult (Syntax Typed)))
  (solution : gmap string Monotype) :
let internalTypes := internalTypesOf (body m) in
let internalEnv :=
  mkInternalEnvironment (internalVariablesOf (map result bodyInferences))
    internalTypes in
let gathered := flatMap assumptions bodyInferences in
checkCircularTypes (typeAliasesOf (body m)) = Ok tt ->
mapM (fun form => inferSyntax form internalTypes) (body m) n
  = Ok (bodyInferences, n1) ->
solve (moduleConstraints bodyInferences internalEnv externalEnv
         (groupAssumptions gathered internalEnv externalEnv)) ∅
  = Ok solution ->
exists res,
  inferModule m externalEnv n = Ok (res, n1) /\
  moduleUnknowns res =
    map (fun v =>
           applySubstitutionToVariableReference applySubstitution v solution)
      (List.filter
         (fun v =>
            bool_decide ((aname v ∉ definitionNames (body m))
                         /\ ext_variables externalEnv !! aname v = None
                         /\ inlinePrimitives !! aname v = None
                         /\ (aname v ∉ objectPrototypeKeys)))
         gathered) /\
  (forall v, applySubstitutionToExpr (assumptionExpr v) solution =
     assumptionExpr
       (applySubstitutionToVariableReference applySubstitution v solution)).
Proof.
intros internalTypes internalEnv gathered Hcheck Hbody Hsolve.
eexists. split; [|split].
- unfold inferModule. rewrite Gen_bind_unfold. unfold liftRes at 1.
  rewrite Hcheck. rewrite Gen_bind_unfold.
  fold internalTypes. rewrite Hbody. rewrite Gen_bind_unfold.
  fold internalEnv gathered. unfold liftRes. rewrite Hsolve. reflexivity.
- cbn [moduleUnknowns]. rewrite groupAssumptions_unknowns. f_equal.
  apply list_filter_ext_in. intros v Hv. apply bool_decide_ext.
  cbn [int_variables internalEnv].
  rewrite <- not_true_iff_false, hasProperty_true.
  rewrite internalVariablesOf_is_Some.
  rewrite (inferSyntax_definitionNames _ _ _ _ _ Hbody).
  rewrite lookupVariableType_None. tauto.
- by intros [].
Qed.

(** C2 (amended): when every body of a function, of a [let] and of a case
  of a [match] holds at least one form, the type aliases are acyclic, and
  neither their definitions nor the annotations mention a constant that
  is read from [Object.prototype], the generator returns a typed tree
  with its constraints and assumptions, whatever the monomorphic variables
  and the state of the fresh-variable source; it does not throw. A failure
  of [inferType] on such an expression is then a failure of the solver on
  the constraints it was handed, and a failure of [inferModule] on a
  module of such forms, whose aliases have distinct names, is a failure of
  the alias cycle check or of the solver. *)
Theorem infer_returns :
(forall (internalTypes : gmap string Monotype) (expr : Expression unit)
        (monovars : list string) (n : nat),
   aliasesAcyclic internalTypes ->
   aliasesResolve internalTypes ->
   nonEmptyBodies expr = true ->
   Forall (typeResolves internalTypes) (annotationTypes expr) ->
   exists r n', infer expr monovars internalTypes n = Ok (r, n')) /\
(forall (internalTypes : gmap string Monotype) (expr : Expression unit)
        (env : ExternalEnvironment) (n : nat) (e : Exception),
   aliasesAcyclic internalTypes ->
   aliasesResolve internalTypes ->
   nonEmptyBodies expr = true ->
   Forall (typeResolves internalTypes) (annotationTypes expr) ->
   inferType expr env internalTypes n = Throw e ->
   exists i n',
     infer expr [] internalTypes n = Ok (i, n') /\
     solve (inferTypeConstraints inlinePrimitives i env) ∅ = Throw e) /\
(forall (m : Module unit) (externalEnv : ExternalEnvironment) (n : nat)
        (e : Exception),
   NoDup (map fst (typeAliasesOf (body m))) ->
   aliasesResolve (internalTypesOf (body m)) ->
   forallb nonEmptyBodiesOfSyntax (body m) = true ->
   Forall (typeResolves (internalTypesOf (body m)))
     (flat_map annotationTypesOfSyntax (body m)) ->
   inferModule m externalEnv n = Throw e ->
   checkCircularTypes (typeAliasesOf (body m)) = Throw e \/
   exists bodyInferences n',
     mapM (fun form => inferSyntax form (internalTypesOf (body m))) (body m) n
       = Ok (bodyInferences, n') /\
     let internalEnv :=
       mkInternalEnvironment (internalVariablesOf (map result bodyInferences))
         (internalTypesOf (body m)) in
     solve (moduleConstraints bodyInferences internalEnv externalEnv
              (groupAssumptions (flatMap assumptions bodyInferences)
                 internalEnv externalEnv)) ∅ = Throw e).
Proof.
split; [|split].
- intros internalTypes expr monovars n Hacyclic Hresolve Hwf Hq.
  destruct (infer_total internalTypes expr monovars Hacyclic Hresolve Hwf Hq n)
    as (r & n' & Hr & _).
  eauto.
- intros internalTypes expr env n e Hacyclic Hresolve Hwf Hq H.
  destruct (infer_total internalTypes expr [] Hacyclic Hresolve Hwf Hq n)
    as (i & n' & Hi & _).
  exists i, n'. split; [done|].
  unfold inferType in H. rewrite Gen_bind_unfold, Hi in H.
  apply Gen_bind_Throw in H as [H|(? & ? & _ & [=])].
  by apply liftRes_Throw in H.
- intros m externalEnv n e Hnames Hresolve Hwf Hq H.
  unfold inferModule in H.
  apply Gen_bind_Throw in H as [H|(u & n1 & Hcheck & H)];
    [left; by apply liftRes_Throw in H|].
  right. apply liftRes_Ok in Hcheck as [Hcheck ->]. destruct u.
  apply (checked_aliases_acyclic _ Hnames) in Hcheck as Hacyclic.
  destruct (returnsWith_mapM (fun _ _ => True)
              (fun form => inferSyntax form (internalTypesOf (body m)))
              (body m)) with (n := n) as (bodyInferences & n' & Hbody & _).
  { apply forallb_Forall_true in Hwf. rewrite Forall_forall in Hwf |- *.
    intros s Hs. apply inferSyntax_total; [done|done|by apply Hwf|].
    by eapply Forall_flat_map_elem. }
  exists bodyInferences, n'. split; [done|].
  rewrite Gen_bind_unfold, Hbody in H.
  apply Gen_bind_Throw in H as [H|(? & ? & _ & [=])].
  by apply liftRes_Throw in H.
Qed.

End DriverInvariants.

Lemma inferModule_unknowns_witness :
  let m :=
    mkModule [SDefinition "x" (ENumber 1 tt);
              SExpression (EVariableReference "foo" tt);
              SExpression (EVariableReference "toString" tt);
              SExpression (EVariableReference "x" tt)] in
  exists res n1,
    inferModule ∅ (fun t _ => t) (fun _ s => Ok s) m
      (mkExternalEnvironment ∅ ∅) 0 = Ok (res, n1) /\
    map aname (moduleUnknowns res) = ["foo"].
Proof.
  edestruct (inferModule_unknowns ∅ (fun t _ => t) (fun _ s => Ok s)
    (mkModule [SDefinition "x" (ENumber 1 tt);
               SExpression (EVariableReference "foo" tt);
               SExpression (EVariableReference "toString" tt);
               SExpression (EVariableReference "x" tt)])
    (mkExternalEnvironment ∅ ∅) 0) as (res & H1 & H2 & _);
    [vm_compute; reflexivity|vm_compute; reflexivity|vm_compute; reflexivity|].
  eexists res, _. split; [exact H1|]. rewrite H2. vm_compute. reflexivity.
Defined.

Lemma infer_returns_witness :
  let env : gmap string Monotype := {["ID" := tNumber]} in
  let expr :=
    EFunction ["x"]
      [ETypeAnnotation (mkTypeWithWildcards (TConstant "ID"))
         (EVariableReference "x" tt) tt] tt in
  let failing :=
    fun (_ : list TConstraint) (_ : gmap string Monotype) =>
      Throw (Error "unify") : Res (gmap string Monotype) in
  (exists r n', infer expr [] env 0 = Ok (r, n')) /\
  (exists i n',
     inferType ∅ (fun t _ => t) failing expr (mkExternalEnvironment ∅ ∅) env 0
       = Throw (Error "unify") /\
     infer expr [] env 0 = Ok (i, n') /\
     failing (inferTypeConstraints ∅ i (mkExternalEnvironment ∅ ∅)) ∅
       = Throw (Error "unify")) /\
  (inferModule ∅ (fun t _ => t) failing
     (mkModule [STypeAlias "ID" tNumber; SExpression expr])
     (mkExternalEnvironment ∅ ∅) 0 = Throw (Error "unify") /\
   checkCircularTypes
     (typeAliasesOf [STypeAlias (I := unit) "ID" tNumber; SExpression expr])
     = Ok tt).
Proof.
  pose proof (infer_returns ∅ (fun t _ => t)
    (fun _ _ => Throw (Error "unify"))) as (H1 & H2 & H3).
  split; [|split].
  - apply H1.
    + apply aliasesAcyclicb_sound. vm_compute. reflexivity.
    + apply (bool_decide_unpack _). vm_compute. exact I.
    + reflexivity.
    + apply (bool_decide_unpack _). vm_compute. exact I.
  - edestruct (H2 {["ID" := tNumber]}
      (EFunction ["x"]
         [ETypeAnnotation (mkTypeWithWildcards (TConstant "ID"))
            (EVariableReference "x" tt) tt] tt)
      (mkExternalEnvironment ∅ ∅) 0 (Error "unify")) as (i & n' & Hi & Hs).
    + apply aliasesAcyclicb_sound. vm_compute. reflexivity.
    + apply (bool_decide_unpack _). vm_compute. exact I.
    + reflexivity.
    + apply (bool_decide_unpack _). vm_compute. exact I.
    + vm_compute. reflexivity.
    + exists i, n'. split; [vm_compute; reflexivity|]. split; [exact Hi|exact Hs].
  - split; [vm_compute; reflexivity|].
    destruct (H3
      (mkModule [STypeAlias "ID" tNumber;
                 SExpression
                   (EFunction ["x"]
                      [ETypeAnnotation (mkTypeWithWildcards (TConstant "ID"))
                         (EVariableReference "x" tt) tt] tt)])
      (mkExternalEnvironment ∅ ∅) 0 (Error "unify")) as [Hc|_].
    + apply (bool_decide_unpack _). vm_compute. exact I.
    + apply (bool_decide_unpack _). vm_compute. exact I.
    + reflexivity.
    + apply (bool_decide_unpack _). vm_compute. exact I.
    + vm_compute. reflexivity.
    + vm_compute in Hc. discriminate Hc.
    + vm_compute. reflexivity.
Defined.

Lemma inferModule_annotates_input_witness :
  let m :=
    mkModule [STypeAlias "ID" tNumber;
              SDefinition "x" (ENumber 1 tt);
              SExpression (EFunctionCall (EVariableReference "f" tt)
                             [EVariableReference "x" tt] tt);
              SExport ["x"]] in
  exists res n',
    inferModule ∅ (fun t _ => t) (fun _ s => Ok s) m
      (mkExternalEnvironment ∅ ∅) 0 = Ok (res, n') /\
    map eraseSyntax (body (typedModule res)) = body m.
Proof.
  eexists _, _. split; [vm_compute; reflexivity|].
  eapply (inferModule_annotates_input ∅ (fun t _ => t) (fun _ s => Ok s)
    (mkModule [STypeAlias "ID" tNumber;
               SDefinition "x" (ENumber 1 tt);
               SExpression (EFunctionCall (EVariableReference "f" tt)
                              [EVariableReference "x" tt] tt);
               SExport ["x"]])
    (mkExternalEnvironment ∅ ∅) 0).
  vm_compute; reflexivity.
Defined.

Lemma inferModule_rejects_cyclic_aliases_witness :
  let m : Module unit :=
    mkModule [STypeAlias "A" (tVector (TConstant "B"));
              SExpression (ENumber 1 tt);
              STypeAlias "B" (tVector (TConstant "A"))] in
  tc (dependsOn (typeAliasesOf (body m))) 0 0 /\
  exists msg,
    inferModule ∅ (fun t _ => t) (fun _ s => Ok s) m
      (mkExternalEnvironment ∅ ∅) 0 = Throw (Error msg).
Proof.
  assert (H : tc (dependsOn (typeAliasesOf
    [STypeAlias (I := unit) "A" (tVector (TConstant "B"));
     SExpression (ENumber 1 tt);
     STypeAlias "B" (tVector (TConstant "A"))])) 0 0).
  { eapply tc_l; [|apply tc_once].
    - exists ("A", tVector (TConstant "B")), "B".
      split; [reflexivity|].
      split; [apply list_elem_of_further, list_elem_of_here|reflexivity].
    - exists ("B", tVector (TConstant "A")), "A".
      split; [reflexivity|].
      split; [apply list_elem_of_further, list_elem_of_here|reflexivity]. }
  split; [exact H|].
  destruct (inferModule_rejects_cyclic_aliases ∅ (fun t _ => t) (fun _ s => Ok s)
    (mkModule [STypeAlias "A" (tVector (TConstant "B"));
               SExpression (ENumber 1 tt);
               STypeAlias "B" (tVector (TConstant "A"))])
    (mkExternalEnvironment ∅ ∅) 0 0 H) as (cycle & Hthrow & _).
  eexists. exact Hthrow.
Defined.

Lemma inferModule_exceptions_witness :
  let m : Module unit :=
    mkModule [SExpression (EFunction ["x"] [] tt)] in
  let solve :=
    fun (_ : list TConstraint) (s : gmap string Monotype) => Ok s in
  exists e,
    inferModule ∅ (fun t _ => t) solve m (mkExternalEnvironment ∅ ∅) 0
      = Throw e /\
    (checkCircularTypes (typeAliasesOf (body m)) = Throw e \/
     (e = InvariantViolation "Missing returning form!" \/
      e = TypeError "Cannot read property 'info' of undefined" \/
      e = RangeError "Maximum call stack size exceeded" \/
      e = TypeError "Cannot read property 'tag' of undefined") \/
     exists constraints, solve constraints ∅ = Throw e).
Proof.
  eexists. split; [vm_compute; reflexivity|].
  eapply (inferModule_exceptions ∅ (fun t _ => t) (fun _ s => Ok s)
    (mkModule [SExpression (EFunction ["x"] [] tt)])
    (mkExternalEnvironment ∅ ∅) 0).
  vm_compute; reflexivity.
Defined.

Lemma inferModule_unknowns_are_free_variables_witness :
  let m :=
    mkModule [SDefinition "x" (EVariableReference "y" tt);
              SExpression (EFunction ["z"]
                [EFunctionCall (EVariableReference "+" tt)
                   [EVariableReference "x" tt; EVariableReference "z" tt;
                    EVariableReference "toString" tt;
                    EVariableReference "w" tt] tt] tt)] in
  let env :=
    mkExternalEnvironment {["+" := mkTypeSchema [] tNumber]} ∅ in
  exists res n',
    inferModule ∅ (fun t _ => t) (fun _ s => Ok s) m env 0 = Ok (res, n') /\
    map aname (moduleUnknowns res) = ["y"; "w"].
Proof.
  eexists _, _. split; [vm_compute; reflexivity|].
  etransitivity;
    [eapply (inferModule_unknowns_are_free_variables ∅ (fun t _ => t)
       (fun _ s => Ok s)
       (mkModule [SDefinition "x" (EVariableReference "y" tt);
                  SExpression (EFunction ["z"]
                    [EFunctionCall (EVariableReference "+" tt)
                       [EVariableReference "x" tt; EVariableReference "z" tt;
                        EVariableReference "toString" tt;
                        EVariableReference "w" tt] tt] tt)])
       (mkExternalEnvironment {["+" := mkTypeSchema [] tNumber]} ∅) 0);
     vm_compute; reflexivity
    |vm_compute; reflexivity].
Defined.

Lemma module_definitions_constrain_uses_witness :
  let forms :=
    [SDefinition "x" (ENumber 1 tt); SDefinition "x" (EString "a" tt);
     SExpression (EVariableReference "x" tt)] in
  exists bodyInferences n' use value,
    mapM (fun form => inferSyntax form ∅) forms 0 = Ok (bodyInferences, n') /\
    use ∈ flatMap assumptions bodyInferences /\
    lastDefinition (aname use) (map result bodyInferences) = Some value /\
    type (info value) = tString.
Proof.
  edestruct (module_definitions_constrain_uses ∅
    [SDefinition "x" (ENumber 1 tt); SDefinition "x" (EString "a" tt);
     SExpression (EVariableReference "x" tt)] ∅ (mkExternalEnvironment ∅ ∅) 0)
    as (value & Hlast & _);
    [vm_compute; reflexivity
    |vm_compute; apply list_elem_of_here
    |vm_compute; apply list_elem_of_here|].
  eexists _, _, _, value. split; [vm_compute; reflexivity|].
  split; [vm_compute; apply list_elem_of_here|]. split; [exact Hlast|].
  vm_compute in Hlast. by injection Hlast as <-.
Defined.

Lemma inferType_annotates_input_witness :
  let expr :=
    EConditional (EVariableReference "true" tt) (ENumber 1 tt) (ENumber 2 tt) tt in
  exists e n',
    inferType ∅ (fun t _ => t) (fun _ s => Ok s) expr
      (mkExternalEnvironment ∅ ∅) ∅ 0 = Ok (e, n') /\
    eraseInfo e = expr.
Proof.
  eexists _, _. split; [vm_compute; reflexivity|].
  eapply (inferType_annotates_input ∅ (fun t _ => t) (fun _ s => Ok s)
    (EConditional (EVariableReference "true" tt) (ENumber 1 tt) (ENumber 2 tt) tt)
    (mkExternalEnvironment ∅ ∅) ∅ 0).
  vm_compute; reflexivity.
Defined.

(** X24: across the forms of a module no two uses of variables share
    their type variable, so the assumptions gathered from the forms are
    pairwise distinct. *)
Theorem module_uses_distinct (forms : list (Syntax unit))
    (internalTypes : gmap string Monotype) (n n' : nat)
    (bodyInferences : list (InferResult (Syntax Typed))) :
  mapM (fun form => inferSyntax form internalTypes) forms n
    = Ok (bodyInferences, n') ->
  NoDup (map (fun a => type (ainfo a)) (flatMap assumptions bodyInferences)) /\
  NoDup (flatMap assumptions bodyInferences).
Proof.
  intros H.
  apply (mapM_usesIn _ assumptions) in H as [_ [_ Hd]].
  - split; [done|]. by eapply NoDup_fmap_1.
  - apply Forall_forall. intros s _ k y k'. apply inferSyntax_usesIn.
Qed.

Lemma module_uses_distinct_witness :
  exists bodyInferences n',
    mapM (fun form => inferSyntax form ∅)
      [SDefinition "f" (EVariableReference "x" tt);
       SExpression (EVariableReference "x" tt)] 0 = Ok (bodyInferences, n') /\
    NoDup (flatMap assumptions bodyInferences).
Proof.
  eexists _, _. split; [vm_compute; reflexivity|].
  eapply (module_uses_distinct
    [SDefinition "f" (EVariableReference "x" tt);
     SExpression (EVariableReference "x" tt)] ∅ 0).
  vm_compute; reflexivity.
Defined.
